(** * The recommendation / keyword worker of [Backend/src/ai.py]

    A shallow embedding of class [LLM]: the translation adapter, the bounded
    retry around the generative model, keyword extraction, the maintenance of
    the vector store, expert recommendation and the ZeroMQ dispatch loop.

    Python [str] is [string], a sequence of characters: the code compares
    characters, counts them, splits and joins, and looks inside them only
    through the builtins [str.upper], [str.lower] and [str.lstrip], which
    follow the Unicode tables of the interpreter and are parameters of the
    model.  [list] is [list], [dict] with string keys is [gmap string _],
    [set] is [gset], and a distance score (a finite double on which the code
    only performs comparisons) is the rational it denotes.  The collaborators
    the class only calls (Google translator, Ollama, the parsers of
    langchain, spaCy, KeyBERT, the embedding function, the system clock,
    ZeroMQ's [bind]) are, with those builtins, the fields of an environment
    record [Env]; every effect of a call is recorded in the [World] that the
    methods thread through. *)

From Stdlib Require Import Ascii QArith.
From stdpp Require Import base list strings gmap sorting.

Local Open Scope nat_scope.
Local Open Scope stdpp_scope.

(** ** Python string primitives *)

Module Str.

Definition newline : ascii := Ascii.ascii_of_nat 10.

(** The builtins that depend on the Unicode tables, on ASCII text, where
    they are what Python computes; the concrete environments use them.

    [str.isspace] on the ASCII range: TAB, LF, VT, FF, CR, FS, GS, RS, US
    and the blank. *)
Definition ascii_isspace (c : ascii) : bool :=
  let n := Ascii.nat_of_ascii c in
  ((9 <=? n) && (n <=? 13)) || ((28 <=? n) && (n <=? 32)).

Definition len (s : string) : nat := String.length s.

(** [s.lstrip()] on ASCII text *)
Fixpoint ascii_lstrip (s : string) : string :=
  match s with
  | String c s' => if ascii_isspace c then ascii_lstrip s' else s
  | EmptyString => EmptyString
  end.

(** [s.rstrip()] and [s.strip()] on ASCII text *)
Definition ascii_rstrip (s : string) : string :=
  String.rev (ascii_lstrip (String.rev s)).
Definition ascii_strip (s : string) : string := ascii_rstrip (ascii_lstrip s).

(** [s.split(c)] for a one-character separator: [cur] holds the characters
    of the field being read, most recent first. *)
Fixpoint split_go (c : ascii) (cur : string) (s : string) : list string :=
  match s with
  | EmptyString => [String.rev cur]
  | String a s' =>
      if decide (a = c) then String.rev cur :: split_go c EmptyString s'
      else split_go c (String a cur) s'
  end.
Definition split (c : ascii) (s : string) : list string :=
  split_go c EmptyString s.

(** [s.split(", ")]: a comma followed by a blank ends the field. *)
Fixpoint split_comma_go (cur : string) (s : string) : list string :=
  match s with
  | EmptyString => [String.rev cur]
  | String a s' =>
      match s' with
      | String b s'' =>
          if decide (a = ","%char /\ b = " "%char)
          then String.rev cur :: split_comma_skip s'
          else split_comma_go (String a cur) s'
      | EmptyString => [String.rev (String a cur)]
      end
  end
with split_comma_skip (s : string) : list string :=
  match s with
  | EmptyString => [EmptyString]
  | String _ s' => split_comma_go EmptyString s'
  end.
Definition split_comma (s : string) : list string :=
  split_comma_go EmptyString s.

(** [sep.join(l)] *)
Definition join (sep : string) (l : list string) : string :=
  String.concat sep l.

(** [str.upper] and [str.lower] on ASCII text *)
Definition upper_char (c : ascii) : ascii :=
  let n := Ascii.nat_of_ascii c in
  if (97 <=? n) && (n <=? 122) then Ascii.ascii_of_nat (n - 32) else c.
Definition lower_char (c : ascii) : ascii :=
  let n := Ascii.nat_of_ascii c in
  if (65 <=? n) && (n <=? 90) then Ascii.ascii_of_nat (n + 32) else c.

Fixpoint map_chars (f : ascii -> ascii) (s : string) : string :=
  match s with
  | EmptyString => EmptyString
  | String c s' => String (f c) (map_chars f s')
  end.
Definition ascii_upper : string -> string := map_chars upper_char.
Definition ascii_lower : string -> string := map_chars lower_char.

(** [c * n] for a one-character string *)
Fixpoint replicate_char (n : nat) (c : ascii) : string :=
  match n with
  | 0 => EmptyString
  | S n' => String c (replicate_char n' c)
  end.

(** [string.punctuation], one string per character *)
Definition punctuation : list string :=
  (fun n => String (Ascii.ascii_of_nat n) EmptyString) <$>
    (seq 33 15 ++ seq 58 7 ++ seq 91 6 ++ seq 123 4).

End Str.

(** ** Exceptions, values and responses *)

(** The exception classes the code raises, catches or lets through. *)
Inductive exn_class :=
  | Exception              (* [raise Exception(...)] and any unlisted class *)
  | OutputParserException  (* langchain.schema *)
  | AttributeError
  | ValueError
  | IndexError
  | TypeError
  | ContextTerminated      (* zmq.error *)
  | SystemExit.            (* a [BaseException] that is no [Exception] *)

Global Instance exn_class_eq_dec : EqDecision exn_class.
Proof. solve_decision. Defined.

(** An exception object: its class and [str(e)]. *)
Record exn := Exn { exn_cls : exn_class; exn_str : string }.

Inductive result (A : Type) :=
  | Ok (a : A)
  | Raise (e : exn).
Arguments Ok {A} a.
Arguments Raise {A} e.

(** The value of one generic profile in the recommendation mapping:
    [{'expert_emails': [...], 'scores': [...]}]. *)
Record Experts := { expert_emails : list string; scores : list Q }.

(** What a method hands back to the dispatcher. [PyObject] is an object
    that [json] cannot serialise (a model handle, a parser, ...). *)
Inductive pyvalue :=
  | PyNone
  | PyStr (s : string)
  | PyList (l : list string)
  | PyRecommendation (r : gmap string Experts)
  | PyObject (type_name : string).

(** [{'status': 'success', 'result': ...}] or
    [{'status': 'error', 'error_message': ...}] *)
Inductive response :=
  | Success (result_ : pyvalue)
  | Error (error_message : string).

(** The JSON object read from the socket; a key may be missing. *)
Record request := { method : option string; arguments : option (list string) }.

(** ** The vector store and the world *)

(** One record of the Chroma collection: [ids], [documents], [metadatas]. *)
Record Snippet := {
  snippet_id : string;
  document : string;
  expert_email : string
}.

Inductive log_level := LogInfo | LogWarning | LogError.

(** The calls that leave the process, in the order they are made. *)
Inductive event :=
  | EvTranslate (target text : string)   (* GoogleTranslator(...).translate *)
  | EvGenerate (prompt : string)         (* one call of the Ollama model *)
  | EvSleep (seconds : nat)              (* time.sleep *)
  | EvLog (level : log_level) (msg : string)
  | EvAdd (id doc email : string)        (* Collection.add *)
  | EvSend (r : response).               (* socket.send_json *)

Record World := {
  vector_store : list Snippet;  (* expert_recommendation_vector_store *)
  generated : nat;              (* model calls made so far *)
  clock_reads : nat;            (* readings of time.time() so far *)
  is_available : bool;
  awaiting_reply : bool;        (* the REP socket holds a request not yet answered *)
  trace : list event
}.

(** A spaCy pipeline: sentence texts, token texts and default stop words. *)
Record Language := {
  sents : string -> list string;
  tokens : string -> list string;
  default_stop_words : list string
}.

(** The collaborators. [ollama k p] is the answer to prompt [p] at the
    [k]-th call of the model, [time_time k] is [str(time.time())] at the
    [k]-th reading of the clock. [str_upper], [str_lower] and [str_lstrip]
    are the builtins of the interpreter, [keywords_parser] is
    [CommaSeparatedListOutputParser.parse], [zmq_bind] is [Socket.bind].
    Of the private methods that are not embedded below nothing is known:
    [unmodelled_method] gives, for a name and arguments, what the call does
    to the worker and what it returns or raises. *)
Record Env := {
  str_upper : string -> string;
  str_lower : string -> string;
  str_lstrip : string -> string;
  google_translator : string -> string -> result string;
  ollama : nat -> string -> result string;
  expert_recommendation_prompt : string -> string;
  keywords_prompt : string -> string;
  expert_recommendation_parser : string -> string + list string;
  keywords_parser : string -> result (list string);
  nlp_en : Language;
  nlp_fr : Language;
  keywords_model : string -> list string -> result (list (string * Q));
  embedding_distance : string -> string -> Q;
  time_time : nat -> string;
  zmq_bind : string -> result unit;
  unmodelled_method : string -> list string -> World -> result pyvalue * World
}.

(** ** The monad of the methods: a world, and a value or an exception *)

Definition M (A : Type) : Type := World -> result A * World.

Definition ret {A} (a : A) : M A := fun w => (Ok a, w).
Definition raise {A} (e : exn) : M A := fun w => (Raise e, w).
Definition bind {A B} (m : M A) (k : A -> M B) : M B :=
  fun w => match m w with
           | (Ok a, w') => k a w'
           | (Raise e, w') => (Raise e, w')
           end.

Notation "'let!' x ':=' m 'in' k" := (bind m (fun x => k))
  (at level 10, x name, m at level 100, k at level 200).
Notation "'let!' ' pat ':=' m 'in' k" :=
  (bind m (fun x => match x with pat => k end))
  (at level 10, pat pattern, m at level 100, k at level 200).

(** [try: m except cls as e: h e] *)
Definition try_except {A} (m : M A) (cls : exn_class) (h : exn -> M A) : M A :=
  fun w => match m w with
           | (Raise e, w') =>
               if decide (exn_cls e = cls) then h e w' else (Raise e, w')
           | r => r
           end.

Definition lift_result {A} (r : result A) : M A := fun w => (r, w).

Definition emit (ev : event) : M unit :=
  fun w => (Ok tt, {| vector_store := vector_store w;
                      generated := generated w;
                      clock_reads := clock_reads w;
                      is_available := is_available w;
                      awaiting_reply := awaiting_reply w;
                      trace := trace w ++ [ev] |}).

Definition log (level : log_level) (msg : string) : M unit := emit (EvLog level msg).
Definition sleep (seconds : nat) : M unit := emit (EvSleep seconds).

Section Worker.

Context (E : Env).

(** [GoogleTranslator(source='auto', target=target).translate(text)] *)
Definition translate (target text : string) : M string :=
  let! _ := emit (EvTranslate target text) in
  lift_result (google_translator E target text).

(** *** [__translate_text] *)

(** The two lengths of [__translate_text]: the maximum text length accepted
    by the Google Translator API, and the length at which a chunk is sent. *)
Definition max_text_length : nat := 5000.
Definition chunk_length : nat := 3000.
Global Opaque max_text_length chunk_length.

(** The [for sentence in ...] loop: [chunk_to_translate] and
    [translated_text] are the two loop variables. *)
Fixpoint translate_sentences (destination_language : string)
    (sentences : list string) (chunk_to_translate translated_text : string)
    : M (string * string) :=
  match sentences with
  | [] => ret (chunk_to_translate, translated_text)
  | sentence :: rest =>
      if decide (sentence = EmptyString) then
        translate_sentences destination_language rest chunk_to_translate translated_text
      else if chunk_length <=? Str.len chunk_to_translate then
        let! t := translate destination_language chunk_to_translate in
        translate_sentences destination_language rest EmptyString (translated_text +:+ t)
      else
        translate_sentences destination_language rest
          (chunk_to_translate +:+ sentence +:+ String Str.newline EmptyString)
          translated_text
  end.

Definition translate_text (text destination_language : string) : M string :=
  if Str.len text <=? max_text_length then
    translate destination_language text
  else
    let! '(chunk_to_translate, translated_text) :=
      translate_sentences destination_language
        (Str.split Str.newline (str_lstrip E text)) EmptyString EmptyString in
    if decide (chunk_to_translate = EmptyString) then ret translated_text
    else
      let! t := translate destination_language chunk_to_translate in
      ret (translated_text +:+ t).

(** *** The generative model with its bounded retry *)

(** One call of the Ollama model: the [generated w]-th answer. *)
Definition generate (prompt : string) : M string :=
  fun w => (ollama E (generated w) prompt,
            {| vector_store := vector_store w;
               generated := S (generated w);
               clock_reads := clock_reads w;
               is_available := is_available w;
               awaiting_reply := awaiting_reply w;
               trace := trace w ++ [EvGenerate prompt] |}).

(** [self.expert_recommendation_parser.parse(llm_output).profiles] *)
Definition parse_profiles (llm_output : string) : M (list string) :=
  match expert_recommendation_parser E llm_output with
  | inr profiles => ret profiles
  | inl msg => raise (Exn OutputParserException msg)
  end.

(** [self.keywords_chain.predict(document=llm_input)]: the chain formats
    its prompt and calls the same model. *)
Definition keywords_chain_predict (llm_input : string) : M string :=
  generate (keywords_prompt E llm_input).

(** [self.keywords_parser.parse(llm_output)] *)
Definition keywords_parser_parse (llm_output : string) : M (list string) :=
  lift_result (keywords_parser E llm_output).

(** The body of [for attempt in range(1, max_attempts)], once per element
    of [attempts]; [None] from the [try] means that the [except] clause
    ran and the loop goes on. *)
Fixpoint expert_recommendation_attempts (attempts : list nat)
    (llm_input : string) (retry_delay : nat) : M (list string) :=
  match attempts with
  | [] => raise (Exn Exception
            "Error occurred when parsing LLM output for generic profiles.")
  | _ :: rest =>
      let! r :=
        try_except
          (let! llm_output := generate llm_input in
           let! generic_profiles := parse_profiles llm_output in
           ret (Some generic_profiles))
          OutputParserException
          (fun e =>
             let! _ := log LogError (exn_str e) in
             let! _ := sleep retry_delay in
             ret None) in
      match r with
      | Some generic_profiles => ret generic_profiles
      | None => expert_recommendation_attempts rest llm_input retry_delay
      end
  end.

Definition try_get_llm_expert_recommendation (llm_input : string)
    (max_attempts retry_delay : nat) : M (list string) :=
  expert_recommendation_attempts (seq 1 (max_attempts - 1)) llm_input retry_delay.

Fixpoint keywords_attempts (attempts : list nat)
    (llm_input : string) (retry_delay : nat) : M (list string) :=
  match attempts with
  | [] => raise (Exn Exception
            "Error occurred when parsing LLM output for keywords.")
  | _ :: rest =>
      let! r :=
        try_except
          (let! llm_output := keywords_chain_predict llm_input in
           let! llm_keywords := keywords_parser_parse llm_output in
           ret (Some llm_keywords))
          AttributeError
          (fun e =>
             let! _ := log LogError (exn_str e) in
             let! _ := sleep retry_delay in
             ret None) in
      match r with
      | Some llm_keywords => ret llm_keywords
      | None => keywords_attempts rest llm_input retry_delay
      end
  end.

Definition try_get_llm_keywords (llm_input : string)
    (max_attempts retry_delay : nat) : M (list string) :=
  keywords_attempts (seq 1 (max_attempts - 1)) llm_input retry_delay.

(** The defaults of [max_attempts] and [retry_delay] in both signatures. *)
Definition default_max_attempts : nat := 4.
Definition default_retry_delay : nat := 1.

(** *** Stop words *)

(** [list(nlp.Defaults.stop_words) + [p for p in string.punctuation]] *)
Definition get_stop_words (nlp : Language) : list string :=
  default_stop_words nlp ++ Str.punctuation.

(** The loop of [__remove_stop_words], [filtered_documents] being the list
    built so far. *)
Fixpoint remove_stop_words_loop (documents : list string) (nlp : Language)
    (filtered_documents : list string) : list string :=
  match documents with
  | [] => filtered_documents
  | doc :: rest =>
      let tokenized_doc := tokens nlp doc in
      let filtered_tokens :=
        filter (fun token => token ∉ get_stop_words nlp) tokenized_doc in
      remove_stop_words_loop rest nlp
        (filtered_documents ++ [Str.join " " filtered_tokens])
  end.

Definition remove_stop_words (documents : list string) (nlp : Language)
    : list string :=
  remove_stop_words_loop documents nlp [].

(** *** Python list primitives that can raise *)

(** [l.index(x)]: the position of the first occurrence. *)
Definition list_index (l : list string) (x : string) : M nat :=
  match list_find (fun y => y = x) l with
  | Some (i, _) => ret i
  | None => raise (Exn ValueError ("'" +:+ x +:+ "' is not in list"))
  end.

(** [l[i]] *)
Definition list_get {A} (l : list A) (i : nat) : M A :=
  match l !! i with
  | Some a => ret a
  | None => raise (Exn IndexError "list index out of range")
  end.

(** *** [__get_keywords] *)

(** [for keybert_keyword in keybert_keywords: ...] *)
Fixpoint add_keywords (keybert_keywords candidate_keywords llm_keywords : list string)
    (keywords : gset string) : M (gset string) :=
  match keybert_keywords with
  | [] => ret keywords
  | keybert_keyword :: rest =>
      let! index := list_index candidate_keywords keybert_keyword in
      let! llm_keyword := list_get llm_keywords index in
      add_keywords rest candidate_keywords llm_keywords
        ({[ str_upper E llm_keyword ]} ∪ keywords)
  end.

(** [for i, sentence in enumerate(translated_text_tokenized)]: [total] is
    [len(translated_text_tokenized)], [sentences] and [keywords] are the
    two collections the loop updates. *)
Fixpoint keywords_loop (total i : nat) (remaining sentences : list string)
    (keywords : gset string) : M (gset string) :=
  match remaining with
  | [] => ret keywords
  | sentence :: rest =>
      let sentences := sentences ++ [str_lstrip E sentence] in
      if decide (length sentences = 5 \/ i = total - 1) then
        let paragraph := Str.join (String Str.newline EmptyString) sentences in
        let! llm_keywords :=
          try_get_llm_keywords paragraph default_max_attempts default_retry_delay in
        let llm_keywords := str_lower E <$> llm_keywords in
        let candidate_keywords := remove_stop_words llm_keywords (nlp_fr E) in
        let! keybert_keywords :=
          lift_result (keywords_model E paragraph candidate_keywords) in
        let keybert_keywords := fst <$> keybert_keywords in
        let! keywords :=
          add_keywords keybert_keywords candidate_keywords llm_keywords keywords in
        keywords_loop total (S i) rest [] keywords
      else
        keywords_loop total (S i) rest sentences keywords
  end.

Definition get_keywords (text : string) : M (list string) :=
  if decide (text = EmptyString) then ret []
  else
    let! translated_text := translate_text text "fr" in
    let translated_text_tokenized := sents (nlp_fr E) translated_text in
    let! keywords :=
      keywords_loop (length translated_text_tokenized) 0
        translated_text_tokenized [] ∅ in
    ret (elements keywords).

(** *** The Chroma collection *)

Definition set_vector_store (store : list Snippet) : M unit :=
  fun w => (Ok tt, {| vector_store := store;
                      generated := generated w;
                      clock_reads := clock_reads w;
                      is_available := is_available w;
                      awaiting_reply := awaiting_reply w;
                      trace := trace w |}).

(** [collection.get(where={"expert_email": e})['documents']] *)
Definition collection_get (e : string) : M (list string) :=
  fun w => (Ok (document <$> filter (fun s => expert_email s = e) (vector_store w)), w).

(** [collection.delete(where={"expert_email": e})] *)
Definition collection_delete (e : string) : M unit :=
  fun w => set_vector_store (filter (fun s => expert_email s <> e) (vector_store w)) w.

(** [collection.add(documents=[doc], metadatas=[{"expert_email": e}], ids=[id])]:
    Chroma keeps the stored record when the id is already present. *)
Definition collection_add (doc e id : string) : M unit :=
  let! _ := emit (EvAdd id doc e) in
  fun w =>
    if decide (id ∈ snippet_id <$> vector_store w) then (Ok tt, w)
    else set_vector_store
           (vector_store w ++ [{| snippet_id := id; document := doc; expert_email := e |}]) w.

(** The answer of [collection.query]: for each query text the nearest
    records, closest first, as parallel lists. *)
Record QueryResult := {
  metadatas : list (list string);
  distances : list (list Q)
}.

Definition closer (a b : Snippet * Q) : Prop := (a.2 <= b.2)%Q.

Global Instance closer_dec : RelDecision closer.
Proof.
  intros a b. unfold closer.
  destruct (Qle_bool a.2 b.2) eqn:Hle.
  - left. by apply Qle_bool_iff.
  - right. intros H%Qle_bool_iff. congruence.
Defined.

Definition neighbours (store : list Snippet) (n_results : nat)
    (query_text : string) : list (Snippet * Q) :=
  take n_results
    (merge_sort closer
       ((fun s => (s, embedding_distance E query_text (document s))) <$> store)).

(** [collection.query(query_texts=..., n_results=...)] *)
Definition collection_query (query_texts : list string) (n_results : nat)
    : M QueryResult :=
  fun w =>
    let found := neighbours (vector_store w) n_results <$> query_texts in
    (Ok {| metadatas := (fun l => (expert_email ∘ fst) <$> l) <$> found;
           distances := (fun l => snd <$> l) <$> found |}, w).

(** [str(time.time())] *)
Definition time_time_str : M string :=
  fun w => (Ok (time_time E (clock_reads w)),
            {| vector_store := vector_store w;
               generated := generated w;
               clock_reads := S (clock_reads w);
               is_available := is_available w;
               awaiting_reply := awaiting_reply w;
               trace := trace w |}).

(** *** Maintenance of the vector store *)

(** [for skill in translated_expert_skills_tokenized: ...add(...)] *)
Fixpoint add_skills (skills : list string) (expert_email : string) : M unit :=
  match skills with
  | [] => ret tt
  | skill :: rest =>
      let! id := time_time_str in
      let! _ := collection_add skill expert_email id in
      add_skills rest expert_email
  end.

(** [for i, expert_email in enumerate(expert_emails)] of
    [__populate_or_update_expert_recommendation_vector_store] *)
Fixpoint populate_loop (nlp : Language) (expert_skills : list string)
    (i : nat) (expert_emails : list string) : M unit :=
  match expert_emails with
  | [] => ret tt
  | expert_email :: rest =>
      let! skills_i := list_get expert_skills i in
      let! translated_expert_skills := translate_text skills_i "en" in
      let translated_expert_skills_tokenized := sents nlp translated_expert_skills in
      let! stored_expert_skills := collection_get expert_email in
      let! _ :=
        if decide (stored_expert_skills = [] \/
                   stored_expert_skills <> translated_expert_skills_tokenized)
        then add_skills translated_expert_skills_tokenized expert_email
        else ret tt in
      populate_loop nlp expert_skills (S i) rest
  end.

Definition populate_or_update_expert_recommendation_vector_store
    (nlp : Language) (expert_skills expert_emails : list string) : M unit :=
  populate_loop nlp expert_skills 0 expert_emails.

Definition delete_expert_from_vector_store (expert_email : string) : M unit :=
  collection_delete expert_email.

Definition add_expert_to_vector_store (expert_skills expert_email : string) : M unit :=
  populate_or_update_expert_recommendation_vector_store
    (nlp_en E) [expert_skills] [expert_email].

Definition update_expert_in_vector_store (expert_skills expert_email : string) : M unit :=
  let! _ := delete_expert_from_vector_store expert_email in
  populate_or_update_expert_recommendation_vector_store
    (nlp_en E) [expert_skills] [expert_email].

(** *** [__get_experts_recommendation] *)

(** [for j, metadata in enumerate(found_experts['metadatas'][i])]:
    [entry] is [response[translated_generic_profile]]. The distance is
    only looked up when the owner is not in the entry yet. *)
Fixpoint scan_neighbours (found_experts : QueryResult) (i j : nat)
    (metadatas_i : list string) (entry : Experts) : M Experts :=
  match metadatas_i with
  | [] => ret entry
  | metadata :: rest =>
      let! entry :=
        if decide (metadata ∉ expert_emails entry) then
          let! distances_i := list_get (distances found_experts) i in
          let! distance := list_get distances_i j in
          if Qle_bool distance (1 # 2) then
            ret {| expert_emails := expert_emails entry ++ [metadata];
                   scores := scores entry ++ [distance] |}
          else ret entry
        else ret entry in
      if decide (length (expert_emails entry) = 5) then ret entry
      else scan_neighbours found_experts i (S j) rest entry
  end.

(** [for i, generic_profile in enumerate(generic_profiles)] *)
Fixpoint recommendation_loop (found_experts : QueryResult) (i : nat)
    (generic_profiles : list string) (response : gmap string Experts)
    : M (gmap string Experts) :=
  match generic_profiles with
  | [] => ret response
  | generic_profile :: rest =>
      let! translated_generic_profile := translate "fr" generic_profile in
      let! metadatas_i := list_get (metadatas found_experts) i in
      let! entry :=
        scan_neighbours found_experts i 0 metadatas_i
          {| expert_emails := []; scores := [] |} in
      recommendation_loop found_experts (S i) rest
        (<[translated_generic_profile := entry]> response)
  end.

Definition get_experts_recommendation (question : string)
    : M (gmap string Experts) :=
  let! query := translate "en" question in
  let llm_input := expert_recommendation_prompt E query in
  let! generic_profiles :=
    try_get_llm_expert_recommendation llm_input
      default_max_attempts default_retry_delay in
  let! found_experts := collection_query generic_profiles 20 in
  recommendation_loop found_experts 0 generic_profiles ∅.

(** *** Dispatch *)

(** The methods [getattr(self, '_LLM__' + name)] finds: every method of
    the class whose name starts with two underscores. *)
Definition private_methods : list string :=
  [ "get_expert_recommendation_llm"; "get_expert_skills_from_csv";
    "get_expert_skills_from_json"; "get_expert_skills";
    "get_expert_recommendation_embeddings";
    "get_expert_recommendation_chroma_db_client";
    "get_expert_recommendation_vector_store";
    "populate_or_update_expert_recommendation_vector_store";
    "delete_expert_from_vector_store"; "add_expert_to_vector_store";
    "update_expert_in_vector_store"; "get_expert_recommendation_parser";
    "get_expert_recommendation_prompt"; "get_keywords_embeddings";
    "get_keywords_model"; "get_keywords_parser"; "get_keywords_prompt";
    "get_keywords_chain"; "get_nlp"; "get_stop_words"; "remove_stop_words";
    "get_user_emails_from_llm_response"; "translate_text";
    "init_expert_recommendation_chain"; "init_keywords_chain"; "init_zmq";
    "try_get_llm_expert_recommendation"; "get_experts_recommendation";
    "try_get_llm_keywords"; "get_keywords"; "call_method" ].

(** The methods embedded above that a request can name: the five of
    [query_llm] and the three helpers behind them. *)
Definition embedded_methods : list string :=
  [ "get_keywords"; "get_experts_recommendation";
    "add_expert_to_vector_store"; "update_expert_in_vector_store";
    "delete_expert_from_vector_store"; "translate_text";
    "try_get_llm_expert_recommendation"; "try_get_llm_keywords" ].

(** The [Literal] of [query_llm]: the methods the web process asks for. *)
Definition query_llm_methods : list string :=
  [ "get_keywords"; "get_experts_recommendation";
    "add_expert_to_vector_store"; "update_expert_in_vector_store";
    "delete_expert_from_vector_store" ].

(** What Python raises when the arguments do not fit the signature of
    the method (its message abridged). *)
Definition bad_arguments {A} (method_name : string) : M A :=
  raise (Exn TypeError (method_name +:+ "() got unexpected arguments")).

Definition fmap_M {A B} (f : A -> B) (m : M A) : M B :=
  let! a := m in ret (f a).

(** The state of the socket: [b] when a request awaits its answer. *)
Definition set_awaiting_reply (b : bool) : M unit :=
  fun w => (Ok tt, {| vector_store := vector_store w;
                      generated := generated w;
                      clock_reads := clock_reads w;
                      is_available := is_available w;
                      awaiting_reply := b;
                      trace := trace w |}).

Definition set_is_available (b : bool) : M unit :=
  fun w => (Ok tt, {| vector_store := vector_store w;
                      generated := generated w;
                      clock_reads := clock_reads w;
                      is_available := b;
                      awaiting_reply := awaiting_reply w;
                      trace := trace w |}).

(** [__init_zmq]: the worker holds a new REP socket, which has received
    nothing, and binds it. *)
Definition init_zmq (addr : string) : M unit :=
  let! _ := set_awaiting_reply false in
  lift_result (zmq_bind E addr).

(** The call of the method found for a name of [private_methods] on the
    unpacked argument list. Requests carry string arguments. The methods
    embedded above run as embedded; what the others do is
    [unmodelled_method]. *)
Definition invoke (method_name : string) (arguments : list string) : M pyvalue :=
  if decide (method_name = "get_keywords") then
    match arguments with
    | [text] => fmap_M PyList (get_keywords text)
    | _ => bad_arguments method_name
    end
  else if decide (method_name = "get_experts_recommendation") then
    match arguments with
    | [question] => fmap_M PyRecommendation (get_experts_recommendation question)
    | _ => bad_arguments method_name
    end
  else if decide (method_name = "add_expert_to_vector_store") then
    match arguments with
    | [expert_skills; expert_email] =>
        fmap_M (fun _ => PyNone) (add_expert_to_vector_store expert_skills expert_email)
    | _ => bad_arguments method_name
    end
  else if decide (method_name = "update_expert_in_vector_store") then
    match arguments with
    | [expert_skills; expert_email] =>
        fmap_M (fun _ => PyNone) (update_expert_in_vector_store expert_skills expert_email)
    | _ => bad_arguments method_name
    end
  else if decide (method_name = "delete_expert_from_vector_store") then
    match arguments with
    | [expert_email] =>
        fmap_M (fun _ => PyNone) (delete_expert_from_vector_store expert_email)
    | _ => bad_arguments method_name
    end
  else if decide (method_name = "translate_text") then
    match arguments with
    | [text; destination_language] =>
        fmap_M PyStr (translate_text text destination_language)
    | _ => bad_arguments method_name
    end
  else if decide (method_name = "try_get_llm_expert_recommendation") then
    match arguments with
    | [llm_input] =>
        fmap_M PyList
          (try_get_llm_expert_recommendation llm_input
             default_max_attempts default_retry_delay)
    | _ => bad_arguments method_name
    end
  else if decide (method_name = "try_get_llm_keywords") then
    match arguments with
    | [llm_input] =>
        fmap_M PyList
          (try_get_llm_keywords llm_input default_max_attempts default_retry_delay)
    | _ => bad_arguments method_name
    end
  else if decide (method_name = "init_zmq") then
    match arguments with
    | [addr] => fmap_M (fun _ => PyNone) (init_zmq addr)
    | _ => bad_arguments method_name
    end
  else unmodelled_method E method_name arguments.

(** [__call_method] *)
Definition call_method (method_name : string) (arguments : list string)
    : M response :=
  if decide (method_name ∈ private_methods) then
    let! result_ := invoke method_name arguments in
    ret (Success result_)
  else
    ret (Error ("Method not found: " +:+ method_name)).

(** *** The processing loop *)

(** What [self.socket.recv_json()] yields while the loop waits. *)
Inductive incoming :=
  | Received (data : request)
  | Terminated.            (* the context was terminated *)

(** What a REP socket raises when it is asked to send and holds no
    request ([zmq.error.ZMQError]). *)
Definition socket_state_error : exn :=
  Exn Exception "Operation cannot be accomplished in current state".

(** [self.socket.recv_json()]: the socket now holds a request. The loop
    receives only after it has answered or on a new socket. *)
Definition recv_json (m : incoming) : M request :=
  match m with
  | Received data => let! _ := set_awaiting_reply true in ret data
  | Terminated => raise (Exn ContextTerminated "Context was terminated")
  end.

(** [self.socket.send_json(r)]: [json] refuses an object it cannot
    serialise before anything is sent, and the socket sends only in answer
    to a request. *)
Definition send_json (r : response) : M unit :=
  match r with
  | Success (PyObject type_name) =>
      raise (Exn TypeError
               ("Object of type " +:+ type_name +:+ " is not JSON serializable"))
  | _ =>
      fun w =>
        if awaiting_reply w then
          (let! _ := emit (EvSend r) in set_awaiting_reply false) w
        else (Raise socket_state_error, w)
  end.

(** [try: m except Exception as e: h e]: of the classes modelled here
    [SystemExit] alone is no subclass of [Exception] and passes. *)
Definition try_except_all {A} (m : M A) (h : exn -> M A) : M A :=
  fun w => match m w with
           | (Raise e, w') =>
               if decide (exn_cls e = SystemExit) then (Raise e, w') else h e w'
           | r => r
           end.

(** The body of the [while] loop for one answer of [recv_json]. *)
Definition process_query (m : incoming) : M unit :=
  try_except_all
    (let! data := recv_json m in
     let method_name := default EmptyString (method data) in
     let arguments := default [] (arguments data) in
     let! response :=
       if decide (method_name <> EmptyString) then
         call_method method_name arguments
       else ret (Error "No method specified") in
     send_json response)
    (fun e =>
       if decide (exn_cls e = ContextTerminated) then
         let! _ := set_is_available false in
         log LogWarning "Context terminated during processing. Exiting..."
       else
         let! _ := send_json (Error (exn_str e)) in
         log LogError (exn_str e)).

(** [start_llm_processing]: [inbox] lists what the successive calls to
    [recv_json] yield; once it is used up the loop is blocked in
    [recv_json]. *)
Fixpoint start_llm_processing (inbox : list incoming) : M unit :=
  fun w =>
    if is_available w then
      match inbox with
      | [] => (Ok tt, w)
      | m :: rest =>
          (let! _ := process_query m in start_llm_processing rest) w
      end
    else (Ok tt, w).

(** [stop_llm_processing]; closing the socket and terminating the context
    is what makes a pending [recv_json] yield [Terminated]. *)
Definition stop_llm_processing : M unit :=
  let! _ := log LogInfo "Shutting down the LLM processor gracefully..." in
  set_is_available false.

End Worker.

(** ** Concrete collaborators, for running the methods *)

Module Demo.

(** Sentences end at a full stop, tokens are the words. *)
Definition nlp : Language :=
  {| sents := Str.split "."%char;
     tokens := String.words;
     default_stop_words := ["le"; "la"; "de"] |}.

(** A clock whose [k]-th reading is [k] strokes. *)
Definition tally (k : nat) : string := Str.replicate_char k "I"%char.

(** A translator that returns its input, a model that answers with a
    comma-separated list, a ranker that keeps the first three candidates. *)
Definition env : Env :=
  {| str_upper := Str.ascii_upper;
     str_lower := Str.ascii_lower;
     str_lstrip := Str.ascii_lstrip;
     google_translator := fun _ text => Ok text;
     ollama := fun _ _ => Ok "data engineer, le nurse, surgeon";
     expert_recommendation_prompt := fun query => query;
     keywords_prompt := fun doc => doc;
     expert_recommendation_parser := fun out => inr (Str.split_comma out);
     keywords_parser := fun out => Ok (Str.split_comma (Str.ascii_strip out));
     nlp_en := nlp;
     nlp_fr := nlp;
     keywords_model := fun _ candidates => Ok ((fun c => (c, 1 # 2)%Q) <$> take 3 candidates);
     embedding_distance := fun q d => if decide (q = d) then (0 # 1)%Q else (3 # 4)%Q;
     time_time := tally;
     zmq_bind := fun _ => Ok tt;
     unmodelled_method := fun _ _ w => (Ok (PyObject "Language"), w) |}.

(** The model's output fails to parse three times, then parses. *)
Definition parse_failing_thrice : Env :=
  {| str_upper := str_upper env;
     str_lower := str_lower env;
     str_lstrip := str_lstrip env;
     google_translator := google_translator env;
     ollama := fun k _ => if k <? 3 then Ok "I cannot answer" else Ok "nurse, surgeon";
     expert_recommendation_prompt := expert_recommendation_prompt env;
     keywords_prompt := keywords_prompt env;
     expert_recommendation_parser := fun out =>
       if decide (out = "I cannot answer") then inl "Failed to parse Experts"
       else inr (Str.split_comma out);
     keywords_parser := keywords_parser env;
     nlp_en := nlp;
     nlp_fr := nlp;
     keywords_model := keywords_model env;
     embedding_distance := embedding_distance env;
     time_time := tally;
     zmq_bind := zmq_bind env;
     unmodelled_method := unmodelled_method env |}.

(** The keyword chain raises the error its [except] clause names three
    times, then answers. *)
Definition attribute_failing_thrice : Env :=
  {| str_upper := str_upper env;
     str_lower := str_lower env;
     str_lstrip := str_lstrip env;
     google_translator := google_translator env;
     ollama := fun k _ =>
       if k <? 3 then Raise (Exn AttributeError "'NoneType' object has no attribute 'strip'")
       else Ok "nurse, surgeon";
     expert_recommendation_prompt := expert_recommendation_prompt env;
     keywords_prompt := keywords_prompt env;
     expert_recommendation_parser := expert_recommendation_parser env;
     keywords_parser := keywords_parser env;
     nlp_en := nlp;
     nlp_fr := nlp;
     keywords_model := keywords_model env;
     embedding_distance := embedding_distance env;
     time_time := tally;
     zmq_bind := zmq_bind env;
     unmodelled_method := unmodelled_method env |}.

(** A clock too coarse to tell two consecutive readings apart. *)
Definition frozen_clock : Env :=
  {| str_upper := str_upper env;
     str_lower := str_lower env;
     str_lstrip := str_lstrip env;
     google_translator := google_translator env;
     ollama := ollama env;
     expert_recommendation_prompt := expert_recommendation_prompt env;
     keywords_prompt := keywords_prompt env;
     expert_recommendation_parser := expert_recommendation_parser env;
     keywords_parser := keywords_parser env;
     nlp_en := nlp;
     nlp_fr := nlp;
     keywords_model := keywords_model env;
     embedding_distance := embedding_distance env;
     time_time := fun _ => "1700000000.25";
     zmq_bind := zmq_bind env;
     unmodelled_method := unmodelled_method env |}.

(** A fresh worker: empty collection, nothing called yet. *)
Definition w0 : World :=
  {| vector_store := []; generated := 0; clock_reads := 0;
     is_available := true; awaiting_reply := false; trace := [] |}.

(** 2000 letters, then 1600 letters, then 1500 line breaks: 5101
    characters, two sentences. *)
Definition two_sentences_and_blank_lines : string :=
  Str.replicate_char 2000 "a"%char +:+
  String Str.newline (Str.replicate_char 1600 "b"%char +:+
  Str.replicate_char 1500 Str.newline).

(** 2999 letters, then 2500 letters, then a short sentence. *)
Definition three_sentences : string :=
  Str.replicate_char 2999 "a"%char +:+
  String Str.newline (Str.replicate_char 2500 "b"%char +:+
  String Str.newline "fin").

End Demo.

(** The texts passed to the upstream translator, in call order. *)
Definition upstream_calls (tr : list event) : list string :=
  omap (fun ev => match ev with EvTranslate _ text => Some text | _ => None end) tr.

(** The ids passed to [Collection.add], in call order. *)
Definition submitted_ids (tr : list event) : list string :=
  omap (fun ev => match ev with EvAdd id _ _ => Some id | _ => None end) tr.

(** The responses written to the socket, in order. *)
Definition sent (tr : list event) : list response :=
  omap (fun ev => match ev with EvSend r => Some r | _ => None end) tr.

(** A chunk holding the sentences of [group], each followed by a line
    break. *)
Fixpoint pack (group : list string) : string :=
  match group with
  | [] => EmptyString
  | sentence :: rest => (sentence +:+ String Str.newline EmptyString) +:+ pack rest
  end.

(** What [__remove_stop_words] makes of one document: tokenize, drop the
    stop words and the punctuation, join with single blanks. *)
Definition without_stop_words (nlp : Language) (doc : string) : string :=
  Str.join " " (filter (fun token => token ∉ get_stop_words nlp) (tokens nlp doc)).

(** An exception of an operation: of a subclass of [Exception], and not the
    termination of the ZeroMQ context. *)
Definition ordinary (e : exn) : Prop :=
  exn_cls e <> ContextTerminated /\ exn_cls e <> SystemExit.

(** The collaborators of the embedded methods raise operation-level errors
    only: termination of the ZeroMQ context is signalled by the socket, not
    by a translator, a model or a parser, and none of them leaves the
    interpreter. *)
Definition operation_level (E : Env) : Prop :=
  (forall target text e, google_translator E target text = Raise e -> ordinary e)
  /\ (forall k prompt e, ollama E k prompt = Raise e -> ordinary e)
  /\ (forall out e, keywords_parser E out = Raise e -> ordinary e)
  /\ (forall doc candidates e,
       keywords_model E doc candidates = Raise e -> ordinary e).

(** What arrives names no method, an unknown method or one of the embedded
    methods, or is the end of the context. *)
Definition serves (m : incoming) : Prop :=
  match m with
  | Received data =>
      default EmptyString (method data) ∈ private_methods ->
      default EmptyString (method data) ∈ embedded_methods
  | Terminated => True
  end.

(** [m] leaves the observation [f] of the world as it found it. *)
Definition keeps {A X} (f : World -> X) (m : M A) : Prop :=
  forall w, f (m w).2 = f w.

(** [m] raises operation-level errors only. *)
Definition quiet {A} (m : M A) : Prop :=
  forall w e, (m w).1 = Raise e -> ordinary e.

(** The responses sent so far. *)
Definition responses (w : World) : list response := sent (trace w).

(** The world after one more call has left the process. *)
Definition record_event (ev : event) (w : World) : World :=
  {| vector_store := vector_store w;
     generated := generated w;
     clock_reads := clock_reads w;
     is_available := is_available w;
     awaiting_reply := awaiting_reply w;
     trace := trace w ++ [ev] |}.

(** The sentences [__translate_text] iterates over, without the empty
    ones it skips. *)
Definition nonempty_sentences (E : Env) (text : string) : list string :=
  filter (fun sentence => sentence <> EmptyString)
    (Str.split Str.newline (str_lstrip E text)).

(** A chunk that was still under the chunk length before its last sentence
    was appended. *)
Definition under_until_last (group : list string) : Prop :=
  exists before sentence,
    group = before ++ [sentence] /\ Str.len (pack before) < chunk_length.

(** The sentences as the loop of [__translate_text] cuts them, from a chunk
    that holds the sentences [group]: the groups it sends from inside the
    loop, each with the sentence that arrived when the group was sent, and
    the group left in the chunk at the end. *)
Fixpoint split_chunks (sentences group : list string)
    : list (list string * string) * list string :=
  match sentences with
  | [] => ([], group)
  | sentence :: rest =>
      if chunk_length <=? Str.len (pack group)
      then ((group, sentence) :: (split_chunks rest []).1, (split_chunks rest []).2)
      else split_chunks rest (group ++ [sentence])
  end.

(** [translated_text] after the translations [ts] were appended in turn. *)
Definition concat_strings (ts : list string) : string :=
  foldr String.append EmptyString ts.

(** The ids of the records the collection holds. *)
Definition stored_ids (w : World) : list string := snippet_id <$> vector_store w.

(** [n] consecutive readings of the clock, as strings, from the [from]-th. *)
Definition readings (E : Env) (from n : nat) : list string :=
  time_time E <$> seq from n.

(** [m] reads the clock once for every record it submits and submits the
    reading as the id of the record. *)
Definition stamps (E : Env) {A} (m : M A) : Prop :=
  forall w, exists n,
    clock_reads (m w).2 = clock_reads w + n
    /\ submitted_ids (trace (m w).2)
       = submitted_ids (trace w) ++ readings E (clock_reads w) n
    /\ (NoDup (stored_ids w) -> NoDup (stored_ids (m w).2))
    /\ (NoDup (stored_ids w ++ readings E (clock_reads w) n) ->
        stored_ids (m w).2 = stored_ids w ++ readings E (clock_reads w) n).

(** The answer of the collection to one query text, as pairs of an owner
    and a distance, closest first. *)
Definition owner_distances (E : Env) (store : list Snippet) (n_results : nat)
    (query_text : string) : list (string * Q) :=
  (fun p => (expert_email p.1, p.2)) <$> neighbours E store n_results query_text.

(** What one neighbour does to the entry of a generic profile. *)
Definition consider (p : string * Q) (entry : Experts) : Experts :=
  if decide (p.1 ∉ expert_emails entry) then
    if Qle_bool p.2 (1 # 2) then
      {| expert_emails := expert_emails entry ++ [p.1];
         scores := scores entry ++ [p.2] |}
    else entry
  else entry.

(** The scan of [scan_neighbours] over neighbours given as pairs. *)
Fixpoint scan_pairs (nb : list (string * Q)) (entry : Experts) : Experts :=
  match nb with
  | [] => entry
  | p :: rest =>
      let entry1 := consider p entry in
      if decide (length (expert_emails entry1) = 5) then entry1
      else scan_pairs rest entry1
  end.

(** Ascending distance. *)
Definition by_distance (a b : string * Q) : Prop := (a.2 <= b.2)%Q.

(** What the code guarantees about the entry of one generic profile,
    [store] being the collection that was queried. *)
Definition top_five (E : Env) (store : list Snippet) (key : string)
    (entry : Experts) : Prop :=
  length (expert_emails entry) <= 5
  /\ NoDup (expert_emails entry)
  /\ length (scores entry) = length (expert_emails entry)
  /\ Forall (fun d => (d <= 1 # 2)%Q) (scores entry)
  /\ exists generic_profile,
       google_translator E "fr" generic_profile = Ok key
       /\ zip (expert_emails entry) (scores entry)
          `sublist_of` owner_distances E store 20 generic_profile
       /\ forall p, p ∈ zip (expert_emails entry) (scores entry) ->
            exists j,
              list_find (fun x => x.1 = p.1) (owner_distances E store 20 generic_profile)
              = Some (j, p).

(** The invariant of the keyword set: every member is what [str.upper]
    returns for a lower-cased string. *)
Definition all_upper (E : Env) (keywords : gset string) : Prop :=
  forall k, k ∈ keywords -> exists x, k = str_upper E (str_lower E x).

(** Two laws of the case mappings of the Unicode standard, which the
    interpreter follows: upper-casing is idempotent, and a string that was
    lower-cased and then upper-cased comes back when that is done to it
    again. *)
Definition case_stable (E : Env) : Prop :=
  (forall s, str_upper E (str_upper E s) = str_upper E s)
  /\ (forall s, str_upper E (str_lower E (str_upper E (str_lower E s)))
                = str_upper E (str_lower E s)).

(** ** Further vocabulary *)

(** The pauses of [time.sleep], in order. *)
Definition sleeps (tr : list event) : list nat :=
  omap (fun ev => match ev with EvSleep s => Some s | _ => None end) tr.

(** The prompts sent to the model, in order. *)
Definition prompts (tr : list event) : list string :=
  omap (fun ev => match ev with EvGenerate p => Some p | _ => None end) tr.


(** An operation that only appends snippets satisfying [P]. *)
Definition appends {A} (P : Snippet -> Prop) (m : M A) : Prop :=
  forall w, exists added,
    vector_store (m w).2 = vector_store w ++ added /\ Forall P added.

(** ** More concrete environments *)

Module Faults.

(** The translation service is unreachable. *)
Definition translator_down : Env :=
  {| str_upper := str_upper Demo.env;
     str_lower := str_lower Demo.env;
     str_lstrip := str_lstrip Demo.env;
     google_translator := fun _ _ =>
       Raise (Exn Exception "Request exception can happen due to an api connection error.");
     ollama := ollama Demo.env;
     expert_recommendation_prompt := expert_recommendation_prompt Demo.env;
     keywords_prompt := keywords_prompt Demo.env;
     expert_recommendation_parser := expert_recommendation_parser Demo.env;
     keywords_parser := keywords_parser Demo.env;
     nlp_en := Demo.nlp;
     nlp_fr := Demo.nlp;
     keywords_model := keywords_model Demo.env;
     embedding_distance := embedding_distance Demo.env;
     time_time := Demo.tally;
     zmq_bind := zmq_bind Demo.env;
     unmodelled_method := unmodelled_method Demo.env |}.

(** A collection holding one snippet of each of two experts. *)
Definition two_experts : World :=
  {| vector_store :=
       [ {| snippet_id := "I"; document := "Heart surgery";
            expert_email := "ana@chu.ca" |};
         {| snippet_id := "II"; document := "Data pipelines";
            expert_email := "bob@chu.ca" |} ];
     generated := 0; clock_reads := 2; is_available := true;
     awaiting_reply := false; trace := [] |}.

End Faults.

(** The embedded methods that only read: the two queries the web process
    sends and the three helpers behind them. *)
Definition read_only_methods : list string :=
  [ "get_keywords"; "get_experts_recommendation"; "translate_text";
    "try_get_llm_expert_recommendation"; "try_get_llm_keywords" ].

(** What arrives names no method, an unknown method or a read-only one, or
    is the end of the context. *)
Definition reads_only (m : incoming) : Prop :=
  match m with
  | Received data =>
      default EmptyString (method data) ∈ private_methods ->
      default EmptyString (method data) ∈ read_only_methods
  | Terminated => True
  end.

(** The entry built for one generic profile: the scan of its neighbours in
    [store], starting from the empty entry. *)
Definition entry_of (E : Env) (store : list Snippet) (generic_profile : string)
    : Experts :=
  scan_pairs (owner_distances E store 20 generic_profile)
    {| expert_emails := []; scores := [] |}.

(** [generic_profile] is the last of [generic_profiles] whose French
    translation is [key]. *)
Definition last_translated_to (E : Env) (key : string)
    (generic_profiles : list string) (generic_profile : string) : Prop :=
  exists before after,
    generic_profiles = before ++ generic_profile :: after
    /\ google_translator E "fr" generic_profile = Ok key
    /\ forall other, other ∈ after -> google_translator E "fr" other <> Ok key.

(** [LLM.query_llm], the client side, run against a worker that is waiting
    in its loop: the request is sent, the worker serves it, and the reply
    read from the socket is the response the worker sent for it. [None] is
    a client left waiting in [recv_json]. *)
Definition query_llm (E : Env) (method_ : string) (arguments_ : list string)
    : World -> option (result pyvalue) * World :=
  fun w =>
    let w' := (start_llm_processing E
                 [Received {| method := Some method_;
                              arguments := Some arguments_ |}] w).2 in
    match drop (length (responses w)) (responses w') with
    | Success result_ :: _ => (Some (Ok result_), w')
    | Error error_message :: _ => (Some (Raise (Exn Exception error_message)), w')
    | [] => (None, w')
    end.

(** The translator answered every one of [calls], or answered all but the
    last one, which failed with the error of [r]. *)
Definition calls_until_failure {A} (E : Env) (lang : string)
    (calls : list string) (r : result A) : Prop :=
  match r with
  | Ok _ => Forall (fun c => exists t, google_translator E lang c = Ok t) calls
  | Raise e =>
      exists before c,
        calls = before ++ [c]
        /\ google_translator E lang c = Raise e
        /\ Forall (fun c => exists t, google_translator E lang c = Ok t) before
  end.

(** *** Building the collection at start-up *)

(** [for row in reader] of [__get_expert_skills_from_csv]: column 7 holds
    the skills, column 3 the email. *)
Fixpoint csv_skills_loop (rows : list (list string))
    (expert_skills expert_emails_ : list string) : M (list string * list string) :=
  match rows with
  | [] => ret (expert_skills, expert_emails_)
  | row :: rest =>
      let! skill := list_get row 7 in
      let! email := list_get row 3 in
      csv_skills_loop rest (expert_skills ++ [skill]) (expert_emails_ ++ [email])
  end.

(** [__get_expert_skills_from_csv] on the rows [csv.reader] yields.
    [next(reader)] on a file without a row raises [StopIteration], whose
    [str] is empty; it is recorded under its base class. *)
Definition get_expert_skills_from_csv (csv_file : list (list string))
    : M (list string * list string) :=
  match csv_file with
  | [] => raise (Exn Exception EmptyString)
  | _ :: rows => csv_skills_loop rows [] []
  end.



(** ** The users file of [database.py]

    The methods of [Database] that keep the CSV file of the users. The
    state is the content of the file, the rows [csv.reader] yields; a call
    returns its outcome and the content it leaves. *)

Module Database.

Definition user_attributes_to_csv_columns_map : list (string * nat) :=
  [ ("registration_date", 0); ("first_name", 1); ("last_name", 2); ("email", 3);
    ("membership_category", 4); ("job_position", 5);
    ("affiliation_organization", 6); ("skills", 7);
    ("years_experience_ia", 8); ("years_experience_healthcare", 9);
    ("community_involvement", 10); ("suggestions", 11); ("consent", 12);
    ("profile_photo", 13); ("linkedin", 14) ].

Definition required_columns : list string :=
  [ "Date d'inscription"; "Prénom"; "Nom"; "Adresse courriel";
    "Catégorie de membres"; "Titre d'emploi"; "Organisation d'affiliation";
    "Compétences ou Expertise"; "Nombre d'années d'expérience en IA";
    "Nombre d'années d'expérience en santé"; "Impliquation dans la communauté";
    "Suggestions"; "Consentement"; "Photo de profil"; "LinkedIn" ].

Abbreviation csv := (list (list string)).

Definition user_not_found : exn :=
  Exn Exception
    "User not found in the csv file. There is probably an inconsistency between the sqlite database and the csv file.".

Definition index_error : exn := Exn IndexError "list index out of range".

(** [self.user_attributes_to_csv_columns_map[key]]; a [KeyError] shows the
    [repr] of the key. *)
Definition column (key : string) : result nat :=
  match list_find (fun p => p.1 = key) user_attributes_to_csv_columns_map with
  | Some (_, (_, index)) => Ok index
  | None => Raise (Exn Exception ("'" +:+ key +:+ "'"))
  end.

(** [for row in data] of [delete_user_from_csv] *)
Fixpoint delete_rows (data : csv) (user_email : string) (updated_data : csv)
    : result csv :=
  match data with
  | [] => Ok updated_data
  | row :: rest =>
      match row !! 3 with
      | None => Raise index_error
      | Some email =>
          if decide (email = user_email) then delete_rows rest user_email updated_data
          else delete_rows rest user_email (updated_data ++ [row])
      end
  end.

Definition delete_user_from_csv (user_email : string) (file : csv)
    : result unit * csv :=
  match delete_rows file user_email [] with
  | Raise e => (Raise e, file)
  | Ok updated_data =>
      if decide (length file = length updated_data) then (Raise user_not_found, file)
      else (Ok tt, updated_data)
  end.

(** [for row in data[1:]] of [update_user_in_csv]: the position in [data]
    of the row found, with the row; [None] when the loop ends without
    [break]. *)
Fixpoint find_user (rows : csv) (user_email : string) (position : nat)
    : result (option (nat * list string)) :=
  match rows with
  | [] => Ok None
  | row :: rest =>
      match row !! 3 with
      | None => Raise index_error
      | Some email =>
          if decide (email = user_email) then Ok (Some (position, row))
          else find_user rest user_email (S position)
      end
  end.

(** [for key, value in user_information_to_be_updated.items()] *)
Fixpoint set_columns (user : list string) (items : list (string * string))
    : result (list string) :=
  match items with
  | [] => Ok user
  | (key, value) :: rest =>
      match column key with
      | Raise e => Raise e
      | Ok index =>
          if decide (index < length user) then set_columns (<[index := value]> user) rest
          else Raise (Exn IndexError "list assignment index out of range")
      end
  end.

(** [update_user_in_csv]: the row found is updated in place, in [data]. *)
Definition update_user_in_csv (user_email : string)
    (user_information_to_be_updated : list (string * string)) (file : csv)
    : result unit * csv :=
  match find_user (drop 1 file) user_email 1 with
  | Raise e => (Raise e, file)
  | Ok None => (Raise user_not_found, file)
  | Ok (Some (position, user)) =>
      match set_columns user user_information_to_be_updated with
      | Raise e => (Raise e, file)
      | Ok user => (Ok tt, <[position := user]> file)
      end
  end.


End Database.

(** A users file with its header and two users. *)
Module DemoUsers.

Definition ana : list string :=
  [ "01/15/2024 10:30:00"; "Ana"; "Roy"; "ana@chu.ca"; "Chercheur"; "Chirurgienne";
    "CHU"; "Chirurgie cardiaque"; "2"; "12"; "Oui"; ""; "Oui"; "ana.png"; "" ].

Definition bob : list string :=
  [ "02/20/2024 09:00:00"; "Bob"; "Roy"; "bob@chu.ca"; "Etudiant"; "Analyste";
    "CHU"; "Pipelines de donnees"; "5"; "1"; "Non"; ""; "Oui"; ""; "" ].

Definition users_file : Database.csv := [Database.required_columns; ana; bob].

End DemoUsers.

(** The [k]-th paragraph of [__get_keywords]: sentences [5k] to [5k + 4]
    of the tokenized text, each stripped on the left, joined by line
    breaks. *)
Definition paragraph_at (E : Env) (sentences : list string) (k : nat) : string :=
  Str.join (String Str.newline EmptyString)
    (str_lstrip E <$> take 5 (drop (5 * k) sentences)).

(** The prompts of the keyword chain for the paragraphs from the [q]-th
    on, the [k]-th of them sent [counts !! k] times. *)
Definition paragraph_prompts (E : Env) (sentences : list string) (q : nat)
    (counts : list nat) : list string :=
  concat (imap (fun k c =>
                  replicate c (keywords_prompt E (paragraph_at E sentences (q + k))))
            counts).

(** ** Reasoning about the monad *)

Lemma bind_Ok_inv {A B} (m : M A) (k : A -> M B) w b w' :
  bind m k w = (Ok b, w') ->
  exists a w1, m w = (Ok a, w1) /\ k a w1 = (Ok b, w').
Proof.
  unfold bind. destruct (m w) as [[a|e] w1]; [eauto | discriminate].
Qed.


Lemma bind_Ok_eq {A B} (m : M A) (k : A -> M B) w a w1 :
  m w = (Ok a, w1) -> bind m k w = k a w1.
Proof. unfold bind. by intros ->. Qed.

Lemma bind_Raise_eq {A B} (m : M A) (k : A -> M B) w e w1 :
  m w = (Raise e, w1) -> bind m k w = (Raise e, w1).
Proof. unfold bind. by intros ->. Qed.

(** ** The retry budget *)

Section Retry.

Context (E : Env).

(** Whatever the model answers, the loop over [range(1, max_attempts)]
    calls it at most [max_attempts - 1] times. *)
Lemma expert_recommendation_attempts_calls attempts llm_input retry_delay w :
  generated (expert_recommendation_attempts E attempts llm_input retry_delay w).2
  <= generated w + length attempts.
Proof.
  revert w. induction attempts as [|a attempts IH]; intros w; simpl; [lia|].
  unfold bind at 1, try_except, bind at 1, generate.
  destruct (ollama E (generated w) llm_input) as [out|e]; simpl.
  - unfold bind, parse_profiles.
    destruct (expert_recommendation_parser E out) as [msg|profiles]; simpl; [|lia].
    etrans; [apply IH|]. simpl. lia.
  - destruct (decide (exn_cls e = OutputParserException)); simpl; [|lia].
    etrans; [apply IH|]. simpl. lia.
Qed.

Lemma try_get_llm_expert_recommendation_calls llm_input max_attempts retry_delay w :
  generated (try_get_llm_expert_recommendation E llm_input max_attempts retry_delay w).2
  <= generated w + (max_attempts - 1).
Proof.
  unfold try_get_llm_expert_recommendation.
  etrans; [apply expert_recommendation_attempts_calls|].
  by rewrite length_seq.
Qed.

Lemma keywords_attempts_calls attempts llm_input retry_delay w :
  generated (keywords_attempts E attempts llm_input retry_delay w).2
  <= generated w + length attempts.
Proof.
  revert w. induction attempts as [|a attempts IH]; intros w; simpl; [lia|].
  unfold bind at 1, try_except, bind at 1, keywords_chain_predict, generate.
  destruct (ollama E (generated w) (keywords_prompt E llm_input)) as [out|e]; simpl.
  - unfold bind, keywords_parser_parse, lift_result.
    destruct (keywords_parser E out) as [llm_keywords|e]; simpl; [lia|].
    destruct (decide (exn_cls e = AttributeError)); simpl; [|lia].
    etrans; [apply IH|]. simpl. lia.
  - destruct (decide (exn_cls e = AttributeError)); simpl; [|lia].
    etrans; [apply IH|]. simpl. lia.
Qed.

Lemma try_get_llm_keywords_calls llm_input max_attempts retry_delay w :
  generated (try_get_llm_keywords E llm_input max_attempts retry_delay w).2
  <= generated w + (max_attempts - 1).
Proof.
  unfold try_get_llm_keywords.
  etrans; [apply keywords_attempts_calls|].
  by rewrite length_seq.
Qed.

(** A failure that the [except] clause does not name leaves the loop at
    once: no sleep, no further call. *)
Lemma expert_recommendation_other_failure attempts a llm_input retry_delay w e :
  ollama E (generated w) llm_input = Raise e ->
  exn_cls e <> OutputParserException ->
  expert_recommendation_attempts E (a :: attempts) llm_input retry_delay w
  = (Raise e, {| vector_store := vector_store w;
                 generated := S (generated w);
                 clock_reads := clock_reads w;
                 is_available := is_available w;
                 awaiting_reply := awaiting_reply w;
                 trace := trace w ++ [EvGenerate llm_input] |}).
Proof.
  intros Hout Hcls. simpl.
  unfold bind at 1, try_except, bind at 1, generate. rewrite Hout. simpl.
  by rewrite decide_False.
Qed.

End Retry.

(** C1. With the default [max_attempts = 4] both retry loops run
    [range(1, 4)], three attempts: a backend whose output fails to parse
    three times and would parse at the fourth call is asked three times
    only, each failure followed by a sleep of one second, and the terminal
    error naming the operation is raised; the fourth answer is never
    requested. *)
Theorem default_retry_budget_is_three_attempts :
  let profiles :=
    try_get_llm_expert_recommendation Demo.parse_failing_thrice "need"
      default_max_attempts default_retry_delay Demo.w0 in
  let keywords :=
    try_get_llm_keywords Demo.attribute_failing_thrice "texte"
      default_max_attempts default_retry_delay Demo.w0 in
  profiles.1 =
    Raise (Exn Exception "Error occurred when parsing LLM output for generic profiles.")
  /\ trace profiles.2 =
       [EvGenerate "need"; EvLog LogError "Failed to parse Experts"; EvSleep 1;
        EvGenerate "need"; EvLog LogError "Failed to parse Experts"; EvSleep 1;
        EvGenerate "need"; EvLog LogError "Failed to parse Experts"; EvSleep 1]
  /\ generated profiles.2 = 3
  /\ parse_profiles Demo.parse_failing_thrice "nurse, surgeon" profiles.2
     = (Ok ["nurse"; "surgeon"], profiles.2)
  /\ keywords.1 =
       Raise (Exn Exception "Error occurred when parsing LLM output for keywords.")
  /\ trace keywords.2 =
       [EvGenerate "texte";
        EvLog LogError "'NoneType' object has no attribute 'strip'"; EvSleep 1;
        EvGenerate "texte";
        EvLog LogError "'NoneType' object has no attribute 'strip'"; EvSleep 1;
        EvGenerate "texte";
        EvLog LogError "'NoneType' object has no attribute 'strip'"; EvSleep 1]
  /\ generated keywords.2 = 3
  /\ ollama Demo.attribute_failing_thrice 3 "texte" = Ok "nurse, surgeon".
Proof. vm_compute. repeat split; reflexivity. Qed.


(** ** Stop-word removal keeps positions *)

Lemma remove_stop_words_loop_fmap documents nlp filtered_documents :
  remove_stop_words_loop documents nlp filtered_documents
  = filtered_documents ++ (without_stop_words nlp <$> documents).
Proof.
  revert filtered_documents.
  induction documents as [|doc documents IH]; intros acc; simpl.
  - by rewrite app_nil_r.
  - rewrite IH. by rewrite <- app_assoc.
Qed.

Lemma remove_stop_words_fmap documents nlp :
  remove_stop_words documents nlp = without_stop_words nlp <$> documents.
Proof. apply remove_stop_words_loop_fmap. Qed.

Lemma list_index_Ok l x w i w' :
  list_index l x w = (Ok i, w') ->
  w' = w /\ l !! i = Some x /\ forall j y, j < i -> l !! j = Some y -> y <> x.
Proof.
  unfold list_index.
  destruct (list_find (fun y => y = x) l) as [[k y]|] eqn:Hfind; [|discriminate].
  intros [= <- <-]. apply list_find_Some in Hfind as (Hk & -> & Hbefore).
  split; [done|]. split; [done|]. intros j z Hj Hz. by apply (Hbefore j).
Qed.

(** C10. Stop-word removal returns one output per input, in the same
    position: the i-th output is the i-th document tokenized, without its
    stop-word and punctuation tokens, joined by single blanks. So the index
    that [candidate_keywords.index] finds for a ranked phrase, the position
    of its first occurrence among the filtered candidates, is a valid index
    into the model's keywords and names the first keyword that filters to
    that phrase. *)
Theorem remove_stop_words_aligned (documents : list string) (nlp : Language) :
  length (remove_stop_words documents nlp) = length documents
  /\ (forall i,
        remove_stop_words documents nlp !! i
        = without_stop_words nlp <$> documents !! i)
  /\ (forall keybert_keyword w index w',
        list_index (remove_stop_words documents nlp) keybert_keyword w = (Ok index, w') ->
        exists llm_keyword,
          list_get documents index w' = (Ok llm_keyword, w')
          /\ without_stop_words nlp llm_keyword = keybert_keyword
          /\ forall j other, j < index -> documents !! j = Some other ->
               without_stop_words nlp other <> keybert_keyword).
Proof.
  rewrite remove_stop_words_fmap. split; [by rewrite length_fmap|].
  split; [intros i; by rewrite list_lookup_fmap|].
  intros kw w index w' Hindex.
  apply list_index_Ok in Hindex as (-> & Hat & Hfirst).
  rewrite list_lookup_fmap in Hat.
  destruct (documents !! index) as [orig|] eqn:Horig; [|discriminate].
  injection Hat as Hat. exists orig. unfold list_get. rewrite Horig.
  split; [done|]. split; [done|].
  intros j other Hj Hother. apply (Hfirst j); [done|].
  by rewrite list_lookup_fmap, Hother.
Qed.

Lemma remove_stop_words_aligned_witness :
  exists index,
    list_index (remove_stop_words ["le chat"; "chat"; "la souris"] Demo.nlp) "chat" Demo.w0
    = (Ok index, Demo.w0)
    /\ exists llm_keyword,
         list_get ["le chat"; "chat"; "la souris"] index Demo.w0 = (Ok llm_keyword, Demo.w0)
         /\ without_stop_words Demo.nlp llm_keyword = "chat"
         /\ forall j other, j < index ->
              ["le chat"; "chat"; "la souris"] !! j = Some other ->
              without_stop_words Demo.nlp other <> "chat".
Proof.
  exists 0. split; [reflexivity|].
  exact (proj2 (proj2 (remove_stop_words_aligned
                         ["le chat"; "chat"; "la souris"] Demo.nlp))
           "chat" Demo.w0 0 Demo.w0 eq_refl).
Defined.

(** ** Deleting an owner *)

Lemma neighbours_in_store E store n query_text p :
  p ∈ neighbours E store n query_text -> p.1 ∈ store.
Proof.
  unfold neighbours. intros Hp%subseteq_take.
  rewrite merge_sort_Permutation in Hp.
  apply list_elem_of_fmap in Hp as (s & -> & Hs). done.
Qed.

(** C8. Deleting an owner always succeeds, whether or not the collection
    holds a snippet of that owner; afterwards the collection holds no
    snippet of that owner, so none is found by [get] or returned by a
    query; the snippets of the other owners are untouched; and deleting the
    same owner again changes nothing. *)
Theorem delete_expert_removes_owner_and_is_idempotent
    (E : Env) (expert_email_ : string) (w : World) :
  let after := delete_expert_from_vector_store expert_email_ w in
  after.1 = Ok tt
  /\ filter (fun s => expert_email s = expert_email_) (vector_store after.2) = []
  /\ collection_get expert_email_ after.2 = (Ok [], after.2)
  /\ (forall query_texts n_results,
        exists found,
          collection_query E query_texts n_results after.2 = (Ok found, after.2)
          /\ Forall (Forall (fun owner => owner <> expert_email_)) (metadatas found))
  /\ filter (fun s => expert_email s <> expert_email_) (vector_store after.2)
     = filter (fun s => expert_email s <> expert_email_) (vector_store w)
  /\ delete_expert_from_vector_store expert_email_ after.2 = after.
Proof.
  destruct w as [store g c a tr]. simpl.
  unfold delete_expert_from_vector_store, collection_delete, collection_get,
    collection_query, set_vector_store; simpl.
  assert (Hnone : filter (fun s => expert_email s = expert_email_)
                    (filter (fun s => expert_email s <> expert_email_) store) = []).
  { apply elem_of_nil_inv.
    intros s [Heq [Hne _]%list_elem_of_filter]%list_elem_of_filter. done. }
  assert (Hidem : filter (fun s => expert_email s <> expert_email_)
                    (filter (fun s => expert_email s <> expert_email_) store)
                  = filter (fun s => expert_email s <> expert_email_) store).
  { clear Hnone. induction store as [|s store IH]; [done|].
    rewrite (filter_cons _ s store).
    destruct (decide (expert_email s <> expert_email_)); [|exact IH].
    rewrite filter_cons_True by done. by rewrite IH. }
  split; [done|]. split; [done|]. split; [by rewrite Hnone|].
  split; [|by rewrite Hidem].
  intros qs n. eexists. split; [reflexivity|]. simpl.
  apply Forall_fmap, Forall_fmap, Forall_forall. intros q _. simpl.
  apply Forall_fmap, Forall_forall. intros p Hp%neighbours_in_store. simpl.
  by apply list_elem_of_filter in Hp as [? _].
Qed.

(** ** Keyword extraction *)

Lemma upper_char_lower_char c : Str.upper_char (Str.lower_char c) = Str.upper_char c.
Proof. by destruct c as [[] [] [] [] [] [] [] []]. Qed.

Lemma upper_char_idemp c : Str.upper_char (Str.upper_char c) = Str.upper_char c.
Proof. by destruct c as [[] [] [] [] [] [] [] []]. Qed.

Lemma upper_lower s : Str.ascii_upper (Str.ascii_lower s) = Str.ascii_upper s.
Proof.
  induction s as [|c s IH]; [done|].
  unfold Str.ascii_upper, Str.ascii_lower in *. simpl.
  by rewrite upper_char_lower_char, IH.
Qed.

Lemma upper_idemp s : Str.ascii_upper (Str.ascii_upper s) = Str.ascii_upper s.
Proof.
  induction s as [|c s IH]; [done|].
  unfold Str.ascii_upper in *. simpl. by rewrite upper_char_idemp, IH.
Qed.

(** The case mappings of the concrete environment obey the two laws. *)
Lemma demo_case_stable : case_stable Demo.env.
Proof.
  split; intros s; simpl.
  - apply upper_idemp.
  - by rewrite (upper_lower (Str.ascii_upper _)), upper_idemp.
Qed.

Lemma add_keywords_all_upper E keybert_keywords candidate_keywords llm_keywords
    keywords w keywords' w' :
  all_upper E keywords ->
  add_keywords E keybert_keywords candidate_keywords (str_lower E <$> llm_keywords)
    keywords w
  = (Ok keywords', w') ->
  all_upper E keywords'.
Proof.
  revert keywords w.
  induction keybert_keywords as [|kk rest IH]; intros keywords w Hupper; simpl.
  - by intros [= <- <-].
  - intros (index & w1 & _ & Hrun)%bind_Ok_inv.
    apply bind_Ok_inv in Hrun as (llm_keyword & w2 & Hget & Hrun).
    eapply IH; [|exact Hrun].
    intros k [->%elem_of_singleton|Hk]%elem_of_union; [|by apply Hupper].
    unfold list_get in Hget.
    destruct ((str_lower E <$> llm_keywords) !! index) as [lowered|] eqn:Hlookup;
      [|done].
    injection Hget as <- _.
    apply list_lookup_fmap_Some in Hlookup as (x & -> & _). by exists x.
Qed.

Lemma keywords_loop_all_upper (E : Env) total i remaining sentences keywords w keywords' w' :
  all_upper E keywords ->
  keywords_loop E total i remaining sentences keywords w = (Ok keywords', w') ->
  all_upper E keywords'.
Proof.
  revert i sentences keywords w.
  induction remaining as [|sentence rest IH]; intros i sentences keywords w Hupper; simpl.
  - by intros [= <- <-].
  - destruct (decide (length (sentences ++ [str_lstrip E sentence]) = 5 \/ i = total - 1)).
    + intros (llm_keywords & w1 & _ & Hrun)%bind_Ok_inv.
      apply bind_Ok_inv in Hrun as (keybert_keywords & w2 & _ & Hrun).
      apply bind_Ok_inv in Hrun as (keywords1 & w3 & Hadd & Hrun).
      eapply IH; [|exact Hrun]. by eapply add_keywords_all_upper.
    + by apply IH.
Qed.

(** C6. For the empty text, keyword extraction returns the empty list
    without calling any collaborator. Whatever the text, a returned list
    has no duplicates and each of its keywords is what [str.upper] returns
    for a lower-cased string. With case mappings that obey the two laws of
    [case_stable], as those of the interpreter do, the list has no
    duplicates either when case is ignored, and each of its keywords is
    upper-case: upper-casing it again changes nothing. *)
Theorem get_keywords_empty_unique_upper (E : Env) :
  (forall w, get_keywords E EmptyString w = (Ok [], w))
  /\ (forall text w keywords w',
        get_keywords E text w = (Ok keywords, w') ->
        NoDup keywords
        /\ Forall (fun k => exists x, k = str_upper E (str_lower E x)) keywords
        /\ (case_stable E ->
            NoDup (str_lower E <$> keywords)
            /\ Forall (fun k => str_upper E k = k) keywords)).
Proof.
  split; [done|].
  intros text w keywords w'. unfold get_keywords.
  destruct (decide (text = EmptyString)) as [->|Hne].
  { intros [= <- <-]. repeat split; constructor. }
  intros (translated & w1 & _ & Hrun)%bind_Ok_inv.
  apply bind_Ok_inv in Hrun as (kws & w2 & Hloop & [= <- <-]).
  apply keywords_loop_all_upper in Hloop; [|intros k Hk; set_solver].
  split; [apply NoDup_elements|]. split.
  { apply Forall_forall. intros k Hk%elem_of_elements. by apply Hloop. }
  intros [Hidemp Hback]. split.
  - apply NoDup_fmap_2_strong; [|apply NoDup_elements].
    intros k1 k2 Hk1%elem_of_elements Hk2%elem_of_elements Heq.
    destruct (Hloop k1 Hk1) as [x1 ->]. destruct (Hloop k2 Hk2) as [x2 ->].
    rewrite <- (Hback x1), <- (Hback x2). by rewrite Heq.
  - apply Forall_forall. intros k Hk%elem_of_elements.
    destruct (Hloop k Hk) as [x ->]. apply Hidemp.
Qed.

Lemma get_keywords_empty_unique_upper_witness :
  exists w',
    get_keywords Demo.env "Le chat. La souris de ville" Demo.w0
    = (Ok ["SURGEON"; "LE NURSE"; "DATA ENGINEER"], w')
    /\ NoDup ["SURGEON"; "LE NURSE"; "DATA ENGINEER"]
    /\ Forall (fun k => exists x, k = str_upper Demo.env (str_lower Demo.env x))
         ["SURGEON"; "LE NURSE"; "DATA ENGINEER"]
    /\ NoDup (str_lower Demo.env <$> ["SURGEON"; "LE NURSE"; "DATA ENGINEER"])
    /\ Forall (fun k => str_upper Demo.env k = k)
         ["SURGEON"; "LE NURSE"; "DATA ENGINEER"].
Proof.
  eexists. split; [vm_compute; reflexivity|].
  destruct (proj2 (get_keywords_empty_unique_upper Demo.env)
              "Le chat. La souris de ville" Demo.w0
              ["SURGEON"; "LE NURSE"; "DATA ENGINEER"] _
              ltac:(vm_compute; reflexivity)) as (Hnodup & Hupper & Hstable).
  split; [exact Hnodup|]. split; [exact Hupper|].
  exact (Hstable demo_case_stable).
Defined.


(** ** What the methods leave untouched *)

Section Frame.

Context {X : Type} (f : World -> X).

Lemma keeps_ret {A} (a : A) : keeps f (ret a).
Proof. by intros w. Qed.

Lemma keeps_raise {A} e : keeps f (@raise A e).
Proof. by intros w. Qed.

Lemma keeps_lift_result {A} (r : result A) : keeps f (lift_result r).
Proof. by intros w. Qed.

Lemma keeps_bind {A B} (m : M A) (k : A -> M B) :
  keeps f m -> (forall a, keeps f (k a)) -> keeps f (bind m k).
Proof.
  intros Hm Hk w. unfold bind. specialize (Hm w).
  destruct (m w) as [[a|e] w1]; simpl in *; [|done].
  by rewrite Hk.
Qed.

Lemma keeps_try_except {A} (m : M A) cls h :
  keeps f m -> (forall e, keeps f (h e)) -> keeps f (try_except m cls h).
Proof.
  intros Hm Hh w. unfold try_except. specialize (Hm w).
  destruct (m w) as [[a|e] w1]; simpl in *; [done|].
  destruct (decide (exn_cls e = cls)); [|done]. by rewrite Hh.
Qed.


End Frame.

Lemma quiet_ret {A} (a : A) : quiet (ret a).
Proof. by intros w e. Qed.

Lemma quiet_raise {A} e : ordinary e -> quiet (@raise A e).
Proof. intros He w e' [= <-]. done. Qed.

Lemma quiet_lift_result {A} (r : result A) :
  (forall e, r = Raise e -> ordinary e) -> quiet (lift_result r).
Proof. intros Hr w e. apply Hr. Qed.

Lemma quiet_bind {A B} (m : M A) (k : A -> M B) :
  quiet m -> (forall a, quiet (k a)) -> quiet (bind m k).
Proof.
  intros Hm Hk w e. unfold bind. specialize (Hm w).
  destruct (m w) as [[a|e1] w1]; simpl in *; [apply Hk|].
  intros [= <-]. by apply Hm.
Qed.

Lemma quiet_try_except {A} (m : M A) cls h :
  quiet m -> (forall e, quiet (h e)) -> quiet (try_except m cls h).
Proof.
  intros Hm Hh w e. unfold try_except. specialize (Hm w).
  destruct (m w) as [[a|e1] w1]; simpl in *; [done|].
  destruct (decide (exn_cls e1 = cls)); [apply Hh|].
  intros [= <-]. by apply Hm.
Qed.

Lemma responses_snoc w ev :
  (forall r, ev <> EvSend r) ->
  sent (trace w ++ [ev]) = sent (trace w).
Proof.
  intros Hev. unfold sent. rewrite omap_app. simpl.
  destruct ev; try by rewrite app_nil_r. by destruct (Hev r).
Qed.

(** One step through the structure of a method. *)
Ltac frame_step :=
  first
    [ assumption
    | apply keeps_ret | apply keeps_raise | apply keeps_lift_result
    | apply quiet_ret
    | apply keeps_bind; [|intros ?]
    | apply quiet_bind; [|intros ?]
    | apply keeps_try_except; [|intros ?]
    | apply quiet_try_except; [|intros ?]
    | match goal with
      | |- keeps _ (if ?c then _ else _) => destruct c
      | |- quiet (if ?c then _ else _) => destruct c
      | |- keeps _ (match ?x with _ => _ end) => destruct x
      | |- quiet (match ?x with _ => _ end) => destruct x
      end ].

Ltac frame := repeat frame_step.

Section OperationsFrame.

Context (E : Env) {X : Type} (f : World -> X).
Hypothesis f_emit :
  forall ev, (forall r, ev <> EvSend r) -> (forall id doc e, ev <> EvAdd id doc e) ->
             keeps f (emit ev).
Hypothesis f_add : forall id doc e, keeps f (emit (EvAdd id doc e)).
Hypothesis f_generate : forall prompt, keeps f (generate E prompt).
Hypothesis f_clock : keeps f (time_time_str E).
Hypothesis f_store : forall store, keeps f (set_vector_store store).

Lemma log_keeps level msg : keeps f (log level msg).
Proof. by apply f_emit. Qed.

Lemma sleep_keeps seconds : keeps f (sleep seconds).
Proof. by apply f_emit. Qed.

Lemma translate_keeps target text : keeps f (translate E target text).
Proof.
  unfold translate. apply keeps_bind; [by apply f_emit|]. intros _.
  apply keeps_lift_result.
Qed.

Lemma translate_sentences_keeps lang sentences chunk translated :
  keeps f (translate_sentences E lang sentences chunk translated).
Proof.
  revert chunk translated.
  induction sentences as [|sentence rest IH]; intros chunk translated; simpl.
  - frame.
  - destruct (decide (sentence = EmptyString)); [apply IH|].
    destruct (chunk_length <=? Str.len chunk); [|apply IH].
    apply keeps_bind; [apply translate_keeps|]. intros t. apply IH.
Qed.

Lemma translate_text_keeps text lang : keeps f (translate_text E text lang).
Proof.
  unfold translate_text.
  destruct (Str.len text <=? max_text_length); [apply translate_keeps|].
  apply keeps_bind; [apply translate_sentences_keeps|]. intros [chunk translated].
  destruct (decide (chunk = EmptyString)); [frame|].
  apply keeps_bind; [apply translate_keeps|]. intros t. frame.
Qed.

Lemma parse_profiles_keeps out : keeps f (parse_profiles E out).
Proof. unfold parse_profiles. frame. Qed.

Lemma expert_recommendation_attempts_keeps attempts llm_input retry_delay :
  keeps f (expert_recommendation_attempts E attempts llm_input retry_delay).
Proof.
  induction attempts as [|a attempts IH]; simpl; [frame|].
  apply keeps_bind.
  - apply keeps_try_except.
    + apply keeps_bind; [apply f_generate|]. intros out.
      apply keeps_bind; [apply parse_profiles_keeps|]. intros gp. frame.
    + intros e. apply keeps_bind; [apply log_keeps|]. intros _.
      apply keeps_bind; [apply sleep_keeps|]. intros _. frame.
  - intros [gp|]; [frame|apply IH].
Qed.

Lemma try_get_llm_expert_recommendation_keeps llm_input max_attempts retry_delay :
  keeps f (try_get_llm_expert_recommendation E llm_input max_attempts retry_delay).
Proof. apply expert_recommendation_attempts_keeps. Qed.

Lemma keywords_attempts_keeps attempts llm_input retry_delay :
  keeps f (keywords_attempts E attempts llm_input retry_delay).
Proof.
  induction attempts as [|a attempts IH]; simpl; [frame|].
  apply keeps_bind.
  - apply keeps_try_except.
    + apply keeps_bind; [apply f_generate|]. intros out. frame.
    + intros e. apply keeps_bind; [apply log_keeps|]. intros _.
      apply keeps_bind; [apply sleep_keeps|]. intros _. frame.
  - intros [kws|]; [frame|apply IH].
Qed.

Lemma try_get_llm_keywords_keeps llm_input max_attempts retry_delay :
  keeps f (try_get_llm_keywords E llm_input max_attempts retry_delay).
Proof. apply keywords_attempts_keeps. Qed.

Lemma list_index_keeps l x : keeps f (list_index l x).
Proof. unfold list_index. destruct (list_find _ l) as [[i y]|]; frame. Qed.

Lemma list_get_keeps {A} (l : list A) i : keeps f (list_get l i).
Proof. unfold list_get. destruct (l !! i); frame. Qed.

Lemma add_keywords_keeps keybert_keywords candidate_keywords llm_keywords keywords :
  keeps f (add_keywords E keybert_keywords candidate_keywords llm_keywords keywords).
Proof.
  revert keywords. induction keybert_keywords as [|kk rest IH]; intros keywords; simpl.
  - frame.
  - apply keeps_bind; [apply list_index_keeps|]. intros index.
    apply keeps_bind; [apply list_get_keeps|]. intros kw. apply IH.
Qed.

Lemma keywords_loop_keeps total i remaining sentences keywords :
  keeps f (keywords_loop E total i remaining sentences keywords).
Proof.
  revert i sentences keywords.
  induction remaining as [|sentence rest IH]; intros i sentences keywords; simpl.
  - frame.
  - destruct (decide _); [|apply IH].
    apply keeps_bind; [apply try_get_llm_keywords_keeps|]. intros kws.
    apply keeps_bind; [apply keeps_lift_result|]. intros ranked.
    apply keeps_bind; [apply add_keywords_keeps|]. intros keywords1. apply IH.
Qed.

Lemma get_keywords_keeps text : keeps f (get_keywords E text).
Proof.
  unfold get_keywords. destruct (decide _); [frame|].
  apply keeps_bind; [apply translate_text_keeps|]. intros translated.
  apply keeps_bind; [apply keywords_loop_keeps|]. intros keywords. frame.
Qed.

Lemma collection_get_keeps e : keeps f (collection_get e).
Proof. by intros w. Qed.

Lemma collection_delete_keeps e : keeps f (collection_delete e).
Proof. intros w. apply f_store. Qed.

Lemma collection_add_keeps doc e id : keeps f (collection_add doc e id).
Proof.
  unfold collection_add. apply keeps_bind; [apply f_add|]. intros _ w.
  destruct (decide _); [done|apply f_store].
Qed.

Lemma collection_query_keeps query_texts n : keeps f (collection_query E query_texts n).
Proof. by intros w. Qed.

Lemma add_skills_keeps skills e : keeps f (add_skills E skills e).
Proof.
  induction skills as [|skill rest IH]; simpl; [frame|].
  apply keeps_bind; [apply f_clock|]. intros id.
  apply keeps_bind; [apply collection_add_keeps|]. intros _. apply IH.
Qed.

Lemma populate_loop_keeps nlp expert_skills i expert_emails_ :
  keeps f (populate_loop E nlp expert_skills i expert_emails_).
Proof.
  revert i. induction expert_emails_ as [|e rest IH]; intros i; simpl; [frame|].
  apply keeps_bind; [apply list_get_keeps|]. intros skills_i.
  apply keeps_bind; [apply translate_text_keeps|]. intros translated.
  apply keeps_bind; [apply collection_get_keeps|]. intros stored.
  apply keeps_bind; [|intros _; apply IH].
  destruct (decide _); [apply add_skills_keeps|frame].
Qed.

Lemma update_expert_in_vector_store_keeps skills e :
  keeps f (update_expert_in_vector_store E skills e).
Proof.
  unfold update_expert_in_vector_store.
  apply keeps_bind; [apply collection_delete_keeps|]. intros _. apply populate_loop_keeps.
Qed.

Lemma scan_neighbours_keeps found i j metadatas_i entry :
  keeps f (scan_neighbours found i j metadatas_i entry).
Proof.
  revert j entry. induction metadatas_i as [|metadata rest IH]; intros j entry; simpl.
  - frame.
  - apply keeps_bind.
    + destruct (decide _); [|frame].
      apply keeps_bind; [apply list_get_keeps|]. intros ds.
      apply keeps_bind; [apply list_get_keeps|]. intros d.
      destruct (Qle_bool d (1 # 2)); frame.
    + intros entry1. destruct (decide _); [frame|apply IH].
Qed.

Lemma recommendation_loop_keeps found i generic_profiles response :
  keeps f (recommendation_loop E found i generic_profiles response).
Proof.
  revert i response.
  induction generic_profiles as [|gp rest IH]; intros i response; simpl; [frame|].
  apply keeps_bind; [apply translate_keeps|]. intros key.
  apply keeps_bind; [apply list_get_keeps|]. intros metas.
  apply keeps_bind; [apply scan_neighbours_keeps|]. intros entry. apply IH.
Qed.

Lemma get_experts_recommendation_keeps question :
  keeps f (get_experts_recommendation E question).
Proof.
  unfold get_experts_recommendation.
  apply keeps_bind; [apply translate_keeps|]. intros query.
  apply keeps_bind; [apply try_get_llm_expert_recommendation_keeps|]. intros gps.
  apply keeps_bind; [apply collection_query_keeps|]. intros found.
  apply recommendation_loop_keeps.
Qed.

Lemma fmap_M_keeps {A B} (g : A -> B) (m : M A) : keeps f m -> keeps f (fmap_M g m).
Proof. intros Hm. unfold fmap_M. frame. Qed.

Lemma invoke_keeps method_name arguments_ :
  method_name ∈ embedded_methods -> keeps f (invoke E method_name arguments_).
Proof.
  intros Hembedded. unfold invoke, bad_arguments.
  repeat match goal with
         | |- keeps _ (if ?c then _ else _) => destruct c as [->|?]
         end;
    try (by repeat (apply elem_of_cons in Hembedded as [?|Hembedded]; [done|]);
         apply elem_of_nil in Hembedded);
    destruct arguments_ as [|a1 [|a2 [|a3 rest]]];
    try apply keeps_raise; apply fmap_M_keeps.
  - apply get_keywords_keeps.
  - apply get_experts_recommendation_keeps.
  - apply populate_loop_keeps.
  - apply update_expert_in_vector_store_keeps.
  - apply collection_delete_keeps.
  - apply translate_text_keeps.
  - apply try_get_llm_expert_recommendation_keeps.
  - apply try_get_llm_keywords_keeps.
Qed.

Lemma call_method_keeps method_name arguments_ :
  (method_name ∈ private_methods -> method_name ∈ embedded_methods) ->
  keeps f (call_method E method_name arguments_).
Proof.
  intros Hembedded. unfold call_method. destruct (decide _); [|frame].
  apply keeps_bind; [by apply invoke_keeps, Hembedded|]. intros r. frame.
Qed.

End OperationsFrame.

Section OperationsQuiet.

Context (E : Env).
Hypothesis E_operation_level : operation_level E.

Lemma quiet_Ok {A} (m : M A) : (forall w, exists a, (m w).1 = Ok a) -> quiet m.
Proof. intros Hm w e He. destruct (Hm w) as [a Ha]. congruence. Qed.

Lemma emit_quiet ev : quiet (emit ev).
Proof. apply quiet_Ok. intros w. by exists tt. Qed.

Lemma translate_quiet target text : quiet (translate E target text).
Proof.
  unfold translate. apply quiet_bind; [apply emit_quiet|]. intros _.
  apply quiet_lift_result. apply E_operation_level.
Qed.

Lemma translate_sentences_quiet lang sentences chunk translated :
  quiet (translate_sentences E lang sentences chunk translated).
Proof.
  revert chunk translated.
  induction sentences as [|sentence rest IH]; intros chunk translated; simpl.
  - frame.
  - destruct (decide (sentence = EmptyString)); [apply IH|].
    destruct (chunk_length <=? Str.len chunk); [|apply IH].
    apply quiet_bind; [apply translate_quiet|]. intros t. apply IH.
Qed.

Lemma translate_text_quiet text lang : quiet (translate_text E text lang).
Proof.
  unfold translate_text.
  destruct (Str.len text <=? max_text_length); [apply translate_quiet|].
  apply quiet_bind; [apply translate_sentences_quiet|]. intros [chunk translated].
  destruct (decide (chunk = EmptyString)); [frame|].
  apply quiet_bind; [apply translate_quiet|]. intros t. frame.
Qed.

Lemma generate_quiet prompt : quiet (generate E prompt).
Proof. intros w e. simpl. apply E_operation_level. Qed.

Lemma parse_profiles_quiet out : quiet (parse_profiles E out).
Proof.
  unfold parse_profiles. destruct (expert_recommendation_parser E out); [|frame].
  by apply quiet_raise.
Qed.

Lemma expert_recommendation_attempts_quiet attempts llm_input retry_delay :
  quiet (expert_recommendation_attempts E attempts llm_input retry_delay).
Proof.
  induction attempts as [|a attempts IH]; simpl; [by apply quiet_raise|].
  apply quiet_bind.
  - apply quiet_try_except.
    + apply quiet_bind; [apply generate_quiet|]. intros out.
      apply quiet_bind; [apply parse_profiles_quiet|]. intros gp. frame.
    + intros e. apply quiet_bind; [apply emit_quiet|]. intros _.
      apply quiet_bind; [apply emit_quiet|]. intros _. frame.
  - intros [gp|]; [frame|apply IH].
Qed.

Lemma keywords_attempts_quiet attempts llm_input retry_delay :
  quiet (keywords_attempts E attempts llm_input retry_delay).
Proof.
  induction attempts as [|a attempts IH]; simpl; [by apply quiet_raise|].
  apply quiet_bind.
  - apply quiet_try_except.
    + apply quiet_bind; [apply generate_quiet|]. intros out.
      apply quiet_bind; [apply quiet_lift_result, E_operation_level|].
      intros llm_keywords. frame.
    + intros e. apply quiet_bind; [apply emit_quiet|]. intros _.
      apply quiet_bind; [apply emit_quiet|]. intros _. frame.
  - intros [kws|]; [frame|apply IH].
Qed.

Lemma list_index_quiet l x : quiet (list_index l x).
Proof.
  unfold list_index. destruct (list_find _ l) as [[i y]|]; [frame|].
  by apply quiet_raise.
Qed.

Lemma list_get_quiet {A} (l : list A) i : quiet (list_get l i).
Proof. unfold list_get. destruct (l !! i); [frame|]. by apply quiet_raise. Qed.

Lemma add_keywords_quiet keybert_keywords candidate_keywords llm_keywords keywords :
  quiet (add_keywords E keybert_keywords candidate_keywords llm_keywords keywords).
Proof.
  revert keywords. induction keybert_keywords as [|kk rest IH]; intros keywords; simpl.
  - frame.
  - apply quiet_bind; [apply list_index_quiet|]. intros index.
    apply quiet_bind; [apply list_get_quiet|]. intros kw. apply IH.
Qed.

Lemma keywords_loop_quiet total i remaining sentences keywords :
  quiet (keywords_loop E total i remaining sentences keywords).
Proof.
  revert i sentences keywords.
  induction remaining as [|sentence rest IH]; intros i sentences keywords; simpl.
  - frame.
  - destruct (decide _); [|apply IH].
    apply quiet_bind; [apply keywords_attempts_quiet|]. intros kws.
    apply quiet_bind; [apply quiet_lift_result, E_operation_level|]. intros ranked.
    apply quiet_bind; [apply add_keywords_quiet|]. intros keywords1. apply IH.
Qed.

Lemma get_keywords_quiet text : quiet (get_keywords E text).
Proof.
  unfold get_keywords. destruct (decide _); [frame|].
  apply quiet_bind; [apply translate_text_quiet|]. intros translated.
  apply quiet_bind; [apply keywords_loop_quiet|]. intros keywords. frame.
Qed.

Lemma collection_add_quiet doc e id : quiet (collection_add doc e id).
Proof.
  unfold collection_add. apply quiet_bind; [apply emit_quiet|]. intros _.
  apply quiet_Ok. intros w. exists tt. by destruct (decide _).
Qed.

Lemma add_skills_quiet skills e : quiet (add_skills E skills e).
Proof.
  induction skills as [|skill rest IH]; simpl; [frame|].
  apply quiet_bind; [apply quiet_Ok; intros w; by eexists|]. intros id.
  apply quiet_bind; [apply collection_add_quiet|]. intros _. apply IH.
Qed.

Lemma populate_loop_quiet nlp expert_skills i expert_emails_ :
  quiet (populate_loop E nlp expert_skills i expert_emails_).
Proof.
  revert i. induction expert_emails_ as [|e rest IH]; intros i; simpl; [frame|].
  apply quiet_bind; [apply list_get_quiet|]. intros skills_i.
  apply quiet_bind; [apply translate_text_quiet|]. intros translated.
  apply quiet_bind; [apply quiet_Ok; intros w; by eexists|]. intros stored.
  apply quiet_bind; [|intros _; apply IH].
  destruct (decide _); [apply add_skills_quiet|frame].
Qed.

Lemma collection_delete_quiet e : quiet (collection_delete e).
Proof. apply quiet_Ok. intros w. by exists tt. Qed.

Lemma scan_neighbours_quiet found i j metadatas_i entry :
  quiet (scan_neighbours found i j metadatas_i entry).
Proof.
  revert j entry. induction metadatas_i as [|metadata rest IH]; intros j entry; simpl.
  - frame.
  - apply quiet_bind.
    + destruct (decide _); [|frame].
      apply quiet_bind; [apply list_get_quiet|]. intros ds.
      apply quiet_bind; [apply list_get_quiet|]. intros d.
      destruct (Qle_bool d (1 # 2)); frame.
    + intros entry1. destruct (decide _); [frame|apply IH].
Qed.

Lemma recommendation_loop_quiet found i generic_profiles response :
  quiet (recommendation_loop E found i generic_profiles response).
Proof.
  revert i response.
  induction generic_profiles as [|gp rest IH]; intros i response; simpl; [frame|].
  apply quiet_bind; [apply translate_quiet|]. intros key.
  apply quiet_bind; [apply list_get_quiet|]. intros metas.
  apply quiet_bind; [apply scan_neighbours_quiet|]. intros entry. apply IH.
Qed.

Lemma get_experts_recommendation_quiet question :
  quiet (get_experts_recommendation E question).
Proof.
  unfold get_experts_recommendation.
  apply quiet_bind; [apply translate_quiet|]. intros query.
  apply quiet_bind; [apply expert_recommendation_attempts_quiet|]. intros gps.
  apply quiet_bind; [apply quiet_Ok; intros w; by eexists|]. intros found.
  apply recommendation_loop_quiet.
Qed.

Lemma fmap_M_quiet {A B} (g : A -> B) (m : M A) : quiet m -> quiet (fmap_M g m).
Proof. intros Hm. unfold fmap_M. frame. Qed.

Lemma invoke_quiet method_name arguments_ :
  method_name ∈ embedded_methods -> quiet (invoke E method_name arguments_).
Proof.
  intros Hembedded. unfold invoke, bad_arguments.
  repeat match goal with
         | |- quiet (if ?c then _ else _) => destruct c as [->|?]
         end;
    try (by repeat (apply elem_of_cons in Hembedded as [?|Hembedded]; [done|]);
         apply elem_of_nil in Hembedded);
    destruct arguments_ as [|a1 [|a2 [|a3 rest]]];
    try (by apply quiet_raise); apply fmap_M_quiet.
  - apply get_keywords_quiet.
  - apply get_experts_recommendation_quiet.
  - apply populate_loop_quiet.
  - apply quiet_bind; [apply collection_delete_quiet|]. intros _. apply populate_loop_quiet.
  - apply collection_delete_quiet.
  - apply translate_text_quiet.
  - apply expert_recommendation_attempts_quiet.
  - apply keywords_attempts_quiet.
Qed.

End OperationsQuiet.

(** ** Dispatch by name *)

Lemma process_query_unknown (E : Env) method_name arguments_ w :
  method_name <> EmptyString ->
  method_name ∉ private_methods ->
  process_query E
    (Received {| method := Some method_name; arguments := Some arguments_ |}) w
  = (let! _ := emit (EvSend (Error ("Method not found: " +:+ method_name))) in
     set_awaiting_reply false) (set_awaiting_reply true w).2.
Proof.
  intros Hname Hunknown. unfold process_query, try_except_all, bind. simpl.
  rewrite decide_True by done. unfold call_method.
  by rewrite decide_False.
Qed.

(** C3, as the code has it. The dispatcher resolves the name among all the
    private methods of the class, 31 names of which the five operations
    the web process requests are a part. For a name that is no private
    method it answers with the error [Method not found: name], calls
    nothing and leaves the worker as it was, and the loop sends that answer
    and stays available; for any name of the table it calls the method and
    wraps its result. *)
Theorem call_method_resolves_private_methods
    (E : Env) (method_name : string) (arguments_ : list string) (w : World) :
  (method_name ∉ private_methods ->
     call_method E method_name arguments_ w
     = (Ok (Error ("Method not found: " +:+ method_name)), w)
     /\ (method_name <> EmptyString ->
         let after :=
           process_query E
             (Received {| method := Some method_name; arguments := Some arguments_ |}) w in
         after.1 = Ok tt
         /\ trace after.2 = trace w ++ [EvSend (Error ("Method not found: " +:+ method_name))]
         /\ is_available after.2 = is_available w
         /\ vector_store after.2 = vector_store w))
  /\ (method_name ∈ private_methods ->
      call_method E method_name arguments_ w
      = (let! result_ := invoke E method_name arguments_ in ret (Success result_)) w)
  /\ Forall (fun name => name ∈ private_methods) query_llm_methods
  /\ length private_methods = 31
  /\ length query_llm_methods = 5.
Proof.
  split; [|split; [|split; [|done]]].
  - intros Hunknown. split.
    + unfold call_method. by rewrite decide_False.
    + intros Hname. simpl. by rewrite process_query_unknown.
  - intros Hknown. unfold call_method. by rewrite decide_True.
  - apply Forall_forall. intros name Hname.
    apply (bool_decide_unpack _).
    repeat (apply elem_of_cons in Hname as [->|Hname]; [by vm_compute|]).
    by apply elem_of_nil in Hname.
Qed.

Lemma call_method_resolves_private_methods_witness :
  ("shutdown" ∉ private_methods)
  /\ call_method Demo.env "shutdown" [] Demo.w0
     = (Ok (Error "Method not found: shutdown"), Demo.w0)
  /\ ("get_keywords" ∈ private_methods)
  /\ call_method Demo.env "get_keywords" [EmptyString] Demo.w0
     = (Ok (Success (PyList [])), Demo.w0).
Proof.
  assert (Hunknown : "shutdown" ∉ private_methods)
    by (apply (bool_decide_unpack _); vm_compute; exact I).
  assert (Hknown : "get_keywords" ∈ private_methods)
    by (apply (bool_decide_unpack _); vm_compute; exact I).
  split; [exact Hunknown|]. split.
  - exact (proj1 (proj1 (call_method_resolves_private_methods
                           Demo.env "shutdown" [] Demo.w0) Hunknown)).
  - split; [exact Hknown|].
    rewrite (proj1 (proj2 (call_method_resolves_private_methods
                             Demo.env "get_keywords" [EmptyString] Demo.w0)) Hknown).
    reflexivity.
Defined.

(** C3, as claimed, fails: [translate_text] is none of the five operations,
    yet the dispatcher finds it, calls it (the translator is reached) and
    answers with a success. *)
Lemma call_method_reaches_translate_text :
  ("translate_text" ∉ query_llm_methods)
  /\ call_method Demo.env "translate_text" ["bonjour"; "en"] Demo.w0
     = (Ok (Success (PyStr "bonjour")),
        {| vector_store := []; generated := 0; clock_reads := 0;
           is_available := true; awaiting_reply := false;
           trace := [EvTranslate "en" "bonjour"] |}).
Proof.
  split; [apply (bool_decide_unpack _); vm_compute; exact I|].
  vm_compute. reflexivity.
Qed.

(** ** The processing loop *)

Lemma responses_emit ev : (forall r, ev <> EvSend r) -> keeps responses (emit ev).
Proof. intros Hev w. unfold responses. simpl. by apply responses_snoc. Qed.

Lemma responses_generate E prompt : keeps responses (generate E prompt).
Proof. intros w. unfold responses. simpl. by apply responses_snoc. Qed.

Section Served.

Context (E : Env) (method_name : string) (arguments_ : list string).
Hypothesis embedded : method_name ∈ private_methods -> method_name ∈ embedded_methods.

Lemma call_method_is_available :
  keeps is_available (call_method E method_name arguments_).
Proof. apply call_method_keeps; first [exact embedded | by intros]. Qed.

Lemma call_method_awaiting_reply :
  keeps awaiting_reply (call_method E method_name arguments_).
Proof. apply call_method_keeps; first [exact embedded | by intros]. Qed.

Lemma call_method_responses :
  keeps responses (call_method E method_name arguments_).
Proof.
  apply call_method_keeps; try exact embedded; try by intros.
  - intros ev Hev _. by apply responses_emit.
  - intros id doc e. by apply responses_emit.
  - apply responses_generate.
Qed.

Lemma call_method_quiet :
  operation_level E -> quiet (call_method E method_name arguments_).
Proof.
  intros HE. unfold call_method. destruct (decide _) as [Hin|]; [|frame].
  apply quiet_bind; [by apply invoke_quiet, embedded|]. intros r. frame.
Qed.

End Served.

(** The handler of the [except Exception] clause, on a socket that holds
    the request. *)
Lemma report_error msg w :
  awaiting_reply w = true ->
  (let! _ := send_json (Error msg) in log LogError msg) w
  = (Ok tt, {| vector_store := vector_store w;
               generated := generated w;
               clock_reads := clock_reads w;
               is_available := is_available w;
               awaiting_reply := false;
               trace := (trace w ++ [EvSend (Error msg)]) ++ [EvLog LogError msg] |}).
Proof. intros Hw. unfold bind, send_json. by rewrite Hw. Qed.

(** The body of the loop for a request, from the world in which the
    request was received. *)
Lemma process_query_Received_eq E data w :
  process_query E (Received data) w
  = try_except_all
      (let! response :=
         if decide (default EmptyString (method data) <> EmptyString) then
           call_method E (default EmptyString (method data))
             (default [] (arguments data))
         else ret (Error "No method specified") in
       send_json response)
      (fun e =>
         if decide (exn_cls e = ContextTerminated) then
           let! _ := set_is_available false in
           log LogWarning "Context terminated during processing. Exiting..."
         else
           let! _ := send_json (Error (exn_str e)) in
           log LogError (exn_str e))
      (recv_json (Received data) w).2.
Proof. reflexivity. Qed.

(** What the loop does with a request it serves: one response, the answer
    of the dispatcher or the error it raised, and the worker stays as
    available as it was. *)
Lemma process_query_served E data w :
  operation_level E ->
  serves (Received data) ->
  let answer :=
    (if decide (default EmptyString (method data) <> EmptyString) then
       call_method E (default EmptyString (method data)) (default [] (arguments data))
     else ret (Error "No method specified")) (recv_json (Received data) w).2 in
  let after := process_query E (Received data) w in
  after.1 = Ok tt
  /\ is_available after.2 = is_available w
  /\ responses after.2
     = responses w ++
       [ match answer.1 with
         | Ok (Success (PyObject type_name)) =>
             Error ("Object of type " +:+ type_name +:+ " is not JSON serializable")
         | Ok r => r
         | Raise e => Error (exn_str e)
         end ]
  /\ (forall e, answer.1 = Raise e ->
        trace after.2
        = trace answer.2 ++ [EvSend (Error (exn_str e)); EvLog LogError (exn_str e)]).
Proof.
  intros HE Hserves. cbv zeta. rewrite !process_query_Received_eq.
  set (received := (recv_json (Received data) w).2).
  set (dispatch := if decide (default EmptyString (method data) <> EmptyString)
                   then call_method E (default EmptyString (method data))
                          (default [] (arguments data))
                   else ret (Error "No method specified")).
  assert (Havail : keeps is_available dispatch).
  { unfold dispatch. destruct (decide _); [by apply call_method_is_available|by intros ?]. }
  assert (Hawait : keeps awaiting_reply dispatch).
  { unfold dispatch. destruct (decide _); [by apply call_method_awaiting_reply|by intros ?]. }
  assert (Hresp : keeps responses dispatch).
  { unfold dispatch. destruct (decide _); [by apply call_method_responses|by intros ?]. }
  assert (Hquiet : quiet dispatch).
  { unfold dispatch. destruct (decide _); [by apply call_method_quiet|by intros ??]. }
  specialize (Havail received). specialize (Hawait received).
  specialize (Hresp received). specialize (Hquiet received).
  match goal with
  | |- context [try_except_all ?body ?handler received] =>
      set (after := try_except_all body handler received)
  end.
  destruct (dispatch received) as [[r|e] w1] eqn:Hdispatch;
    simpl in Havail, Hawait, Hresp, Hquiet.
  - assert (Hsent : forall r' tail,
              omap (fun ev => match ev with EvSend r => Some r | _ => None end) tail = [] ->
              sent ((trace w1 ++ [EvSend r']) ++ tail) = responses w ++ [r']).
    { intros r' tail Htail. unfold responses, sent in *.
      rewrite !omap_app, Htail, Hresp. simpl. by rewrite app_nil_r. }
    assert (Hplain : (forall t, r <> Success (PyObject t)) ->
              after
              = (Ok tt,
                 {| vector_store := vector_store w1; generated := generated w1;
                    clock_reads := clock_reads w1;
                    is_available := is_available w1;
                    awaiting_reply := false;
                    trace := (trace w1 ++ [EvSend r]) ++ [] |})).
    { intros Hr. unfold after, try_except_all, bind. rewrite Hdispatch.
      destruct r as [[| | | |t]|msg]; simpl; rewrite ?Hawait; simpl;
        rewrite ?app_nil_r; try done.
      by destruct (Hr t). }
    destruct r as [[| | | |type_name]|msg].
    5:{ assert (Heq : after
                     = (Ok tt,
                        {| vector_store := vector_store w1; generated := generated w1;
                           clock_reads := clock_reads w1;
                           is_available := is_available w1;
                           awaiting_reply := false;
                           trace := (trace w1 ++
                             [EvSend (Error ("Object of type " +:+ type_name
                                             +:+ " is not JSON serializable"))]) ++
                             [EvLog LogError ("Object of type " +:+ type_name
                                              +:+ " is not JSON serializable")] |})).
        { unfold after, try_except_all, bind. rewrite Hdispatch. simpl.
          by rewrite Hawait. }
        rewrite Heq. simpl. split; [done|]. split; [done|]. split; [|done].
        unfold responses at 1. simpl. by apply Hsent. }
    all: rewrite Hplain by done; simpl; split; [done|]; split; [done|];
      split; [|done]; unfold responses at 1; simpl; by apply Hsent.
  - destruct (Hquiet e eq_refl) as [Hterm Hexit].
    assert (Heq : after
                  = (Ok tt,
                     {| vector_store := vector_store w1; generated := generated w1;
                        clock_reads := clock_reads w1;
                        is_available := is_available w1;
                        awaiting_reply := false;
                        trace := (trace w1 ++ [EvSend (Error (exn_str e))]) ++
                                 [EvLog LogError (exn_str e)] |})).
    { unfold after, try_except_all, bind. rewrite Hdispatch.
      rewrite decide_False by done. rewrite decide_False by done.
      unfold send_json. by rewrite Hawait. }
    rewrite Heq. simpl. split; [done|]. split; [done|]. split.
    + unfold responses in *. simpl. unfold sent in *.
      rewrite !omap_app. simpl. by rewrite app_nil_r, Hresp.
    + intros e' [= <-]. by rewrite <- app_assoc.
Qed.

(** When the context is terminated the flag is cleared and nothing is
    sent. *)
Lemma process_query_Terminated E w :
  process_query E Terminated w
  = (Ok tt, {| vector_store := vector_store w;
               generated := generated w;
               clock_reads := clock_reads w;
               is_available := false;
               awaiting_reply := awaiting_reply w;
               trace := trace w ++
                 [EvLog LogWarning "Context terminated during processing. Exiting..."] |}).
Proof. reflexivity. Qed.

Lemma process_query_serves_Ok E m w :
  operation_level E -> serves m -> (process_query E m w).1 = Ok tt.
Proof.
  intros HE Hm. destruct m as [data|]; [|done].
  by destruct (process_query_served E data w HE Hm) as [? _].
Qed.

Lemma start_llm_processing_cons E m inbox w :
  is_available w = true ->
  (process_query E m w).1 = Ok tt ->
  start_llm_processing E (m :: inbox) w
  = start_llm_processing E inbox (process_query E m w).2.
Proof.
  intros Hw Hok. simpl. rewrite Hw. unfold bind.
  by destruct (process_query E m w) as [[[]|e] w1].
Qed.

Lemma start_llm_processing_Ok E inbox w :
  operation_level E ->
  Forall serves inbox ->
  (start_llm_processing E inbox w).1 = Ok tt.
Proof.
  intros HE Hinbox. revert w. induction Hinbox as [|m inbox Hm _ IH]; intros w.
  - simpl. by destruct (is_available w).
  - destruct (is_available w) eqn:Hw; [|simpl; by rewrite Hw].
    rewrite start_llm_processing_cons; [apply IH|done|by apply process_query_serves_Ok].
Qed.

Lemma start_llm_processing_requests E requests w :
  operation_level E ->
  Forall serves (Received <$> requests) ->
  is_available w = true ->
  let after := (start_llm_processing E (Received <$> requests) w).2 in
  is_available after = true
  /\ length (responses after) = length (responses w) + length requests.
Proof.
  intros HE. revert w. induction requests as [|data requests IH]; intros w Hserves Hw.
  - simpl. rewrite Hw. simpl. split; [done|lia].
  - rewrite fmap_cons in Hserves |- *. apply Forall_cons in Hserves as [Hdata Hrest].
    cbv zeta.
    destruct (process_query_served E data w HE Hdata) as (Hok & Havail & Hresp & _).
    rewrite start_llm_processing_cons by done.
    rewrite Hw in Havail. destruct (IH _ Hrest Havail) as [Ha Hl]. split; [done|].
    rewrite Hl, Hresp, length_app. simpl. lia.
Qed.

Lemma start_llm_processing_exit E inbox w :
  operation_level E ->
  Forall serves inbox ->
  is_available w = true ->
  is_available (start_llm_processing E inbox w).2 = false ->
  Terminated ∈ inbox.
Proof.
  intros HE Hinbox. revert w. induction Hinbox as [|m inbox Hm _ IH]; intros w Hw.
  - simpl. rewrite Hw. simpl. congruence.
  - destruct m as [data|]; [|intros _; left].
    destruct (process_query_served E data w HE Hm) as (Hok & Havail & _).
    rewrite start_llm_processing_cons by done.
    rewrite Hw in Havail. intros Hexit. right. by eapply IH.
Qed.

(** C7, for the requests the worker is there to serve: those that name one
    of the embedded operations, an unknown method or no method, with
    collaborators that raise operation-level exceptions only. No exception
    leaves the loop. An exception that the operation raises is caught, sent
    back as the error response carrying its message, logged, and the worker
    stays available. As long as such requests keep coming the loop answers
    each of them and remains available; it stops being available only when
    the context is terminated, which clears the flag without sending
    anything, or after [stop_llm_processing], after which the loop returns
    at once. *)
Theorem processing_loop_survives_operation_errors (E : Env) :
  operation_level E ->
  (forall inbox w,
     Forall serves inbox -> (start_llm_processing E inbox w).1 = Ok tt)
  /\ (forall data w e w1,
        serves (Received data) ->
        default EmptyString (method data) <> EmptyString ->
        call_method E (default EmptyString (method data))
          (default [] (arguments data)) (recv_json (Received data) w).2
        = (Raise e, w1) ->
        let after := process_query E (Received data) w in
        after.1 = Ok tt
        /\ trace after.2
           = trace w1 ++ [EvSend (Error (exn_str e)); EvLog LogError (exn_str e)]
        /\ is_available after.2 = is_available w)
  /\ (forall requests w,
        Forall serves (Received <$> requests) ->
        is_available w = true ->
        let after := (start_llm_processing E (Received <$> requests) w).2 in
        is_available after = true
        /\ length (responses after) = length (responses w) + length requests)
  /\ (forall inbox w,
        Forall serves inbox ->
        is_available w = true ->
        is_available (start_llm_processing E inbox w).2 = false ->
        Terminated ∈ inbox)
  /\ (forall inbox w,
        is_available w = true ->
        let after := start_llm_processing E (Terminated :: inbox) w in
        after.1 = Ok tt
        /\ is_available after.2 = false
        /\ responses after.2 = responses w)
  /\ (forall inbox w,
        let stopped := (stop_llm_processing w).2 in
        is_available stopped = false
        /\ start_llm_processing E inbox stopped = (Ok tt, stopped)).
Proof.
  intros HE.
  split; [intros inbox w; by apply start_llm_processing_Ok|].
  split.
  { intros data w e w1 Hserves Hname Hcall.
    destruct (process_query_served E data w HE Hserves) as (Hok & Havail & _ & Htrace).
    rewrite decide_True in Htrace by done. rewrite Hcall in Htrace.
    cbv zeta. split; [done|]. split; [by apply Htrace|done]. }
  split; [intros requests w; by apply start_llm_processing_requests|].
  split; [intros inbox w; by apply start_llm_processing_exit|].
  split.
  - intros inbox w Hw. cbv zeta. rewrite start_llm_processing_cons by done.
    rewrite process_query_Terminated. destruct inbox; simpl.
    + split; [done|]. split; [done|]. unfold responses. simpl. by apply responses_snoc.
    + split; [done|]. split; [done|]. unfold responses. simpl. by apply responses_snoc.
  - intros inbox w. simpl. split; [done|]. by destruct inbox.
Qed.

Lemma demo_operation_level : operation_level Demo.env.
Proof. repeat split; intros; discriminate. Qed.

Lemma processing_loop_survives_operation_errors_witness :
  let bad := {| method := Some "get_keywords"; arguments := Some [] |} in
  let good := {| method := Some "get_keywords"; arguments := Some ["Le chat"] |} in
  (call_method Demo.env "get_keywords" [] (recv_json (Received bad) Demo.w0).2
   = (Raise (Exn TypeError "get_keywords() got unexpected arguments"),
      (recv_json (Received bad) Demo.w0).2))
  /\ trace (process_query Demo.env (Received bad) Demo.w0).2
     = [EvSend (Error "get_keywords() got unexpected arguments");
        EvLog LogError "get_keywords() got unexpected arguments"]
  /\ is_available (start_llm_processing Demo.env (Received <$> [bad; good]) Demo.w0).2
     = true
  /\ length (responses
               (start_llm_processing Demo.env (Received <$> [bad; good]) Demo.w0).2)
     = 0 + 2.
Proof.
  intros bad good.
  assert (Hknown : "get_keywords" ∈ embedded_methods) by (by left).
  assert (Hcall : call_method Demo.env "get_keywords" []
                    (recv_json (Received bad) Demo.w0).2
                  = (Raise (Exn TypeError "get_keywords() got unexpected arguments"),
                     (recv_json (Received bad) Demo.w0).2))
    by (vm_compute; reflexivity).
  split; [exact Hcall|]. split.
  - refine (proj1 (proj2 (proj1 (proj2
              (processing_loop_survives_operation_errors Demo.env demo_operation_level))
              bad Demo.w0 _ _ _ _ Hcall))); [by intros _|discriminate].
  - refine (proj1 (proj2 (proj2
              (processing_loop_survives_operation_errors Demo.env demo_operation_level)))
              [bad; good] Demo.w0 _ eq_refl).
    repeat constructor; by intros _.
Defined.

(** C7, as claimed, fails: a request that names the private method
    [init_zmq] makes the worker hold a new socket, which has received
    nothing. The answer cannot be sent, the error response of the handler
    cannot be sent either, and that exception leaves the loop: no reply,
    the next request is never served, and the worker still says it is
    available. *)
Lemma init_zmq_request_ends_the_loop :
  let run :=
    start_llm_processing Demo.env
      [ Received {| method := Some "init_zmq"; arguments := Some ["tcp://*:5556"] |};
        Received {| method := Some "get_keywords"; arguments := Some ["Le chat"] |} ]
      Demo.w0 in
  operation_level Demo.env
  /\ ("init_zmq" ∈ private_methods)
  /\ run.1 = Raise socket_state_error
  /\ responses run.2 = []
  /\ is_available run.2 = true.
Proof.
  split; [exact demo_operation_level|].
  split; [apply (bool_decide_unpack _); vm_compute; exact I|].
  vm_compute. repeat split; reflexivity.
Qed.


(** ** Chunked translation *)

Lemma append_cons c s1 s2 : String c s1 +:+ s2 = String c (s1 +:+ s2).
Proof. reflexivity. Qed.

Lemma append_nil_r s : s +:+ EmptyString = s.
Proof. induction s as [|c s IH]; [done|]. by rewrite append_cons, IH. Qed.

Lemma append_assoc s1 s2 s3 : (s1 +:+ s2) +:+ s3 = s1 +:+ s2 +:+ s3.
Proof. induction s1 as [|c s1 IH]; [done|]. by rewrite !append_cons, IH. Qed.

Lemma len_append s1 s2 : Str.len (s1 +:+ s2) = Str.len s1 + Str.len s2.
Proof.
  unfold Str.len. induction s1 as [|c s1 IH]; [done|].
  rewrite append_cons. simpl. by rewrite IH.
Qed.

Lemma pack_app g1 g2 : pack (g1 ++ g2) = pack g1 +:+ pack g2.
Proof.
  induction g1 as [|s g1 IH]; simpl; [done|].
  by rewrite IH, !append_assoc.
Qed.

Lemma pack_snoc g s :
  pack (g ++ [s]) = pack g +:+ s +:+ String Str.newline EmptyString.
Proof. rewrite pack_app. simpl. by rewrite append_nil_r. Qed.

Lemma pack_empty g : pack g = EmptyString -> g = [].
Proof.
  destruct g as [|s g]; [done|]. simpl. intros Hpack.
  apply (f_equal Str.len) in Hpack. rewrite !len_append in Hpack.
  simpl in Hpack. lia.
Qed.

Lemma chunk_length_pos : 0 < chunk_length.
Proof. apply Nat.ltb_lt. by vm_compute. Qed.

Lemma translate_run E target text w :
  translate E target text w
  = (google_translator E target text, record_event (EvTranslate target text) w).
Proof. reflexivity. Qed.

Lemma concat_strings_snoc ts t :
  concat_strings (ts ++ [t]) = concat_strings ts +:+ t.
Proof.
  unfold concat_strings. induction ts as [|u ts IH]; simpl.
  - by rewrite append_nil_r.
  - by rewrite IH, append_assoc.
Qed.

Section Chunks.

Context (E : Env) (lang : string).

(** The loop over the sentences, from a chunk that holds the sentences
    [g0], makes the calls that [split_chunks] lists, in that order, up to
    the first that fails; when none fails it ends with the group left at
    the end in the chunk and the translations appended in call order. *)
Lemma translate_sentences_split sentences g0 translated w :
  let run := translate_sentences E lang sentences (pack g0) translated w in
  let cut := split_chunks (filter (fun s => s <> EmptyString) sentences) g0 in
  exists n,
    n <= length cut.1
    /\ trace run.2 = trace w ++ ((fun g => EvTranslate lang (pack g)) <$> take n cut.1.*1)
    /\ match run.1 with
       | Ok (chunk, translated') =>
           n = length cut.1
           /\ chunk = pack cut.2
           /\ exists ts,
                Forall2 (fun g u => google_translator E lang (pack g) = Ok u) cut.1.*1 ts
                /\ translated' = translated +:+ concat_strings ts
       | Raise e =>
           0 < n
           /\ (exists g, cut.1.*1 !! (n - 1) = Some g
                         /\ google_translator E lang (pack g) = Raise e)
           /\ Forall (fun g => exists u, google_translator E lang (pack g) = Ok u)
                (take (n - 1) cut.1.*1)
       end.
Proof.
  revert g0 translated w.
  induction sentences as [|sentence rest IH]; intros g0 translated w; simpl.
  - exists 0. split; [done|]. split; [by rewrite app_nil_r|].
    split; [done|]. split; [done|]. exists []. split; [constructor|].
    by rewrite append_nil_r.
  - destruct (decide (sentence = EmptyString)) as [->|Hsentence].
    { rewrite filter_cons_False by (intros H; by apply H). apply IH. }
    rewrite filter_cons_True by done. simpl.
    destruct (chunk_length <=? Str.len (pack g0)) eqn:Hfull.
    + destruct (split_chunks (filter (fun s => s <> EmptyString) rest) [])
        as [sent last] eqn:Hcut.
      unfold bind. rewrite translate_run.
      destruct (google_translator E lang (pack g0)) as [t|e] eqn:Ht.
      * specialize (IH [] (translated +:+ t) (record_event (EvTranslate lang (pack g0)) w)).
        simpl in IH. rewrite Hcut in IH. simpl in IH.
        destruct IH as (n & Hn & Htrace & Hres).
        exists (S n). simpl. split; [lia|].
        split; [rewrite Htrace; simpl; by rewrite <- app_assoc|].
        destruct (translate_sentences E lang rest EmptyString (translated +:+ t)
                    (record_event (EvTranslate lang (pack g0)) w)).1
          as [[chunk translated']|e].
        -- destruct Hres as (-> & -> & ts & Hts & ->).
           split; [done|]. split; [done|]. exists (t :: ts).
           split; [by constructor|]. simpl. by rewrite append_assoc.
        -- destruct Hres as (Hpos & (g & Hg & Hfail) & Hbefore).
           split; [lia|]. rewrite Nat.sub_0_r.
           destruct n as [|n]; [lia|]. simpl in *. rewrite Nat.sub_0_r in *.
           split; [by exists g|]. constructor; [by exists t|done].
      * exists 1. simpl. split; [lia|]. split; [done|]. split; [lia|].
        split; [by exists g0|constructor].
    + rewrite <- pack_snoc. apply IH.
Qed.

(** While every proper prefix of the sentences is under the chunk length
    nothing is sent: the loop ends with all of them in the chunk. *)
Lemma translate_sentences_accumulates sentences g0 translated w :
  (forall k, k < length (filter (fun s => s <> EmptyString) sentences) ->
     Str.len (pack (g0 ++ take k (filter (fun s => s <> EmptyString) sentences)))
     < chunk_length) ->
  translate_sentences E lang sentences (pack g0) translated w
  = (Ok (pack (g0 ++ filter (fun s => s <> EmptyString) sentences), translated), w).
Proof.
  revert g0. induction sentences as [|sentence rest IH]; intros g0 Hunder; simpl.
  - by rewrite app_nil_r.
  - destruct (decide (sentence = EmptyString)) as [->|Hsentence].
    { rewrite filter_cons_False in * by (intros H; by apply H). by apply IH. }
    rewrite filter_cons_True in * by done.
    pose proof (Hunder 0 ltac:(simpl; lia)) as H0. simpl in H0. rewrite app_nil_r in H0.
    apply Nat.leb_gt in H0. rewrite H0. rewrite <- pack_snoc.
    rewrite IH; [by rewrite <- app_assoc|].
    intros k Hk. rewrite <- app_assoc. apply (Hunder (S k)). simpl. lia.
Qed.

End Chunks.

(** [split_chunks] cuts the chunk and the sentences into the groups sent
    from inside the loop, each followed by the sentence that arrived when
    it was sent, and the group left at the end. *)
Lemma split_chunks_partition sentences g0 :
  g0 = [] \/ under_until_last g0 ->
  g0 ++ sentences
  = concat ((fun p => p.1 ++ [p.2]) <$> (split_chunks sentences g0).1)
    ++ (split_chunks sentences g0).2
  /\ Forall (fun p => under_until_last p.1 /\ chunk_length <= Str.len (pack p.1))
       (split_chunks sentences g0).1
  /\ ((split_chunks sentences g0).2 = [] \/ under_until_last (split_chunks sentences g0).2).
Proof.
  revert g0. induction sentences as [|sentence rest IH]; intros g0 Hg0; simpl.
  - by rewrite app_nil_r.
  - destruct (chunk_length <=? Str.len (pack g0)) eqn:Hfull.
    + apply Nat.leb_le in Hfull.
      assert (Hunder : under_until_last g0).
      { destruct Hg0 as [->|Hunder]; [|done].
        pose proof chunk_length_pos. simpl in Hfull. lia. }
      destruct (IH [] ltac:(by left)) as (Hcat & Hall & Hlast).
      destruct (split_chunks rest []) as [sent last]. simpl in *.
      split; [rewrite <- !app_assoc; simpl; by rewrite Hcat at 1|].
      split; [by constructor|done].
    + apply Nat.leb_gt in Hfull.
      destruct (IH (g0 ++ [sentence])) as (Hcat & Hall & Hlast);
        [right; by exists g0, sentence|].
      split; [by rewrite <- Hcat, <- app_assoc|done].
Qed.

Lemma split_chunks_accumulates sentences g0 :
  (forall k, k < length sentences ->
     Str.len (pack (g0 ++ take k sentences)) < chunk_length) ->
  (split_chunks sentences g0).1 = [].
Proof.
  revert g0. induction sentences as [|sentence rest IH]; intros g0 Hunder; simpl; [done|].
  pose proof (Hunder 0 ltac:(simpl; lia)) as H0. simpl in H0. rewrite app_nil_r in H0.
  apply Nat.leb_gt in H0. rewrite H0. apply IH.
  intros k Hk. rewrite <- app_assoc. apply (Hunder (S k)). simpl. lia.
Qed.


(** C2, as the code has it. A text of at most 5000 characters goes upstream
    whole, in one call. For a longer text the non-empty sentences fall, in
    their original order, into the groups [sent], each followed by one
    further sentence, and a group [last] at the end. A group was under 3000
    characters before its last sentence was appended, and every group of
    [sent] has reached 3000 characters; when every proper prefix of the
    sentences stays under 3000 characters there is no group but [last].
    The upstream calls are exactly these groups, in order, each as a chunk
    of its sentences followed by line breaks, [last] among them whenever it
    holds a sentence, up to the first call that fails, whose exception is
    the outcome; when no call fails, all of them are made and the result is
    the concatenation of the translations in call order. *)
Theorem translate_text_chunks
    (E : Env) (text destination_language : string) (w : World) :
  let r := (translate_text E text destination_language w).1 in
  let w' := (translate_text E text destination_language w).2 in
  (Str.len text <= max_text_length ->
     trace w' = trace w ++ [EvTranslate destination_language text]
     /\ r = google_translator E destination_language text)
  /\ (max_text_length < Str.len text ->
      exists (sent : list (list string * string)) (last : list string),
        nonempty_sentences E text
        = concat ((fun p => p.1 ++ [p.2]) <$> sent) ++ last
        /\ Forall (fun p => under_until_last p.1 /\ chunk_length <= Str.len (pack p.1)) sent
        /\ (last = [] \/ under_until_last last)
        /\ ((forall k, k < length (nonempty_sentences E text) ->
               Str.len (pack (take k (nonempty_sentences E text))) < chunk_length) ->
            sent = [])
        /\ let groups := sent.*1 ++ (if decide (last = []) then [] else [last]) in
           exists n,
             n <= length groups
             /\ trace w'
                = trace w
                  ++ ((fun g => EvTranslate destination_language (pack g)) <$> take n groups)
             /\ match r with
                | Ok t =>
                    n = length groups
                    /\ exists ts,
                         Forall2
                           (fun g u =>
                              google_translator E destination_language (pack g) = Ok u)
                           groups ts
                         /\ t = concat_strings ts
                | Raise e =>
                    0 < n
                    /\ (exists g, groups !! (n - 1) = Some g
                                  /\ google_translator E destination_language (pack g)
                                     = Raise e)
                    /\ Forall
                         (fun g => exists u,
                            google_translator E destination_language (pack g) = Ok u)
                         (take (n - 1) groups)
                end).
Proof.
  simpl. split.
  - unfold translate_text. intros Hshort%Nat.leb_le. by rewrite Hshort, translate_run.
  - intros Hlong%Nat.leb_gt.
    pose proof (split_chunks_partition (nonempty_sentences E text) [] ltac:(by left))
      as (Hcat & Hall & Hlast).
    pose proof (split_chunks_accumulates (nonempty_sentences E text) []) as Hnone.
    pose proof (translate_sentences_split E destination_language
                  (Str.split Str.newline (str_lstrip E text)) [] EmptyString w)
      as (n & Hn & Htrace & Hres).
    simpl in Hcat, Hres, Htrace, Hn. fold (nonempty_sentences E text) in Hres, Htrace, Hn.
    destruct (split_chunks (nonempty_sentences E text) []) as [sent last].
    simpl in *. exists sent, last.
    split; [done|]. split; [done|]. split; [done|]. split; [done|].
    assert (Hlen : length sent.*1 = length sent) by apply length_fmap.
    unfold translate_text. rewrite Hlong.
    destruct (translate_sentences E destination_language
                (Str.split Str.newline (str_lstrip E text)) EmptyString EmptyString w)
      as [[[chunk translated]|e] w1] eqn:Hloop; simpl in *.
    + destruct Hres as (-> & -> & ts & Hts & ->).
      rewrite firstn_all2 in Htrace by lia.
      rewrite (bind_Ok_eq _ _ _ _ _ Hloop).
      destruct (decide (pack last = EmptyString)) as [Hempty|Hfilled].
      * apply pack_empty in Hempty as ->. simpl. rewrite app_nil_r.
        exists (length sent). split; [lia|].
        split; [by rewrite firstn_all2 by lia|]. split; [lia|]. by exists ts.
      * assert (Hne : last <> []) by (intros ->; by apply Hfilled).
        destruct (decide (last = [])) as [|_]; [done|].
        exists (S (length sent)). rewrite length_app. simpl.
        split; [lia|].
        rewrite firstn_all2 by (rewrite length_app; simpl; lia).
        unfold bind. rewrite translate_run.
        destruct (google_translator E destination_language (pack last)) as [u|e] eqn:Hu;
          simpl.
        -- split; [by rewrite Htrace, fmap_app, app_assoc|]. split; [lia|].
           exists (ts ++ [u]). split; [apply Forall2_app; [done|by constructor]|].
           by rewrite concat_strings_snoc.
        -- split; [by rewrite Htrace, fmap_app, app_assoc|]. split; [lia|].
           rewrite Nat.sub_0_r. split.
           ++ exists last. split; [|done].
              rewrite lookup_app_r by lia. by rewrite Hlen, Nat.sub_diag.
           ++ rewrite take_app_le by lia. rewrite firstn_all2 by lia.
              eapply Forall2_Forall_l; [exact Hts|].
              apply Forall_true. intros u g Hg. by exists u.
    + rewrite (bind_Raise_eq _ _ _ _ _ Hloop). simpl.
      destruct Hres as (Hpos & (g & Hg & Hfail) & Hbefore).
      exists n. rewrite length_app. split; [lia|].
      rewrite take_app_le by lia. split; [done|]. split; [done|].
      split.
      * exists g. split; [|done]. rewrite lookup_app_l; [done|lia].
      * by rewrite take_app_le by lia.
Qed.

Lemma translate_text_chunks_witness :
  (Str.len "bonjour" <= max_text_length
   /\ trace (translate_text Demo.env "bonjour" "en" Demo.w0).2
      = trace Demo.w0 ++ [EvTranslate "en" "bonjour"])
  /\ (max_text_length < Str.len Demo.three_sentences
      /\ exists sent last,
           nonempty_sentences Demo.env Demo.three_sentences
           = concat ((fun p => p.1 ++ [p.2]) <$> sent) ++ last
           /\ Forall (fun p => under_until_last p.1 /\ chunk_length <= Str.len (pack p.1))
                sent
           /\ (last = [] \/ under_until_last last)
           /\ exists n,
                n <= length (sent.*1 ++ (if decide (last = []) then [] else [last]))
                /\ trace (translate_text Demo.env Demo.three_sentences "en" Demo.w0).2
                   = trace Demo.w0
                     ++ ((fun g => EvTranslate "en" (pack g))
                           <$> take n (sent.*1 ++ (if decide (last = []) then [] else [last])))).
Proof.
  assert (Hshort : Str.len "bonjour" <= max_text_length)
    by (apply Nat.leb_le; vm_compute; reflexivity).
  assert (Hlong : max_text_length < Str.len Demo.three_sentences)
    by (apply Nat.ltb_lt; vm_compute; reflexivity).
  split.
  - split; [exact Hshort|].
    exact (proj1 (proj1 (translate_text_chunks Demo.env "bonjour" "en" Demo.w0) Hshort)).
  - split; [exact Hlong|].
    destruct (proj2 (translate_text_chunks Demo.env Demo.three_sentences "en" Demo.w0)
                Hlong) as (sent & last & Hcat & Hall & Hlast & _ & n & Hn & Htrace & _).
    exists sent, last. split; [exact Hcat|]. split; [exact Hall|].
    split; [exact Hlast|]. exists n. split; [exact Hn|exact Htrace].
Defined.

(** C2, as claimed, fails: two sentences of 2000 and 1600 letters followed
    by blank lines make a text over the cap of 5000 characters; both fit the
    chunk, which was under 3000 characters when the second arrived, no
    sentence is left out, and the single upstream call receives 3602
    characters. *)
Lemma translate_text_call_exceeds_chunk_length :
  max_text_length < Str.len Demo.two_sentences_and_blank_lines
  /\ nonempty_sentences Demo.env Demo.two_sentences_and_blank_lines
     = [Str.replicate_char 2000 "a"%char; Str.replicate_char 1600 "b"%char]
  /\ exists chunk,
       upstream_calls
         (trace (translate_text Demo.env Demo.two_sentences_and_blank_lines "en" Demo.w0).2)
       = [chunk]
       /\ chunk = pack [Str.replicate_char 2000 "a"%char; Str.replicate_char 1600 "b"%char]
       /\ Str.len chunk = 2001 + 1601
       /\ chunk_length < Str.len chunk
       /\ Str.len chunk <= max_text_length.
Proof.
  split; [apply Nat.ltb_lt; vm_compute; reflexivity|].
  split; [vm_compute; reflexivity|].
  eexists. split; [vm_compute; reflexivity|].
  split; [vm_compute; reflexivity|].
  split; [vm_compute; reflexivity|].
  split; [apply Nat.ltb_lt; vm_compute; reflexivity|apply Nat.leb_le; vm_compute; reflexivity].
Qed.

(** The sentence that arrives when the chunk has reached 3000 characters
    is neither sent nor kept: of three sentences the second never goes
    upstream. *)
Example translate_text_drops_sentence :
  upstream_calls (trace (translate_text Demo.env Demo.three_sentences "en" Demo.w0).2)
  = [pack [Str.replicate_char 2999 "a"%char]; pack ["fin"]]
  /\ nonempty_sentences Demo.env Demo.three_sentences
     = [Str.replicate_char 2999 "a"%char; Str.replicate_char 2500 "b"%char; "fin"].
Proof. split; vm_compute; reflexivity. Qed.


(** ** Ids of the stored snippets *)

Section Ids.

Context (E : Env).

Lemma stamps_keeps {A} (m : M A) :
  keeps clock_reads m ->
  keeps (fun w => submitted_ids (trace w)) m ->
  keeps vector_store m ->
  stamps E m.
Proof.
  intros Hclock Hids Hstore w. exists 0. unfold readings, stored_ids. simpl.
  rewrite Hclock, Hids, Hstore, !app_nil_r. split; [lia|]. done.
Qed.

Lemma readings_app from n1 n2 :
  readings E from (n1 + n2) = readings E from n1 ++ readings E (from + n1) n2.
Proof. unfold readings. by rewrite seq_app, fmap_app. Qed.

Lemma stamps_bind {A B} (m : M A) (k : A -> M B) :
  stamps E m -> (forall a, stamps E (k a)) -> stamps E (bind m k).
Proof.
  intros Hm Hk w. destruct (Hm w) as (n1 & Hclock1 & Hids1 & Hdup1 & Hfresh1).
  unfold bind. destruct (m w) as [[a|e] w1]; simpl in *; [|by exists n1].
  destruct (Hk a w1) as (n2 & Hclock2 & Hids2 & Hdup2 & Hfresh2).
  exists (n1 + n2). rewrite readings_app, <- Hclock1.
  split; [lia|]. split; [by rewrite Hids2, Hids1, <- app_assoc|].
  split; [auto|]. intros Hnodup. rewrite app_assoc in Hnodup.
  assert (H1 : NoDup (stored_ids w ++ readings E (clock_reads w) n1))
    by (by apply NoDup_app in Hnodup as [? _]).
  rewrite app_assoc. rewrite <- (Hfresh1 H1) in *. by apply Hfresh2.
Qed.

(** One record: a reading of the clock, then the [add] under that id. *)
Lemma stamps_add skill e :
  stamps E (let! id := time_time_str E in collection_add skill e id).
Proof.
  intros w. exists 1. unfold readings, stored_ids, bind, collection_add, bind. simpl.
  destruct (decide (time_time E (clock_reads w) ∈ snippet_id <$> vector_store w))
    as [Hin|Hfresh]; simpl.
  - split; [lia|]. split; [unfold submitted_ids; by rewrite omap_app|].
    split; [done|]. intros Hnodup. apply NoDup_app in Hnodup as (_ & Hdisjoint & _).
    destruct (Hdisjoint _ Hin). by left.
  - split; [lia|]. split; [unfold submitted_ids; by rewrite omap_app|].
    rewrite fmap_app. simpl. split; [|done].
    intros Hnodup. apply NoDup_app. split; [done|]. split; [|apply NoDup_singleton].
    intros id Hid ->%list_elem_of_singleton. done.
Qed.

Lemma stamps_ext {A} (m m' : M A) :
  (forall w, m w = m' w) -> stamps E m -> stamps E m'.
Proof. intros Heq Hm w. rewrite <- Heq. apply Hm. Qed.

Lemma add_skills_stamps skills e : stamps E (add_skills E skills e).
Proof.
  induction skills as [|skill rest IH]; simpl.
  - apply stamps_keeps; by intros w.
  - apply (stamps_ext
             (let! _ := (let! id := time_time_str E in collection_add skill e id) in
              add_skills E rest e)).
    + intros w. unfold bind, collection_add, bind. simpl. by destruct (decide _).
    + apply stamps_bind; [apply stamps_add|done].
Qed.

Lemma translate_text_stamps text lang : stamps E (translate_text E text lang).
Proof.
  apply stamps_keeps; apply translate_text_keeps; try by intros.
  intros ev _ Hadd w. unfold submitted_ids. simpl. rewrite omap_app. simpl.
  destruct ev; try by rewrite app_nil_r. by destruct (Hadd id doc email).
Qed.

Lemma populate_loop_stamps nlp expert_skills i expert_emails_ :
  stamps E (populate_loop E nlp expert_skills i expert_emails_).
Proof.
  revert i. induction expert_emails_ as [|e rest IH]; intros i; simpl.
  - apply stamps_keeps; by intros w.
  - apply stamps_bind.
    { unfold list_get. destruct (expert_skills !! i); apply stamps_keeps; by intros w. }
    intros skills_i. apply stamps_bind; [apply translate_text_stamps|].
    intros translated. apply stamps_bind; [apply stamps_keeps; by intros w|].
    intros stored. apply stamps_bind; [|intros _; apply IH].
    destruct (decide _); [apply add_skills_stamps|apply stamps_keeps; by intros w].
Qed.

End Ids.

(** C9, as the code has it. Every record that populate-or-update submits
    carries as its id the string of a reading of the clock taken for that
    record, one reading per record, in order: the ids submitted are a run of
    consecutive readings. The collection never comes to hold one id twice;
    and when the readings differ from one another and from the ids already
    stored, every record is stored under its reading. Two ids are therefore
    distinct exactly when the two readings print differently. *)
Theorem populate_ids_are_clock_readings
    (E : Env) (nlp : Language) (expert_skills expert_emails_ : list string) (w : World) :
  let after :=
    (populate_or_update_expert_recommendation_vector_store E nlp
       expert_skills expert_emails_ w).2 in
  exists n,
    clock_reads after = clock_reads w + n
    /\ submitted_ids (trace after)
       = submitted_ids (trace w) ++ readings E (clock_reads w) n
    /\ (NoDup (stored_ids w) -> NoDup (stored_ids after))
    /\ (NoDup (stored_ids w ++ readings E (clock_reads w) n) ->
        stored_ids after = stored_ids w ++ readings E (clock_reads w) n).
Proof. apply populate_loop_stamps. Qed.

Lemma populate_ids_are_clock_readings_witness :
  let after :=
    (populate_or_update_expert_recommendation_vector_store Demo.env Demo.nlp
       ["Nurse. Surgeon"] ["ana@example.org"] Demo.w0).2 in
  NoDup (stored_ids Demo.w0)
  /\ NoDup (stored_ids after)
  /\ stored_ids after = [Demo.tally 0; Demo.tally 1].
Proof.
  destruct (populate_ids_are_clock_readings Demo.env Demo.nlp
              ["Nurse. Surgeon"] ["ana@example.org"] Demo.w0)
    as (n & _ & _ & Hdup & _).
  split; [constructor|]. split; [apply Hdup; constructor|].
  vm_compute. reflexivity.
Defined.

(** C9, as claimed, fails: under a clock that gives the same reading twice
    the two sentences of one owner are submitted under one id, and the
    second is not stored. *)
Lemma add_expert_same_id_twice :
  let after :=
    (populate_or_update_expert_recommendation_vector_store Demo.frozen_clock Demo.nlp
       ["Nurse. Surgeon"] ["ana@example.org"] Demo.w0).2 in
  trace after
  = [EvTranslate "en" "Nurse. Surgeon";
     EvAdd "1700000000.25" "Nurse" "ana@example.org";
     EvAdd "1700000000.25" " Surgeon" "ana@example.org"]
  /\ ~ NoDup (submitted_ids (trace after))
  /\ document <$> vector_store after = ["Nurse"].
Proof.
  split; [vm_compute; reflexivity|]. split; [|vm_compute; reflexivity].
  intros Hnodup. vm_compute in Hnodup.
  apply NoDup_cons in Hnodup as [Hnotin _]. apply Hnotin. by left.
Qed.

(** ** Replacing the snippets of an owner *)

Lemma add_skills_cons E skill rest e w :
  add_skills E (skill :: rest) e w
  = add_skills E rest e
      (collection_add skill e (time_time E (clock_reads w)) (time_time_str E w).2).2.
Proof. simpl. unfold bind, collection_add, bind. simpl. by destruct (decide _). Qed.

(** The records [add_skills] appends belong to the owner and hold sentences
    of the text. *)
Lemma add_skills_appends E skills e w :
  exists added,
    vector_store (add_skills E skills e w).2 = vector_store w ++ added
    /\ Forall (fun s => expert_email s = e /\ document s ∈ skills) added.
Proof.
  revert w. induction skills as [|skill rest IH]; intros w.
  - exists []. simpl. by rewrite app_nil_r.
  - rewrite add_skills_cons.
    destruct (IH (collection_add skill e (time_time E (clock_reads w))
                    (time_time_str E w).2).2) as (added & Hstore & Hadded).
    assert (Hweaken : Forall (fun s => expert_email s = e /\ document s ∈ skill :: rest) added).
    { eapply Forall_impl; [exact Hadded|]. intros s [? ?]. split; [done|by right]. }
    rewrite Hstore. unfold collection_add, bind. simpl.
    destruct (decide _); simpl.
    + by exists added.
    + eexists (_ :: added). rewrite <- app_assoc. simpl.
      split; [reflexivity|]. constructor; [|done]. simpl. split; [done|by left].
Qed.

(** C5. [update] is [delete] for the owner followed by populate for that
    owner alone. When it returns, every snippet the collection holds for
    the owner is a sentence of the translated new skills, so no query
    returns anything else for that owner; the snippets of the other owners
    are those that were there before. *)
Theorem update_expert_replaces_owner_snippets
    (E : Env) (expert_skills expert_email_ : string) (w w' : World) :
  update_expert_in_vector_store E expert_skills expert_email_ w = (Ok tt, w') ->
  update_expert_in_vector_store E expert_skills expert_email_ w
  = (let! _ := delete_expert_from_vector_store expert_email_ in
     populate_or_update_expert_recommendation_vector_store E (nlp_en E)
       [expert_skills] [expert_email_]) w
  /\ exists translated w1,
       translate_text E expert_skills "en"
         (delete_expert_from_vector_store expert_email_ w).2 = (Ok translated, w1)
       /\ Forall (fun s => expert_email s = expert_email_ ->
                           document s ∈ sents (nlp_en E) translated)
            (vector_store w')
       /\ (forall query_text n_results,
             Forall (fun p => expert_email p.1 = expert_email_ ->
                              document p.1 ∈ sents (nlp_en E) translated)
               (neighbours E (vector_store w') n_results query_text))
       /\ filter (fun s => expert_email s <> expert_email_) (vector_store w')
          = filter (fun s => expert_email s <> expert_email_) (vector_store w).
Proof.
  intros Hrun. split; [done|].
  unfold update_expert_in_vector_store,
    populate_or_update_expert_recommendation_vector_store in Hrun.
  apply bind_Ok_inv in Hrun as ([] & w0 & Hdelete & Hrun).
  assert (w0 = (delete_expert_from_vector_store expert_email_ w).2) as Hw0
    by (by rewrite Hdelete).
  simpl in Hrun.
  apply bind_Ok_inv in Hrun as (skills_i & w0' & [= <- <-] & Hrun).
  apply bind_Ok_inv in Hrun as (translated & w1 & Htranslate & Hrun).
  apply bind_Ok_inv in Hrun as (stored & w1' & [= <- <-] & Hrun).
  apply bind_Ok_inv in Hrun as ([] & w2 & Hadd & [= ->]).
  exists translated, w1. rewrite <- Hw0. split; [done|].
  assert (Hstore0 : vector_store w0
                    = filter (fun s => expert_email s <> expert_email_) (vector_store w)).
  { injection Hdelete as <-. done. }
  assert (Hstore1 : vector_store w1 = vector_store w0).
  { pose proof (translate_text_keeps E vector_store) as Hkeep.
    specialize (Hkeep ltac:(by intros) expert_skills "en" w0).
    by rewrite Htranslate in Hkeep. }
  assert (Hnone : filter (fun s => expert_email s = expert_email_) (vector_store w1) = []).
  { rewrite Hstore1, Hstore0. apply elem_of_nil_inv.
    intros s [Heq [Hne _]%list_elem_of_filter]%list_elem_of_filter. done. }
  rewrite Hnone in Hadd. rewrite decide_True in Hadd by (by left).
  destruct (add_skills_appends E (sents (nlp_en E) translated) expert_email_ w1)
    as (added & Hstore2 & Hadded).
  rewrite Hadd in Hstore2. simpl in Hstore2.
  assert (Hall : Forall (fun s => expert_email s = expert_email_ ->
                                  document s ∈ sents (nlp_en E) translated)
                   (vector_store w')).
  { rewrite Hstore2. apply Forall_app. split.
    - rewrite Hstore1, Hstore0. apply Forall_forall.
      intros s [Hne _]%list_elem_of_filter Heq. done.
    - eapply Forall_impl; [exact Hadded|]. by intros s [_ ?] _. }
  split; [done|]. split.
  - intros q n. apply Forall_forall. intros p Hp%neighbours_in_store.
    by apply (proj1 (Forall_forall _ _) Hall).
  - rewrite Hstore2, filter_app, Hstore1, Hstore0.
    assert (filter (fun s => expert_email s <> expert_email_) added = []) as ->.
    { apply elem_of_nil_inv. intros s [Hne Hs]%list_elem_of_filter.
      by destruct (proj1 (Forall_forall _ _) Hadded s Hs). }
    rewrite app_nil_r. clear.
    induction (vector_store w) as [|s store IH]; [done|].
    rewrite (filter_cons _ s store).
    destruct (decide (expert_email s <> expert_email_)); [|exact IH].
    rewrite filter_cons_True by done. by rewrite IH.
Qed.

Lemma update_expert_replaces_owner_snippets_witness :
  let w := (add_expert_to_vector_store Demo.env "Nurse. Surgeon" "ana@example.org"
              Demo.w0).2 in
  exists w',
    update_expert_in_vector_store Demo.env "Pilot" "ana@example.org" w = (Ok tt, w')
    /\ document <$> vector_store w = ["Nurse"; " Surgeon"]
    /\ document <$> vector_store w' = ["Pilot"]
    /\ filter (fun s => expert_email s <> "ana@example.org") (vector_store w')
       = filter (fun s => expert_email s <> "ana@example.org") (vector_store w).
Proof.
  intros w. eexists. split; [vm_compute; reflexivity|].
  split; [vm_compute; reflexivity|]. split; [vm_compute; reflexivity|].
  edestruct (update_expert_replaces_owner_snippets Demo.env "Pilot"
               "ana@example.org" w) as (_ & translated & w1 & _ & _ & _ & Hothers);
    [vm_compute; reflexivity|].
  exact Hothers.
Defined.


(** ** Expert recommendation *)

Lemma scan_neighbours_pairs found i pre nb entry w :
  distances found !! i = Some ((pre ++ nb).*2) ->
  scan_neighbours found i (length pre) (nb.*1) entry w = (Ok (scan_pairs nb entry), w).
Proof.
  revert pre entry.
  induction nb as [|p rest IH]; intros pre entry Hds; simpl; [done|].
  assert (Hd : (pre ++ p :: rest).*2 !! length pre = Some p.2).
  { by rewrite list_lookup_fmap, list_lookup_middle. }
  assert (Hstep : (if decide (p.1 ∉ expert_emails entry)
                   then let! distances_i := list_get (distances found) i in
                        let! distance := list_get distances_i (length pre) in
                        if Qle_bool distance (1 # 2)
                        then ret {| expert_emails := expert_emails entry ++ [p.1];
                                    scores := scores entry ++ [distance] |}
                        else ret entry
                   else ret entry) w = (Ok (consider p entry), w)).
  { unfold consider. destruct (decide _); [|reflexivity].
    unfold bind, list_get. rewrite Hds. simpl. rewrite Hd. simpl.
    destruct (Qle_bool p.2 (1 # 2)); reflexivity. }
  rewrite (bind_Ok_eq _ _ _ _ _ Hstep).
  destruct (decide (length (expert_emails (consider p entry)) = 5)); [reflexivity|].
  specialize (IH (pre ++ [p]) (consider p entry)).
  rewrite length_app, <- app_assoc in IH. simpl in IH.
  rewrite Nat.add_1_r in IH. by apply IH.
Qed.

Lemma consider_emails p entry :
  expert_emails (consider p entry) = expert_emails entry
  \/ ((p.1 ∉ expert_emails entry) /\ Qle_bool p.2 (1 # 2) = true
      /\ consider p entry = {| expert_emails := expert_emails entry ++ [p.1];
                               scores := scores entry ++ [p.2] |}).
Proof.
  unfold consider. destruct (decide _); [|by left].
  destruct (Qle_bool p.2 (1 # 2)); [by right|by left].
Qed.

Lemma consider_unchanged p entry :
  expert_emails (consider p entry) = expert_emails entry -> consider p entry = entry.
Proof.
  unfold consider. destruct (decide _); [|done].
  destruct (Qle_bool p.2 (1 # 2)); [|done]. simpl. intros Heq.
  apply (f_equal length) in Heq. rewrite length_app in Heq. simpl in Heq. lia.
Qed.

(** What the scan keeps. *)
Lemma scan_pairs_kept nb entry :
  length (expert_emails entry) < 5 ->
  NoDup (expert_emails entry) ->
  exists kept,
    kept `sublist_of` nb
    /\ expert_emails (scan_pairs nb entry) = expert_emails entry ++ kept.*1
    /\ scores (scan_pairs nb entry) = scores entry ++ kept.*2
    /\ length (expert_emails (scan_pairs nb entry)) <= 5
    /\ NoDup (expert_emails (scan_pairs nb entry))
    /\ Forall (fun p => Qle_bool p.2 (1 # 2) = true) kept
    /\ (StronglySorted by_distance nb ->
        forall p, p ∈ kept ->
          (p.1 ∉ expert_emails entry)
          /\ exists j, list_find (fun x => x.1 = p.1) nb = Some (j, p)).
Proof.
  revert entry. induction nb as [|p0 rest IH]; intros entry Hlen Hnodup; simpl.
  - exists []. rewrite !app_nil_r. do 3 (split; [done|]). split; [lia|].
    do 2 (split; [done|]). intros _ p Hp. by apply elem_of_nil in Hp.
  - destruct (consider_emails p0 entry) as [Hsame|(Hnew & Hclose & Hadd)].
    + apply consider_unchanged in Hsame as Hentry. rewrite Hentry.
      rewrite decide_False by lia.
      destruct (IH entry Hlen Hnodup)
        as (kept & Hsub & Hemails & Hscores & Hfive & Hnd & Hall & Hfirst).
      exists kept. split; [by apply sublist_cons|]. do 5 (split; [done|]).
      intros Hsorted p Hp. apply StronglySorted_inv in Hsorted as [Hsorted Hhead].
      destruct (Hfirst Hsorted p Hp) as [Hnotin [j Hfind]]. split; [done|].
      destruct (decide (p0.1 = p.1)) as [Heq|Hne]; [|by exists (S j); rewrite Hfind].
      exfalso. unfold consider in Hentry.
      destruct (decide (p0.1 ∉ expert_emails entry)) as [Hfresh|Hold].
      * destruct (Qle_bool p0.2 (1 # 2)) eqn:Hfar.
        { apply (f_equal (length ∘ expert_emails)) in Hentry. simpl in Hentry.
          rewrite length_app in Hentry. simpl in Hentry. lia. }
        assert (Hp_rest : p ∈ rest) by (by eapply elem_of_sublist).
        pose proof (proj1 (Forall_forall _ _) Hhead p Hp_rest) as Hle.
        pose proof (proj1 (Forall_forall _ _) Hall p Hp) as Hpclose.
        apply Qle_bool_iff in Hpclose.
        assert (Hcontra : Qle_bool p0.2 (1 # 2) = true)
          by (apply Qle_bool_iff; eapply Qle_trans; [exact Hle|exact Hpclose]).
        congruence.
      * apply Hold. by rewrite Heq.
    + rewrite Hadd. simpl.
      assert (Hnodup1 : NoDup (expert_emails entry ++ [p0.1])).
      { apply NoDup_app. split; [done|]. split; [|apply NoDup_singleton].
        intros e He ->%list_elem_of_singleton. done. }
      destruct (decide (length (expert_emails entry ++ [p0.1]) = 5)) as [Hfull|Hmore].
      * exists [p0]. split; [apply sublist_skip, sublist_nil_l|]. simpl.
        split; [done|]. split; [done|]. split; [lia|]. split; [done|].
        split; [by constructor|].
        intros _ p ->%list_elem_of_singleton. split; [done|].
        exists 0. by rewrite decide_True.
      * rewrite length_app in Hmore. simpl in Hmore.
        destruct (IH {| expert_emails := expert_emails entry ++ [p0.1];
                        scores := scores entry ++ [p0.2] |})
          as (kept & Hsub & Hemails & Hscores & Hfive & Hnd & Hall & Hfirst);
          [simpl; rewrite length_app; simpl; lia|done|].
        simpl in *. exists (p0 :: kept). split; [by apply sublist_skip|].
        split; [rewrite Hemails; simpl; by rewrite <- app_assoc|].
        split; [rewrite Hscores; simpl; by rewrite <- app_assoc|].
        split; [done|]. split; [done|]. split; [by constructor|].
        intros Hsorted p [->|Hp]%elem_of_cons.
        { split; [done|]. exists 0. by rewrite decide_True. }
        apply StronglySorted_inv in Hsorted as [Hsorted _].
        destruct (Hfirst Hsorted p Hp) as [Hnotin [j Hfind]].
        apply not_elem_of_app in Hnotin as [Hnotin Hne].
        split; [done|]. exists (S j).
        rewrite decide_False by (intros Heq; apply Hne; rewrite <- Heq; by left).
        by rewrite Hfind.
Qed.

Lemma closer_transitive : Transitive closer.
Proof. intros a b c. unfold closer. apply Qle_trans. Qed.

Lemma closer_total : Total closer.
Proof.
  intros a b. unfold closer.
  destruct (Qlt_le_dec a.2 b.2) as [Hlt|Hle]; [left; by apply Qlt_le_weak|by right].
Qed.

(** The collection answers closest first. *)
Lemma owner_distances_sorted E store n_results query_text :
  StronglySorted by_distance (owner_distances E store n_results query_text).
Proof.
  unfold owner_distances, neighbours.
  apply (StronglySorted_fmap _ closer); [by intros x y|].
  eapply (StronglySorted_app_1_l closer _ (drop n_results _)).
  rewrite take_drop.
  apply (@StronglySorted_merge_sort _ closer _ closer_transitive closer_total).
Qed.

Lemma collection_query_lookup E query_texts n_results w found pre query_text rest :
  collection_query E query_texts n_results w = (Ok found, w) ->
  query_texts = pre ++ query_text :: rest ->
  metadatas found !! length pre
  = Some ((owner_distances E (vector_store w) n_results query_text).*1)
  /\ distances found !! length pre
     = Some ((owner_distances E (vector_store w) n_results query_text).*2).
Proof.
  intros [= <-] ->. simpl. unfold owner_distances.
  rewrite !list_lookup_fmap, !list_lookup_middle by done. simpl.
  split; f_equal; by rewrite <- list_fmap_compose.
Qed.

Lemma scan_pairs_top_five E store key generic_profile :
  google_translator E "fr" generic_profile = Ok key ->
  top_five E store key
    (scan_pairs (owner_distances E store 20 generic_profile)
       {| expert_emails := []; scores := [] |}).
Proof.
  intros Hkey.
  destruct (scan_pairs_kept (owner_distances E store 20 generic_profile)
              {| expert_emails := []; scores := [] |})
    as (kept & Hsub & Hemails & Hscores & Hfive & Hnd & Hall & Hfirst);
    [simpl; lia|constructor|].
  simpl in Hemails, Hscores. unfold top_five. rewrite Hemails, Hscores in *.
  split; [done|]. split; [done|]. split; [by rewrite !length_fmap|].
  split.
  { apply Forall_fmap. eapply Forall_impl; [exact Hall|].
    intros p Hp. by apply Qle_bool_iff. }
  exists generic_profile. rewrite zip_fst_snd. split; [done|]. split; [done|].
  intros p Hp. by apply (Hfirst (owner_distances_sorted _ _ _ _)).
Qed.

Lemma recommendation_loop_top_five E found store w0 all_profiles pre generic_profiles
    response w response' w' :
  collection_query E all_profiles 20 w0 = (Ok found, w0) ->
  vector_store w0 = store ->
  all_profiles = pre ++ generic_profiles ->
  (forall key entry, response !! key = Some entry -> top_five E store key entry) ->
  recommendation_loop E found (length pre) generic_profiles response w = (Ok response', w') ->
  forall key entry, response' !! key = Some entry -> top_five E store key entry.
Proof.
  intros Hquery Hstore. revert pre response w.
  induction generic_profiles as [|gp rest IH]; intros pre response w Hall Hresponse; simpl.
  - by intros [= <- <-].
  - intros (key & w1 & Htranslate & Hrun)%bind_Ok_inv.
    apply bind_Ok_inv in Hrun as (metadatas_i & w1' & Hmetadatas & Hrun).
    apply bind_Ok_inv in Hrun as (entry & w2 & Hscan & Hrun).
    destruct (collection_query_lookup E all_profiles 20 w0 found pre gp rest Hquery Hall)
      as [Hm Hd].
    rewrite Hstore in Hm, Hd.
    unfold list_get in Hmetadatas. rewrite Hm in Hmetadatas.
    injection Hmetadatas as <- <-.
    rewrite (scan_neighbours_pairs found (length pre) [] _ _ w1 Hd) in Hscan.
    injection Hscan as <- <-.
    rewrite translate_run in Htranslate. injection Htranslate as Hkey _.
    replace (S (length pre)) with (length (pre ++ [gp])) in Hrun
      by (rewrite length_app; simpl; lia).
    eapply (IH (pre ++ [gp]) _ w1); [by rewrite <- app_assoc| |exact Hrun].
    intros key' entry' [[<- <-]|[_ Hold]]%lookup_insert_Some.
    + by apply scan_pairs_top_five.
    + by apply Hresponse.
Qed.

(** C4. In the mapping [recommend] returns, the entry of every generic
    profile holds at most 5 owners, no owner twice, one score per owner,
    every score at most 0.5; owners and scores are taken from the
    neighbours the collection returned for that profile, closest first, in
    that order, and the score of an owner is that of the first neighbour
    with this owner. An entry can hold fewer than 5 owners, or none. *)
Theorem get_experts_recommendation_top_five
    (E : Env) (question : string) (w : World)
    (response_ : gmap string Experts) (w' : World) :
  get_experts_recommendation E question w = (Ok response_, w') ->
  forall key entry,
    response_ !! key = Some entry ->
    length (expert_emails entry) <= 5
    /\ NoDup (expert_emails entry)
    /\ length (scores entry) = length (expert_emails entry)
    /\ Forall (fun d => (d <= 1 # 2)%Q) (scores entry)
    /\ exists generic_profile,
         google_translator E "fr" generic_profile = Ok key
         /\ StronglySorted by_distance
              (owner_distances E (vector_store w) 20 generic_profile)
         /\ zip (expert_emails entry) (scores entry)
            `sublist_of` owner_distances E (vector_store w) 20 generic_profile
         /\ forall p, p ∈ zip (expert_emails entry) (scores entry) ->
              exists j,
                list_find (fun x => x.1 = p.1)
                  (owner_distances E (vector_store w) 20 generic_profile)
                = Some (j, p).
Proof.
  intros Hrun key entry Hentry. unfold get_experts_recommendation in Hrun.
  apply bind_Ok_inv in Hrun as (query & w1 & Htranslate & Hrun).
  apply bind_Ok_inv in Hrun as (generic_profiles & w2 & Hllm & Hrun).
  apply bind_Ok_inv in Hrun as (found & w2' & Hquery & Hrun).
  assert (w2' = w2) as -> by (by injection Hquery).
  assert (Hstore1 : vector_store w1 = vector_store w).
  { pose proof (translate_keeps E vector_store ltac:(by intros) "en" question w) as Hkeep.
    by rewrite Htranslate in Hkeep. }
  assert (Hstore2 : vector_store w2 = vector_store w).
  { pose proof (try_get_llm_expert_recommendation_keeps E vector_store
                  ltac:(by intros) ltac:(by intros)
                  (expert_recommendation_prompt E query)
                  default_max_attempts default_retry_delay w1) as Hkeep.
    rewrite Hllm in Hkeep. simpl in Hkeep. congruence. }
  assert (Hgood : top_five E (vector_store w) key entry).
  { eapply (recommendation_loop_top_five E found (vector_store w) w2 generic_profiles []);
      [exact Hquery|exact Hstore2|done| |exact Hrun|exact Hentry].
    intros key' entry' Hempty. by rewrite lookup_empty in Hempty. }
  destruct Hgood as (H5 & Hnd & Hlen & Hclose & gp & Hkey & Hsub & Hfirst).
  do 4 (split; [done|]). exists gp. split; [done|].
  split; [apply owner_distances_sorted|]. by split.
Qed.

Lemma get_experts_recommendation_top_five_witness :
  let w := (add_expert_to_vector_store Demo.env "surgeon" "ana@example.org" Demo.w0).2 in
  exists response_ w',
    get_experts_recommendation Demo.env "who can operate" w = (Ok response_, w')
    /\ response_ !! "surgeon"
       = Some {| expert_emails := ["ana@example.org"]; scores := [(0 # 1)%Q] |}
    /\ response_ !! "data engineer" = Some {| expert_emails := []; scores := [] |}
    /\ length ["ana@example.org"] <= 5
    /\ NoDup ["ana@example.org"]
    /\ Forall (fun d => (d <= 1 # 2)%Q) [(0 # 1)%Q].
Proof.
  intros w. eexists _, _. split; [vm_compute; reflexivity|].
  split; [vm_compute; reflexivity|]. split; [vm_compute; reflexivity|].
  edestruct (get_experts_recommendation_top_five Demo.env "who can operate" w _ _
               ltac:(vm_compute; reflexivity) "surgeon") as (H5 & Hnd & _ & Hclose & _);
    [vm_compute; reflexivity|].
  split; [exact H5|]. split; [exact Hnd|exact Hclose].
Defined.

(** * Further properties of the worker *)

(** ** The retry loops, for any backend *)

Section RetryAnyBackend.

Context (E : Env).

Lemma expert_recommendation_attempt_fails a rest llm_input retry_delay w out msg :
  ollama E (generated w) llm_input = Ok out ->
  expert_recommendation_parser E out = inl msg ->
  expert_recommendation_attempts E (a :: rest) llm_input retry_delay w
  = expert_recommendation_attempts E rest llm_input retry_delay
      (record_event (EvSleep retry_delay)
         (record_event (EvLog LogError msg) (generate E llm_input w).2)).
Proof.
  intros Hout Hparse. simpl.
  unfold bind at 1, try_except, bind at 1, generate. rewrite Hout.
  unfold bind at 1, parse_profiles. rewrite Hparse. simpl. reflexivity.
Qed.

Lemma expert_recommendation_attempt_parses a rest llm_input retry_delay w out profiles :
  ollama E (generated w) llm_input = Ok out ->
  expert_recommendation_parser E out = inr profiles ->
  expert_recommendation_attempts E (a :: rest) llm_input retry_delay w
  = (Ok profiles, (generate E llm_input w).2).
Proof.
  intros Hout Hparse. simpl.
  unfold bind at 1, try_except, bind at 1, generate. rewrite Hout.
  unfold bind at 1, parse_profiles. rewrite Hparse. simpl. reflexivity.
Qed.

(** The world after [k] failed attempts. *)
Lemma expert_recommendation_attempts_fail attempts llm_input retry_delay w :
  (forall j, j < length attempts ->
     exists out msg,
       ollama E (generated w + j) llm_input = Ok out
       /\ expert_recommendation_parser E out = inl msg) ->
  let r := expert_recommendation_attempts E attempts llm_input retry_delay w in
  r.1 = Raise (Exn Exception "Error occurred when parsing LLM output for generic profiles.")
  /\ generated r.2 = generated w + length attempts
  /\ prompts (trace r.2) = prompts (trace w) ++ replicate (length attempts) llm_input
  /\ sleeps (trace r.2) = sleeps (trace w) ++ replicate (length attempts) retry_delay
  /\ vector_store r.2 = vector_store w.
Proof.
  revert w. induction attempts as [|a rest IH]; intros w Hfail.
  - simpl. rewrite !app_nil_r. repeat split; lia.
  - destruct (Hfail 0 ltac:(simpl; lia)) as (out & msg & Hout & Hparse).
    rewrite Nat.add_0_r in Hout.
    cbv zeta. rewrite (expert_recommendation_attempt_fails _ _ _ _ _ _ _ Hout Hparse).
    match goal with |- context [expert_recommendation_attempts E rest _ _ ?w1] =>
      destruct (IH w1) as (Hr & Hgen & Hprompts & Hsleeps & Hstore) end.
    { intros j Hj. simpl. destruct (Hfail (S j) ltac:(simpl; lia)) as (o & m & Ho & Hm).
      exists o, m. split; [|done].
      rewrite Nat.add_succ_r in Ho. exact Ho. }
    split; [done|]. split; [rewrite Hgen; simpl; lia|].
    split.
    { rewrite Hprompts. unfold prompts. simpl. rewrite !omap_app. simpl.
      by rewrite !app_nil_r, <- app_assoc. }
    split; [|done].
    rewrite Hsleeps. unfold sleeps. simpl. rewrite !omap_app. simpl.
    by rewrite !app_nil_r, <- !app_assoc.
Qed.

End RetryAnyBackend.

Lemma expert_recommendation_attempts_retry (E : Env) pre a rest llm_input retry_delay w
    out profiles :
  (forall j, j < length pre ->
     exists out' msg,
       ollama E (generated w + j) llm_input = Ok out'
       /\ expert_recommendation_parser E out' = inl msg) ->
  ollama E (generated w + length pre) llm_input = Ok out ->
  expert_recommendation_parser E out = inr profiles ->
  let r := expert_recommendation_attempts E (pre ++ a :: rest) llm_input retry_delay w in
  r.1 = Ok profiles
  /\ generated r.2 = generated w + S (length pre)
  /\ prompts (trace r.2) = prompts (trace w) ++ replicate (S (length pre)) llm_input
  /\ sleeps (trace r.2) = sleeps (trace w) ++ replicate (length pre) retry_delay.
Proof.
  revert w. induction pre as [|b pre IH]; intros w Hfail Hout Hparse.
  - simpl in Hout. rewrite Nat.add_0_r in Hout. cbv zeta. simpl app.
    rewrite (expert_recommendation_attempt_parses _ _ _ _ _ _ _ _ Hout Hparse).
    simpl. split; [done|]. split; [lia|].
    unfold prompts, sleeps. rewrite !omap_app. simpl. by rewrite !app_nil_r.
  - destruct (Hfail 0 ltac:(simpl; lia)) as (out0 & msg & Hout0 & Hparse0).
    rewrite Nat.add_0_r in Hout0. cbv zeta. simpl app.
    rewrite (expert_recommendation_attempt_fails _ _ _ _ _ _ _ _ Hout0 Hparse0).
    match goal with |- context [expert_recommendation_attempts E _ _ _ ?w1] =>
      destruct (IH w1) as (Hr & Hgen & Hprompts & Hsleeps) end.
    { intros j Hj. simpl. destruct (Hfail (S j) ltac:(simpl; lia)) as (o & m & Ho & Hm).
      exists o, m. split; [|done]. rewrite Nat.add_succ_r in Ho. exact Ho. }
    { simpl. simpl in Hout. rewrite Nat.add_succ_r in Hout. exact Hout. }
    { done. }
    split; [done|]. split; [rewrite Hgen; simpl; lia|].
    split.
    + rewrite Hprompts. unfold prompts. simpl. rewrite !omap_app. simpl.
      by rewrite !app_nil_r, <- app_assoc.
    + rewrite Hsleeps. unfold sleeps. simpl. rewrite !omap_app. simpl.
      by rewrite !app_nil_r, <- !app_assoc.
Qed.

(** X1. Whatever [max_attempts], a backend whose first [k] outputs fail to
    parse, with [k < max_attempts - 1], and whose next output parses, gets
    that output returned after [k + 1] calls of the model with the same
    prompt and [k] pauses of [retry_delay]. *)
Theorem try_get_llm_expert_recommendation_retries
    (E : Env) (llm_input : string) (max_attempts retry_delay : nat) (w : World)
    (k : nat) (out : string) (profiles : list string) :
  k < max_attempts - 1 ->
  (forall j, j < k ->
     exists out' msg,
       ollama E (generated w + j) llm_input = Ok out'
       /\ expert_recommendation_parser E out' = inl msg) ->
  ollama E (generated w + k) llm_input = Ok out ->
  expert_recommendation_parser E out = inr profiles ->
  let r := try_get_llm_expert_recommendation E llm_input max_attempts retry_delay w in
  r.1 = Ok profiles
  /\ generated r.2 = generated w + S k
  /\ prompts (trace r.2) = prompts (trace w) ++ replicate (S k) llm_input
  /\ sleeps (trace r.2) = sleeps (trace w) ++ replicate k retry_delay.
Proof.
  intros Hk Hfail Hout Hparse. unfold try_get_llm_expert_recommendation.
  assert (Hsplit : exists a rest,
             seq 1 (max_attempts - 1) = seq 1 k ++ a :: rest).
  { replace (max_attempts - 1) with (k + S (max_attempts - 1 - S k)) by lia.
    rewrite seq_app. simpl. by eexists _, _. }
  destruct Hsplit as (a & rest & ->).
  pose proof (expert_recommendation_attempts_retry E (seq 1 k) a rest llm_input
                retry_delay w out profiles) as Hretry.
  rewrite length_seq in Hretry. by apply Hretry.
Qed.

Lemma try_get_llm_expert_recommendation_retries_witness :
  let r := try_get_llm_expert_recommendation Demo.parse_failing_thrice "need" 5 1 Demo.w0 in
  r.1 = Ok ["nurse"; "surgeon"]
  /\ generated r.2 = 0 + 4
  /\ prompts (trace r.2) = [] ++ replicate 4 "need"
  /\ sleeps (trace r.2) = [] ++ replicate 3 1.
Proof.
  apply (try_get_llm_expert_recommendation_retries Demo.parse_failing_thrice
           "need" 5 1 Demo.w0 3 "nurse, surgeon" ["nurse"; "surgeon"]).
  - simpl. lia.
  - intros j Hj. exists "I cannot answer", "Failed to parse Experts".
    destruct j as [|[|[|j]]]; [by vm_compute..|lia].
  - reflexivity.
  - reflexivity.
Defined.

(** X2. Whatever [max_attempts], when the first [max_attempts - 1] outputs
    of the backend all fail to parse, the terminal error is raised after
    exactly [max_attempts - 1] calls and as many pauses, and the collection
    is untouched; with [max_attempts] of 0 or 1 the model is not called at
    all. *)
Theorem try_get_llm_expert_recommendation_gives_up
    (E : Env) (llm_input : string) (max_attempts retry_delay : nat) (w : World) :
  (forall j, j < max_attempts - 1 ->
     exists out msg,
       ollama E (generated w + j) llm_input = Ok out
       /\ expert_recommendation_parser E out = inl msg) ->
  let r := try_get_llm_expert_recommendation E llm_input max_attempts retry_delay w in
  r.1 = Raise (Exn Exception "Error occurred when parsing LLM output for generic profiles.")
  /\ generated r.2 = generated w + (max_attempts - 1)
  /\ prompts (trace r.2) = prompts (trace w) ++ replicate (max_attempts - 1) llm_input
  /\ sleeps (trace r.2) = sleeps (trace w) ++ replicate (max_attempts - 1) retry_delay
  /\ vector_store r.2 = vector_store w.
Proof.
  intros Hfail. unfold try_get_llm_expert_recommendation.
  pose proof (expert_recommendation_attempts_fail E (seq 1 (max_attempts - 1))
                llm_input retry_delay w) as Hall.
  rewrite length_seq in Hall. by apply Hall.
Qed.

Lemma try_get_llm_expert_recommendation_gives_up_witness :
  let r := try_get_llm_expert_recommendation Demo.parse_failing_thrice "need" 3 2 Demo.w0 in
  r.1 = Raise (Exn Exception "Error occurred when parsing LLM output for generic profiles.")
  /\ generated r.2 = 0 + 2
  /\ prompts (trace r.2) = [] ++ replicate 2 "need"
  /\ sleeps (trace r.2) = [] ++ replicate 2 2
  /\ vector_store r.2 = [].
Proof.
  apply (try_get_llm_expert_recommendation_gives_up Demo.parse_failing_thrice
           "need" 3 2 Demo.w0).
  intros j Hj. exists "I cannot answer", "Failed to parse Experts".
  destruct j as [|[|j]]; [by vm_compute..|simpl in Hj; lia].
Defined.

(** ** The keyword parser and what keyword extraction returns *)






Lemma list_index_found (l : list string) x w :
  x ∈ l ->
  exists i, list_index l x w = (Ok i, w)
            /\ list_find (fun y => y = x) l = Some (i, x)
            /\ i < length l.
Proof.
  intros Hx. unfold list_index.
  destruct (list_find_elem_of (fun y => y = x) l x Hx eq_refl) as [[i y] Hfind].
  rewrite Hfind. pose proof Hfind as (Hi & -> & _)%list_find_Some.
  exists i. split; [done|]. split; [done|]. by eapply lookup_lt_Some.
Qed.

Lemma list_index_missing (l : list string) x w :
  x ∉ l ->
  list_index l x w = (Raise (Exn ValueError ("'" +:+ x +:+ "' is not in list")), w).
Proof.
  intros Hx. unfold list_index.
  destruct (list_find (fun y => y = x) l) as [[i y]|] eqn:Hfind; [|done].
  apply list_find_Some in Hfind as (Hi & -> & _).
  destruct Hx. by eapply list_elem_of_lookup_2.
Qed.

(** X5. The back-mapping loop of keyword extraction, the candidates being
    aligned with the model's keywords: when every ranked phrase is one of
    the candidates the loop adds, for each phrase, the upper-cased keyword
    found at the first position of the phrase among the candidates, and
    keeps what the set held; as soon as a ranked phrase is not among the
    candidates it raises [ValueError], so keyword extraction as a whole
    fails. *)
Theorem add_keywords_needs_candidates
    (E : Env) (keybert_keywords candidate_keywords llm_keywords : list string)
    (keywords : gset string) (w : World) :
  length llm_keywords = length candidate_keywords ->
  (Forall (fun k => k ∈ candidate_keywords) keybert_keywords ->
     exists keywords',
       add_keywords E keybert_keywords candidate_keywords llm_keywords keywords w
       = (Ok keywords', w)
       /\ keywords ⊆ keywords'
       /\ forall k, k ∈ keybert_keywords ->
            exists i orig,
              list_find (fun y => y = k) candidate_keywords = Some (i, k)
              /\ llm_keywords !! i = Some orig
              /\ str_upper E orig ∈ keywords')
  /\ (forall pre k rest,
        keybert_keywords = pre ++ k :: rest ->
        Forall (fun k' => k' ∈ candidate_keywords) pre ->
        k ∉ candidate_keywords ->
        add_keywords E keybert_keywords candidate_keywords llm_keywords keywords w
        = (Raise (Exn ValueError ("'" +:+ k +:+ "' is not in list")), w)).
Proof.
  intros Hlen. split.
  - revert keywords.
    induction keybert_keywords as [|kk rest IH]; intros keywords Hall; simpl.
    + exists keywords. split; [done|]. split; [done|].
      intros k Hk. by apply elem_of_nil in Hk.
    + apply Forall_cons in Hall as [Hkk Hall].
      destruct (list_index_found candidate_keywords kk w Hkk) as (i & Hindex & Hfind & Hi).
      rewrite (bind_Ok_eq _ _ _ _ _ Hindex).
      destruct (lookup_lt_is_Some_2 llm_keywords i ltac:(lia)) as [orig Horig].
      assert (Hget : list_get llm_keywords i w = (Ok orig, w))
        by (unfold list_get; by rewrite Horig).
      rewrite (bind_Ok_eq _ _ _ _ _ Hget).
      destruct (IH ({[str_upper E orig]} ∪ keywords) Hall) as (kws' & Hrun & Hsub & Hadded).
      exists kws'. split; [done|]. split; [set_solver|].
      intros k [->|Hk]%elem_of_cons; [|by apply Hadded].
      exists i, orig. split; [done|]. split; [done|]. set_solver.
  - intros pre k rest -> Hpre Hk. revert keywords.
    induction pre as [|kk pre IH]; intros keywords; simpl.
    + by rewrite (bind_Raise_eq _ _ _ _ _ (list_index_missing _ _ w Hk)).
    + apply Forall_cons in Hpre as [Hkk Hpre].
      destruct (list_index_found candidate_keywords kk w Hkk) as (i & Hindex & Hfind & Hi).
      rewrite (bind_Ok_eq _ _ _ _ _ Hindex).
      destruct (lookup_lt_is_Some_2 llm_keywords i ltac:(lia)) as [orig Horig].
      assert (Hget : list_get llm_keywords i w = (Ok orig, w))
        by (unfold list_get; by rewrite Horig).
      rewrite (bind_Ok_eq _ _ _ _ _ Hget). by apply IH.
Qed.

Lemma add_keywords_needs_candidates_witness :
  (exists keywords',
     add_keywords Demo.env ["souris"] ["chat"; "souris"] ["le chat"; "la souris"] ∅ Demo.w0
     = (Ok keywords', Demo.w0)
     /\ "LA SOURIS" ∈ keywords')
  /\ add_keywords Demo.env ["chat"; "chien"] ["chat"; "souris"] ["le chat"; "la souris"] ∅ Demo.w0
     = (Raise (Exn ValueError "'chien' is not in list"), Demo.w0).
Proof.
  split.
  - destruct (proj1 (add_keywords_needs_candidates Demo.env ["souris"] ["chat"; "souris"]
                       ["le chat"; "la souris"] ∅ Demo.w0 eq_refl))
      as (keywords' & Hrun & _ & Hadded).
    { repeat constructor. }
    exists keywords'. split; [exact Hrun|].
    destruct (Hadded "souris" ltac:(by left)) as (i & orig & Hfind & Horig & Hin).
    vm_compute in Hfind. injection Hfind as <-. vm_compute in Horig.
    injection Horig as <-. exact Hin.
  - apply (proj2 (add_keywords_needs_candidates Demo.env ["chat"; "chien"] ["chat"; "souris"]
                    ["le chat"; "la souris"] ∅ Demo.w0 eq_refl) ["chat"] "chien" []).
    + reflexivity.
    + repeat constructor.
    + intros Hin. apply list_elem_of_In in Hin. simpl in Hin.
      destruct Hin as [Heq|[Heq|[]]]; discriminate.
Defined.

(** ** What populate does to the collection *)

Lemma appends_bind {A B} P (m : M A) (k : A -> M B) :
  appends P m -> (forall x, appends P (k x)) -> appends P (bind m k).
Proof.
  intros Hm Hk w. unfold bind. destruct (Hm w) as (a1 & Hs1 & Ha1).
  destruct (m w) as [[x|e] w1]; simpl in *.
  - destruct (Hk x w1) as (a2 & Hs2 & Ha2). exists (a1 ++ a2).
    rewrite Hs2, Hs1, app_assoc. split; [done|]. by apply Forall_app.
  - by exists a1.
Qed.

Lemma appends_keeps {A} P (m : M A) :
  (forall w, vector_store (m w).2 = vector_store w) -> appends P m.
Proof. intros Hm w. exists []. by rewrite Hm, app_nil_r. Qed.

Lemma appends_impl {A} (P Q : Snippet -> Prop) (m : M A) :
  (forall s, P s -> Q s) -> appends P m -> appends Q m.
Proof.
  intros HPQ Hm w. destruct (Hm w) as (a & Hs & Ha). exists a.
  split; [done|]. by eapply Forall_impl.
Qed.

Lemma populate_loop_appends E nlp expert_skills i expert_emails_ :
  appends (fun s => expert_email s ∈ expert_emails_)
    (populate_loop E nlp expert_skills i expert_emails_).
Proof.
  revert i. induction expert_emails_ as [|e rest IH]; intros i; simpl.
  - by apply appends_keeps.
  - apply appends_bind.
    { apply appends_keeps. intros w. unfold list_get.
      by destruct (expert_skills !! i). }
    intros skills_i. apply appends_bind.
    { apply appends_keeps. intros w.
      by apply (translate_text_keeps E vector_store). }
    intros translated. apply appends_bind; [by apply appends_keeps|].
    intros stored. apply appends_bind.
    + destruct (decide _); [|by apply appends_keeps].
      intros w. destruct (add_skills_appends E (sents nlp translated) e w)
        as (a & Hs & Ha).
      exists a. split; [done|]. eapply Forall_impl; [exact Ha|].
      intros s [-> _]. by left.
    + intros _. eapply appends_impl; [|apply IH]. intros s Hs. by right.
Qed.

(** X6. Populate-or-update only ever appends: whatever the result, the
    collection afterwards is the collection before followed by new
    snippets, each owned by one of the experts passed in. No stored snippet
    is removed or rewritten, so adding an expert who is already indexed,
    with a changed text, leaves the old snippets in place beside the new
    ones. *)
Theorem populate_only_appends
    (E : Env) (nlp : Language) (expert_skills expert_emails_ : list string) (w : World) :
  let after :=
    (populate_or_update_expert_recommendation_vector_store E nlp
       expert_skills expert_emails_ w).2 in
  exists added,
    vector_store after = vector_store w ++ added
    /\ Forall (fun s => expert_email s ∈ expert_emails_) added.
Proof. apply populate_loop_appends. Qed.

(** X7. [update] is not atomic: when the translation of the new skills
    fails, the error reaches the caller after the snippets of the owner
    have been deleted and before anything is added, so the owner is left
    without any snippet; the other owners are untouched. *)
Theorem update_expert_translation_failure_loses_owner
    (E : Env) (expert_skills expert_email_ : string) (w : World) (e : exn) :
  (translate_text E expert_skills "en"
     (delete_expert_from_vector_store expert_email_ w).2).1 = Raise e ->
  let after := update_expert_in_vector_store E expert_skills expert_email_ w in
  after.1 = Raise e
  /\ vector_store after.2
     = filter (fun s => expert_email s <> expert_email_) (vector_store w)
  /\ filter (fun s => expert_email s = expert_email_) (vector_store after.2) = [].
Proof.
  intros Hfail.
  set (w0 := (delete_expert_from_vector_store expert_email_ w).2) in *.
  pose proof (translate_text_keeps E vector_store ltac:(by intros) expert_skills "en" w0)
    as Hkeep.
  destruct (translate_text E expert_skills "en" w0) as [r w1] eqn:Ht.
  simpl in Hfail, Hkeep. subst r.
  assert (Hrun : update_expert_in_vector_store E expert_skills expert_email_ w
                 = (Raise e, w1)).
  { unfold update_expert_in_vector_store,
      populate_or_update_expert_recommendation_vector_store.
    rewrite (bind_Ok_eq _ _ w tt w0) by reflexivity. simpl.
    rewrite (bind_Ok_eq _ _ w0 expert_skills w0) by reflexivity.
    by rewrite (bind_Raise_eq _ _ w0 e w1). }
  simpl. rewrite Hrun. simpl. rewrite Hkeep. split; [done|]. split; [done|].
  apply elem_of_nil_inv.
  intros s [Heq [Hne _]%list_elem_of_filter]%list_elem_of_filter. done.
Qed.

Lemma update_expert_translation_failure_loses_owner_witness :
  let after :=
    update_expert_in_vector_store Faults.translator_down "Chirurgie cardiaque"
      "ana@chu.ca" Faults.two_experts in
  after.1 = Raise (Exn Exception
                     "Request exception can happen due to an api connection error.")
  /\ vector_store after.2
     = filter (fun s => expert_email s <> "ana@chu.ca") (vector_store Faults.two_experts)
  /\ filter (fun s => expert_email s = "ana@chu.ca") (vector_store after.2) = [].
Proof.
  apply (update_expert_translation_failure_loses_owner Faults.translator_down
           "Chirurgie cardiaque" "ana@chu.ca" Faults.two_experts).
  by vm_compute.
Defined.

(** ** Adding the same expert twice *)

(** The value a translation returns depends on the text alone, not on the
    state of the worker. *)
Lemma translate_sentences_value E lang sentences chunk translated w w' :
  (translate_sentences E lang sentences chunk translated w).1
  = (translate_sentences E lang sentences chunk translated w').1.
Proof.
  revert chunk translated w w'.
  induction sentences as [|sentence rest IH]; intros chunk translated w w'; simpl.
  - done.
  - destruct (decide (sentence = EmptyString)); [apply IH|].
    destruct (chunk_length <=? Str.len chunk); [|apply IH].
    unfold bind. rewrite !translate_run.
    destruct (google_translator E lang chunk); [apply IH|done].
Qed.

Lemma translate_text_value E text lang w w' :
  (translate_text E text lang w).1 = (translate_text E text lang w').1.
Proof.
  unfold translate_text. destruct (Str.len text <=? max_text_length); [done|].
  unfold bind at 1 3.
  pose proof (translate_sentences_value E lang
                (Str.split Str.newline (str_lstrip E text)) "" "" w w') as Hval.
  destruct (translate_sentences E lang _ "" "" w) as [[[chunk translated]|e] w1];
    destruct (translate_sentences E lang _ "" "" w') as [[[chunk' translated']|e'] w1'];
    simpl in Hval |- *; try congruence.
  injection Hval as -> ->. destruct (decide _); [done|].
  unfold bind. rewrite !translate_run. by destruct (google_translator E lang chunk').
Qed.

(** With readings of the clock that are new and distinct, every sentence is
    stored, in order, under its own reading. *)
Lemma add_skills_stores E skills e w :
  NoDup (stored_ids w ++ readings E (clock_reads w) (length skills)) ->
  vector_store (add_skills E skills e w).2
  = vector_store w
    ++ zip_with (fun id skill => {| snippet_id := id; document := skill;
                                    expert_email := e |})
         (readings E (clock_reads w) (length skills)) skills.
Proof.
  revert w. induction skills as [|skill rest IH]; intros w Hfresh.
  - simpl. by rewrite app_nil_r.
  - rewrite add_skills_cons. unfold readings in *. simpl in Hfresh |- *.
    assert (Hnew : time_time E (clock_reads w) ∉ snippet_id <$> vector_store w).
    { apply NoDup_app in Hfresh as (_ & Hdisjoint & _). intros Hin.
      apply (Hdisjoint _ Hin). by left. }
    unfold collection_add at 1, bind at 1. simpl.
    destruct (decide _) as [Hin|_]; [done|]. simpl.
    rewrite IH; simpl.
    + by rewrite <- app_assoc.
    + unfold stored_ids. simpl. rewrite fmap_app, <- app_assoc. exact Hfresh.
Qed.

Lemma documents_of_owner (e : string) (ids skills : list string) :
  length ids = length skills ->
  document <$> filter (fun s => expert_email s = e)
                 (zip_with (fun id skill => {| snippet_id := id; document := skill;
                                               expert_email := e |}) ids skills)
  = skills.
Proof.
  revert ids. induction skills as [|skill rest IH]; intros [|id ids] Hlen;
    simpl in *; try done.
  rewrite filter_cons_True by done. simpl. f_equal. apply IH. lia.
Qed.

(** X8. Adding an expert a second time with the same text stores nothing
    and reads no clock: populate finds the stored sentences equal to the
    sentences of the translation and skips the owner. This holds for an
    expert who had no snippet before the first call, with a clock whose
    readings are distinct and differ from the stored ids, so that the first
    call stored every sentence. *)
Theorem add_expert_twice_stores_once
    (E : Env) (expert_skills expert_email_ : string) (w w1 : World) :
  add_expert_to_vector_store E expert_skills expert_email_ w = (Ok tt, w1) ->
  filter (fun s => expert_email s = expert_email_) (vector_store w) = [] ->
  (forall n, NoDup (stored_ids w ++ readings E (clock_reads w) n)) ->
  exists w2,
    add_expert_to_vector_store E expert_skills expert_email_ w1 = (Ok tt, w2)
    /\ vector_store w2 = vector_store w1
    /\ clock_reads w2 = clock_reads w1
    /\ submitted_ids (trace w2) = submitted_ids (trace w1).
Proof.
  unfold add_expert_to_vector_store,
    populate_or_update_expert_recommendation_vector_store.
  intros Hrun Hnew Hclock. simpl in Hrun.
  rewrite (bind_Ok_eq _ _ w expert_skills w) in Hrun by reflexivity.
  apply bind_Ok_inv in Hrun as (translated & wt & Htrans & Hrun).
  assert (Hstore_t : vector_store wt = vector_store w).
  { change wt with (Ok translated, wt).2. rewrite <- Htrans.
    by apply (translate_text_keeps E vector_store). }
  assert (Hclock_t : clock_reads wt = clock_reads w).
  { change wt with (Ok translated, wt).2. rewrite <- Htrans.
    by apply (translate_text_keeps E clock_reads). }
  unfold bind at 1, collection_get at 1 in Hrun. rewrite Hstore_t, Hnew in Hrun.
  simpl in Hrun. unfold bind at 1 in Hrun.
  set (sentences := sents (nlp_en E) translated) in *.
  pose proof (add_skills_stores E sentences expert_email_ wt) as Hstored.
  unfold stored_ids in Hstored. rewrite Hstore_t, Hclock_t in Hstored.
  specialize (Hstored (Hclock _)).
  destruct (add_skills E sentences expert_email_ wt) as [[[]|err] w1'] eqn:Hadd;
    simpl in Hrun, Hstored; [|done].
  injection Hrun as ->.
  (* the second call *)
  simpl. rewrite (bind_Ok_eq _ _ w1 expert_skills w1) by reflexivity.
  pose proof (translate_text_value E expert_skills "en" w w1) as Hval.
  rewrite Htrans in Hval. simpl in Hval.
  destruct (translate_text E expert_skills "en" w1) as [r wt'] eqn:Htrans'.
  simpl in Hval. subst r.
  assert (Hkeep : forall {X} (f : World -> X),
             (forall ev, (forall r, ev <> EvSend r) ->
                         (forall id doc e, ev <> EvAdd id doc e) -> keeps f (emit ev)) ->
             f wt' = f w1).
  { intros X f Hf. change wt' with (Ok translated, wt').2. rewrite <- Htrans'.
    by apply (translate_text_keeps E f). }
  exists wt'. rewrite (bind_Ok_eq _ _ w1 translated wt') by exact Htrans'.
  assert (Hdocs : document <$> filter (fun s => expert_email s = expert_email_)
                                 (vector_store wt') = sentences).
  { rewrite (Hkeep _ vector_store) by (by intros). rewrite Hstored.
    rewrite filter_app, Hnew. simpl. apply documents_of_owner.
    unfold readings. by rewrite length_fmap, length_seq. }
  unfold bind at 1, collection_get at 1. rewrite Hdocs. simpl. unfold bind at 1.
  fold sentences.
  assert (Hskip : (if decide (sentences = [] \/ sentences <> sentences)
                   then add_skills E sentences expert_email_ else ret tt) wt'
                  = (Ok tt, wt')).
  { destruct (decide _) as [[->|Hne]|_]; [done|done|done]. }
  rewrite Hskip. split; [done|].
  split; [by apply (Hkeep _ vector_store)|].
  split; [by apply (Hkeep _ clock_reads)|].
  apply (Hkeep _ (fun w => submitted_ids (trace w))).
  intros ev _ Hadd' w'. unfold submitted_ids. simpl. rewrite omap_app. simpl.
  destruct ev; try by rewrite app_nil_r. by destruct (Hadd' id doc email).
Qed.

Lemma tally_readings_distinct from n : NoDup (readings Demo.env from n).
Proof.
  unfold readings. apply NoDup_fmap_2; [|apply NoDup_seq].
  intros j k Heq. simpl in Heq. unfold Demo.tally in Heq.
  revert k Heq. induction j as [|j IH]; intros [|k] Heq; simpl in Heq; try done.
  injection Heq as Heq. f_equal. by apply IH.
Qed.

Lemma add_expert_twice_stores_once_witness :
  exists w2,
    add_expert_to_vector_store Demo.env "Heart surgery. Transplants" "ana@chu.ca"
      (add_expert_to_vector_store Demo.env "Heart surgery. Transplants" "ana@chu.ca"
         Demo.w0).2
    = (Ok tt, w2)
    /\ vector_store w2
       = vector_store (add_expert_to_vector_store Demo.env
                         "Heart surgery. Transplants" "ana@chu.ca" Demo.w0).2
    /\ clock_reads w2
       = clock_reads (add_expert_to_vector_store Demo.env
                        "Heart surgery. Transplants" "ana@chu.ca" Demo.w0).2
    /\ submitted_ids (trace w2)
       = submitted_ids (trace (add_expert_to_vector_store Demo.env
                                 "Heart surgery. Transplants" "ana@chu.ca" Demo.w0).2).
Proof.
  apply (add_expert_twice_stores_once Demo.env "Heart surgery. Transplants"
           "ana@chu.ca" Demo.w0).
  - vm_compute. reflexivity.
  - vm_compute. reflexivity.
  - intros n. simpl. apply tally_readings_distinct.
Defined.

(** ** Requests that only read *)

Section ReadOnly.

Context (E : Env) {X : Type} (f : World -> X).
Hypothesis f_emit : forall ev, keeps f (emit ev).
Hypothesis f_generate : forall prompt, keeps f (generate E prompt).
Hypothesis f_available : forall b, keeps f (set_is_available b).
Hypothesis f_awaiting : forall b, keeps f (set_awaiting_reply b).

Lemma invoke_read_only_keeps method_name arguments_ :
  method_name ∈ read_only_methods -> keeps f (invoke E method_name arguments_).
Proof.
  intros Hread. unfold invoke, bad_arguments.
  repeat match goal with
         | |- keeps _ (if ?c then _ else _) => destruct c as [->|?]
         end;
    try (by repeat (apply elem_of_cons in Hread as [?|Hread]; [done|]);
         apply elem_of_nil in Hread);
    destruct arguments_ as [|a1 [|a2 [|a3 rest]]];
    try apply keeps_raise; apply fmap_M_keeps.
  - by apply get_keywords_keeps.
  - by apply get_experts_recommendation_keeps.
  - by apply translate_text_keeps.
  - by apply try_get_llm_expert_recommendation_keeps.
  - by apply try_get_llm_keywords_keeps.
Qed.

Lemma send_json_keeps r : keeps f (send_json r).
Proof.
  assert (Hsend : forall r', keeps f (fun w =>
            if awaiting_reply w
            then (let! _ := emit (EvSend r') in set_awaiting_reply false) w
            else (Raise socket_state_error, w))).
  { intros r' w. simpl. destruct (awaiting_reply w); [|done].
    apply (keeps_bind f); [apply f_emit|]. intros _. apply f_awaiting. }
  destruct r as [[]|]; simpl; try apply Hsend. apply keeps_raise.
Qed.

Lemma process_query_read_only_keeps m :
  reads_only m -> keeps f (process_query E m).
Proof.
  intros Hm. unfold process_query.
  assert (Hbody : keeps f
            (let! data := recv_json m in
             let method_name := default EmptyString (method data) in
             let arguments := default [] (arguments data) in
             let! response :=
               if decide (method_name <> EmptyString) then
                 call_method E method_name arguments
               else ret (Error "No method specified") in
             send_json response)).
  { destruct m as [data|]; [|by intros w].
    intros w.
    rewrite (bind_Ok_eq _ _ w data (set_awaiting_reply true w).2) by reflexivity.
    transitivity (f (set_awaiting_reply true w).2); [|apply f_awaiting].
    generalize (set_awaiting_reply true w).2.
    apply keeps_bind; [|intros r; apply send_json_keeps].
    simpl in Hm. destruct (decide _); [|apply keeps_ret].
    unfold call_method. destruct (decide _) as [Hin|]; [|apply keeps_ret].
    apply keeps_bind; [|intros r; apply keeps_ret].
    apply invoke_read_only_keeps. by apply Hm. }
  intros w. unfold try_except_all. specialize (Hbody w).
  match type of Hbody with
  | f (?body w).2 = _ => destruct (body w) as [[[]|e] w1]
  end; simpl in *; [done|].
  destruct (decide (exn_cls e = SystemExit)); [done|].
  rewrite <- Hbody. destruct (decide _).
  - apply keeps_bind; [apply f_available|]. intros _. apply f_emit.
  - apply keeps_bind; [apply (send_json_keeps (Error (exn_str e)))|].
    intros _. apply f_emit.
Qed.

Lemma start_llm_processing_read_only_keeps inbox :
  Forall reads_only inbox -> keeps f (start_llm_processing E inbox).
Proof.
  induction 1 as [|m inbox Hm _ IH]; intros w.
  - simpl. by destruct (is_available w).
  - simpl. destruct (is_available w); [|done]. unfold bind.
    pose proof (process_query_read_only_keeps m Hm w) as Hstep.
    destruct (process_query E m w) as [[[]|e] w1]; simpl in *; [|done].
    by rewrite IH.
Qed.

End ReadOnly.

(** X9. Serving requests that name no method, an unknown method or one of
    the read-only methods (keyword extraction, recommendation, translation
    and the two retry helpers) never writes: however many such requests the
    loop serves, and whether they succeed or fail, the collection is
    afterwards what it was and the clock has not been read. *)
Theorem queries_leave_the_collection_alone
    (E : Env) (inbox : list incoming) (w : World) :
  Forall reads_only inbox ->
  let after := (start_llm_processing E inbox w).2 in
  vector_store after = vector_store w /\ clock_reads after = clock_reads w.
Proof.
  intros Hinbox. split.
  - by apply (start_llm_processing_read_only_keeps E vector_store).
  - by apply (start_llm_processing_read_only_keeps E clock_reads).
Qed.

Lemma queries_leave_the_collection_alone_witness :
  let inbox :=
    [ Received {| method := Some "get_keywords"; arguments := Some ["Le chat"] |};
      Received {| method := Some "get_experts_recommendation";
                  arguments := Some ["Who knows hearts?"] |};
      Received {| method := Some "drop_everything"; arguments := None |};
      Terminated ] in
  let after := (start_llm_processing Demo.env inbox Faults.two_experts).2 in
  vector_store after = vector_store Faults.two_experts
  /\ clock_reads after = clock_reads Faults.two_experts.
Proof.
  apply (queries_leave_the_collection_alone Demo.env _ Faults.two_experts).
  repeat apply Forall_cons_2; [| | |done|apply Forall_nil_2].
  - intros _. simpl.
    repeat first [apply list_elem_of_here | apply list_elem_of_further].
  - intros _. simpl.
    repeat first [apply list_elem_of_here | apply list_elem_of_further].
  - simpl. intros Hin. exfalso. revert Hin.
    apply (proj1 (bool_decide_eq_false _)). by vm_compute.
Defined.

(** ** The entries of a recommendation *)

Lemma scan_pairs_keeps_owners nb entry e :
  e ∈ expert_emails entry -> e ∈ expert_emails (scan_pairs nb entry).
Proof.
  revert entry. induction nb as [|p rest IH]; intros entry He; simpl; [done|].
  assert (He1 : e ∈ expert_emails (consider p entry)).
  { destruct (consider_emails p entry) as [->|(_ & _ & ->)]; [done|].
    simpl. apply elem_of_app. by left. }
  destruct (decide _); [done|by apply IH].
Qed.

(** The scan stops early only with five owners: an entry with fewer holds
    the owner of every neighbour within the threshold. *)
Lemma scan_pairs_complete nb entry p :
  length (expert_emails (scan_pairs nb entry)) < 5 ->
  p ∈ nb -> Qle_bool p.2 (1 # 2) = true ->
  p.1 ∈ expert_emails (scan_pairs nb entry).
Proof.
  revert entry. induction nb as [|p0 rest IH]; intros entry Hlen Hp Hclose;
    [by apply elem_of_nil in Hp|].
  simpl in *. destruct (decide _) as [Hfull|Hmore]; [lia|].
  apply elem_of_cons in Hp as [->|Hp]; [|by apply IH].
  apply scan_pairs_keeps_owners. unfold consider.
  destruct (decide (p0.1 ∉ expert_emails entry)) as [Hnew|Hold].
  - rewrite Hclose. simpl. apply elem_of_app. right. by left.
  - by apply dec_stable.
Qed.

Lemma last_translated_to_or_none E key generic_profiles :
  (exists gp, last_translated_to E key generic_profiles gp)
  \/ (forall gp, gp ∈ generic_profiles -> google_translator E "fr" gp <> Ok key).
Proof.
  induction generic_profiles as [|g rest [(gp & before & after & -> & Hk & Hl)|Hnone]].
  - right. intros gp Hgp. by apply elem_of_nil in Hgp.
  - left. by exists gp, (g :: before), after.
  - destruct (google_translator E "fr" g) as [k|e] eqn:Hg.
    + destruct (decide (k = key)) as [->|Hne].
      * left. by exists g, [], rest.
      * right. intros gp [->|Hgp]%elem_of_cons; [|by apply Hnone].
        rewrite Hg. by intros [= ->].
    + right. intros gp [->|Hgp]%elem_of_cons; [|by apply Hnone]. by rewrite Hg.
Qed.

Lemma recommendation_loop_entries E found store w0 all_profiles pre generic_profiles
    response w response' w' :
  collection_query E all_profiles 20 w0 = (Ok found, w0) ->
  vector_store w0 = store ->
  all_profiles = pre ++ generic_profiles ->
  recommendation_loop E found (length pre) generic_profiles response w
  = (Ok response', w') ->
  Forall (fun gp => exists key, google_translator E "fr" gp = Ok key) generic_profiles
  /\ forall key entry,
       response' !! key = Some entry <->
       (exists gp, last_translated_to E key generic_profiles gp
                   /\ entry = entry_of E store gp)
       \/ ((forall gp, gp ∈ generic_profiles -> google_translator E "fr" gp <> Ok key)
           /\ response !! key = Some entry).
Proof.
  intros Hquery Hstore. revert pre response w.
  induction generic_profiles as [|g rest IH]; intros pre response w Hall; simpl.
  - intros [= <- <-]. split; [done|]. intros key entry. split.
    + intros Hentry. right. split; [|done]. intros gp Hgp. by apply elem_of_nil in Hgp.
    + intros [(gp & (before & after & Happ & _) & _)|[_ Hentry]]; [|done].
      by destruct before.
  - intros (k1 & w1 & Htranslate & Hrun)%bind_Ok_inv.
    apply bind_Ok_inv in Hrun as (metadatas_i & w1' & Hmetadatas & Hrun).
    apply bind_Ok_inv in Hrun as (entry1 & w2 & Hscan & Hrun).
    destruct (collection_query_lookup E all_profiles 20 w0 found pre g rest Hquery Hall)
      as [Hm Hd].
    rewrite Hstore in Hm, Hd.
    unfold list_get in Hmetadatas. rewrite Hm in Hmetadatas.
    injection Hmetadatas as <- <-.
    rewrite (scan_neighbours_pairs found (length pre) [] _ _ w1 Hd) in Hscan.
    injection Hscan as <- <-.
    rewrite translate_run in Htranslate. injection Htranslate as Hk1 _.
    replace (S (length pre)) with (length (pre ++ [g])) in Hrun
      by (rewrite length_app; simpl; lia).
    destruct (IH (pre ++ [g]) _ w1 ltac:(by rewrite <- app_assoc) Hrun)
      as [Htranslated Hentries].
    split; [constructor; [by exists k1|done]|].
    intros key entry. rewrite Hentries. fold (entry_of E store g). split.
    + intros [(gp & (before & after & -> & Hkey & Hlast) & ->)
             |[Hnone [[<- <-]|[Hne Hold]]%lookup_insert_Some]].
      * left. exists gp. split; [|done]. by exists (g :: before), after.
      * left. exists g. split; [|done]. by exists [], rest.
      * right. split; [|done]. intros gp [->|Hgp]%elem_of_cons; [|by apply Hnone].
        rewrite Hk1. by intros [= ->].
    + intros [(gp & (before & after & Happ & Hkey & Hlast) & ->)|[Hnone Hold]].
      * destruct before as [|g' before]; simpl in Happ; injection Happ as -> ->.
        -- right. split; [done|]. rewrite Hk1 in Hkey. injection Hkey as ->.
           by rewrite lookup_insert_eq.
        -- left. exists gp. split; [|done]. by exists before, after.
      * right. split; [intros gp Hgp; apply Hnone; by right|].
        rewrite lookup_insert_ne; [done|].
        intros ->. apply (Hnone g); [by left|done].
Qed.

Lemma get_experts_recommendation_inv E question w response_ w' :
  get_experts_recommendation E question w = (Ok response_, w') ->
  exists query generic_profiles w1 w2 found,
    google_translator E "en" question = Ok query
    /\ try_get_llm_expert_recommendation E (expert_recommendation_prompt E query)
         default_max_attempts default_retry_delay w1 = (Ok generic_profiles, w2)
    /\ vector_store w2 = vector_store w
    /\ collection_query E generic_profiles 20 w2 = (Ok found, w2)
    /\ recommendation_loop E found 0 generic_profiles ∅ w2 = (Ok response_, w').
Proof.
  intros Hrun. unfold get_experts_recommendation in Hrun.
  apply bind_Ok_inv in Hrun as (query & w1 & Htranslate & Hrun).
  apply bind_Ok_inv in Hrun as (generic_profiles & w2 & Hllm & Hrun).
  apply bind_Ok_inv in Hrun as (found & w2' & Hquery & Hrun).
  assert (w2' = w2) as -> by (by injection Hquery).
  assert (Hstore1 : vector_store w1 = vector_store w).
  { pose proof (translate_keeps E vector_store ltac:(by intros) "en" question w) as Hkeep.
    by rewrite Htranslate in Hkeep. }
  assert (Hstore2 : vector_store w2 = vector_store w).
  { pose proof (try_get_llm_expert_recommendation_keeps E vector_store
                  ltac:(by intros) ltac:(by intros)
                  (expert_recommendation_prompt E query)
                  default_max_attempts default_retry_delay w1) as Hkeep.
    rewrite Hllm in Hkeep. simpl in Hkeep. congruence. }
  rewrite translate_run in Htranslate. injection Htranslate as Hq _.
  by exists query, generic_profiles, w1, w2, found.
Qed.

(** X10. The response of a recommendation has one entry per French
    translation of a generic profile the model returned, and only those:
    the entry under a key is the scan of the neighbours of the last profile
    translated to that key. Two profiles with the same translation share
    one key and the result of the earlier one is overwritten; every profile
    the model returned has an entry, possibly an empty one. *)
Theorem get_experts_recommendation_entries
    (E : Env) (question : string) (w : World)
    (response_ : gmap string Experts) (w' : World) :
  get_experts_recommendation E question w = (Ok response_, w') ->
  exists query generic_profiles w1 w2,
    google_translator E "en" question = Ok query
    /\ try_get_llm_expert_recommendation E (expert_recommendation_prompt E query)
         default_max_attempts default_retry_delay w1 = (Ok generic_profiles, w2)
    /\ (forall key entry,
          response_ !! key = Some entry <->
          exists gp, last_translated_to E key generic_profiles gp
                     /\ entry = entry_of E (vector_store w) gp)
    /\ Forall (fun gp => exists key,
                 google_translator E "fr" gp = Ok key /\ is_Some (response_ !! key))
         generic_profiles.
Proof.
  intros (query & gps & w1 & w2 & found & Hq & Hllm & Hstore & Hquery & Hloop)
    %get_experts_recommendation_inv.
  exists query, gps, w1, w2. split; [done|]. split; [done|].
  destruct (recommendation_loop_entries E found (vector_store w) w2 gps [] gps
              ∅ w2 response_ w' Hquery Hstore eq_refl Hloop) as [Htranslated Hentries].
  assert (Hiff : forall key entry,
             response_ !! key = Some entry <->
             exists gp, last_translated_to E key gps gp
                        /\ entry = entry_of E (vector_store w) gp).
  { intros key entry. rewrite Hentries. split; [|by left].
    intros [?|[_ Hempty]]; [done|]. by rewrite lookup_empty in Hempty. }
  split; [exact Hiff|].
  apply Forall_forall. intros gp Hgp.
  destruct (proj1 (Forall_forall _ _) Htranslated gp Hgp) as [key Hkey].
  exists key. split; [done|].
  destruct (last_translated_to_or_none E key gps) as [[gp' Hlast]|Hnone];
    [|by destruct (Hnone gp Hgp)].
  eexists. apply Hiff. by exists gp'.
Qed.

Lemma get_experts_recommendation_entries_witness :
  let w := (add_expert_to_vector_store Demo.env "surgeon" "ana@example.org" Demo.w0).2 in
  exists response_ w',
    get_experts_recommendation Demo.env "who can operate" w = (Ok response_, w')
    /\ exists query generic_profiles w1 w2,
         google_translator Demo.env "en" "who can operate" = Ok query
         /\ try_get_llm_expert_recommendation Demo.env
              (expert_recommendation_prompt Demo.env query)
              default_max_attempts default_retry_delay w1 = (Ok generic_profiles, w2)
         /\ (forall key entry,
               response_ !! key = Some entry <->
               exists gp, last_translated_to Demo.env key generic_profiles gp
                          /\ entry = entry_of Demo.env (vector_store w) gp)
         /\ Forall (fun gp => exists key,
                      google_translator Demo.env "fr" gp = Ok key
                      /\ is_Some (response_ !! key))
              generic_profiles.
Proof.
  intros w. eexists _, _. split; [vm_compute; reflexivity|].
  eapply (get_experts_recommendation_entries Demo.env "who can operate" w).
  vm_compute. reflexivity.
Defined.

(** X11. The scan of the neighbours stops early only when the entry has
    five owners. An entry with fewer than five owners is complete: it holds
    the owner of every one of the twenty nearest snippets of its profile
    that lies within the threshold 0.5. *)
Theorem get_experts_recommendation_short_entry_is_complete
    (E : Env) (question : string) (w : World)
    (response_ : gmap string Experts) (w' : World) :
  get_experts_recommendation E question w = (Ok response_, w') ->
  forall key entry,
    response_ !! key = Some entry ->
    length (expert_emails entry) < 5 ->
    exists generic_profile,
      google_translator E "fr" generic_profile = Ok key
      /\ forall p,
           p ∈ owner_distances E (vector_store w) 20 generic_profile ->
           (p.2 <= 1 # 2)%Q ->
           p.1 ∈ expert_emails entry.
Proof.
  intros (query & gps & w1 & w2 & found & Hq & Hllm & Hstore & Hquery & Hloop)
    %get_experts_recommendation_inv key entry Hentry Hshort.
  destruct (recommendation_loop_entries E found (vector_store w) w2 gps [] gps
              ∅ w2 response_ w' Hquery Hstore eq_refl Hloop) as [_ Hentries].
  apply Hentries in Hentry
    as [(gp & (before & after & _ & Hkey & _) & ->)|[_ Hempty]];
    [|by rewrite lookup_empty in Hempty].
  exists gp. split; [done|]. intros p Hp Hclose.
  apply scan_pairs_complete; [done|done|]. by apply Qle_bool_iff.
Qed.

Lemma get_experts_recommendation_short_entry_is_complete_witness :
  let w := (add_expert_to_vector_store Demo.env "surgeon" "ana@example.org" Demo.w0).2 in
  exists generic_profile,
    google_translator Demo.env "fr" generic_profile = Ok "surgeon"
    /\ forall p,
         p ∈ owner_distances Demo.env (vector_store w) 20 generic_profile ->
         (p.2 <= 1 # 2)%Q ->
         p.1 ∈ ["ana@example.org"].
Proof.
  intros w.
  eapply (get_experts_recommendation_short_entry_is_complete Demo.env
            "who can operate" w _ _ ltac:(vm_compute; reflexivity) "surgeon"
            {| expert_emails := ["ana@example.org"]; scores := [(0 # 1)%Q] |}).
  - vm_compute. reflexivity.
  - simpl. lia.
Defined.

(** ** The client side: [query_llm] *)



(** A request that names [__init_zmq] is outside this: the worker binds a
    new socket, cannot reply on it, and the caller waits. *)
Example query_llm_init_zmq_waits :
  (query_llm Demo.env "init_zmq" ["tcp://*:5556"] Demo.w0).1 = None.
Proof. vm_compute. reflexivity. Qed.

(** ** Failures of the translator *)

Lemma translate_sentences_calls E lang sentences chunk translated w :
  exists calls,
    trace (translate_sentences E lang sentences chunk translated w).2
    = trace w ++ (EvTranslate lang <$> calls)
    /\ calls_until_failure E lang calls
         (translate_sentences E lang sentences chunk translated w).1.
Proof.
  revert chunk translated w.
  induction sentences as [|sentence rest IH]; intros chunk translated w; simpl.
  - exists []. split; [by rewrite app_nil_r|]. constructor.
  - destruct (decide (sentence = EmptyString)); [apply IH|].
    destruct (chunk_length <=? Str.len chunk); [|apply IH].
    unfold bind. rewrite translate_run.
    destruct (google_translator E lang chunk) as [t|e] eqn:Ht.
    + destruct (IH EmptyString (translated +:+ t)
                  (record_event (EvTranslate lang chunk) w)) as (calls & Htrace & Hcalls).
      exists (chunk :: calls). split; [rewrite Htrace; simpl; by rewrite <- app_assoc|].
      destruct (translate_sentences E lang rest _ _ _) as [[r|e] w1]; simpl in *.
      * constructor; [by exists t|done].
      * destruct Hcalls as (before & c & -> & Hc & Hbefore).
        exists (chunk :: before), c. split; [done|]. split; [done|].
        constructor; [by exists t|done].
    + exists [chunk]. split; [done|]. exists [], chunk. by repeat split.
Qed.

Lemma translate_text_calls
    (E : Env) (text destination_language : string) (w : World) :
  exists calls,
    trace (translate_text E text destination_language w).2
    = trace w ++ (EvTranslate destination_language <$> calls)
    /\ calls_until_failure E destination_language calls
         (translate_text E text destination_language w).1.
Proof.
  unfold translate_text. destruct (Str.len text <=? max_text_length).
  - exists [text]. rewrite translate_run. split; [done|]. simpl.
    destruct (google_translator E destination_language text) as [t|e] eqn:Ht.
    + repeat constructor. by exists t.
    + exists [], text. by repeat split.
  - destruct (translate_sentences_calls E destination_language
                (Str.split Str.newline (str_lstrip E text)) "" "" w)
      as (calls & Htrace & Hcalls).
    destruct (translate_sentences E destination_language _ "" "" w)
      as [[[chunk translated]|e] w1] eqn:Hloop; simpl in Htrace, Hcalls.
    + rewrite (bind_Ok_eq _ _ _ _ _ Hloop).
      destruct (decide (chunk = EmptyString)); [exists calls; by split|].
      unfold bind. rewrite translate_run.
      exists (calls ++ [chunk]). rewrite fmap_app, app_assoc, <- Htrace.
      destruct (google_translator E destination_language chunk) as [t|e] eqn:Ht; simpl.
      * split; [done|]. apply Forall_app. split; [done|]. repeat constructor.
        by exists t.
      * split; [done|]. by exists calls, chunk.
    + rewrite (bind_Raise_eq _ _ _ _ _ Hloop). exists calls. by split.
Qed.


(** X13. [__translate_text] has no retry and no partial result. The calls
    it makes to the translator are made in order until one fails; that
    failure is the error of the whole translation, whatever was translated
    before is dropped and nothing after it is sent. A translation that
    returns made only calls that succeeded. *)
Theorem translate_text_stops_at_first_failure
    (E : Env) (text destination_language : string) (w : World) :
  exists calls,
    trace (translate_text E text destination_language w).2
    = trace w ++ (EvTranslate destination_language <$> calls)
    /\ calls_until_failure E destination_language calls
         (translate_text E text destination_language w).1.
Proof. apply translate_text_calls. Qed.

(** X14. A text over the maximum length that holds white space only is
    never sent to the translator: its translation is the empty string.
    (Up to the maximum length the same text is sent as it is.) *)
Theorem translate_text_blank_long_text
    (E : Env) (text destination_language : string) (w : World) :
  max_text_length < Str.len text ->
  nonempty_sentences E text = [] ->
  translate_text E text destination_language w = (Ok EmptyString, w).
Proof.
  intros Hlong Hblank. unfold translate_text.
  apply Nat.leb_gt in Hlong. rewrite Hlong.
  pose proof (translate_sentences_accumulates E destination_language
                (Str.split Str.newline (str_lstrip E text)) [] "" w) as Hloop.
  unfold nonempty_sentences in Hblank. rewrite Hblank in Hloop.
  specialize (Hloop ltac:(intros k Hk; simpl in Hk; lia)).
  by rewrite (bind_Ok_eq _ _ _ _ _ Hloop).
Qed.

Lemma translate_text_blank_long_text_witness :
  translate_text Demo.env (Str.replicate_char (2001 + 3000) " "%char) "en" Demo.w0
  = (Ok EmptyString, Demo.w0).
Proof.
  apply (translate_text_blank_long_text Demo.env (Str.replicate_char (2001 + 3000) " "%char)
           "en" Demo.w0).
  - apply Nat.ltb_lt. vm_compute. reflexivity.
  - vm_compute. reflexivity.
Defined.

(** ** Building the collection at start-up *)

Lemma csv_skills_loop_columns rows expert_skills expert_emails_ w :
  csv_skills_loop rows expert_skills expert_emails_ w
  = if decide (Forall (fun row : list string => 8 <= length row) rows) then
      (Ok (expert_skills ++ ((fun row => default EmptyString (row !! 7)) <$> rows),
           expert_emails_ ++ ((fun row => default EmptyString (row !! 3)) <$> rows)), w)
    else (Raise (Exn IndexError "list index out of range"), w).
Proof.
  revert expert_skills expert_emails_.
  induction rows as [|row rest IH]; intros expert_skills expert_emails_.
  - rewrite decide_True by constructor. simpl. by rewrite !app_nil_r.
  - cbn [csv_skills_loop]. rewrite !fmap_cons.
    unfold list_get. destruct (decide (8 <= length row)) as [Hlong|Hshort].
    + destruct (lookup_lt_is_Some_2 row 7 ltac:(lia)) as [skill Hskill].
      destruct (lookup_lt_is_Some_2 row 3 ltac:(lia)) as [email Hemail].
      rewrite Hskill, Hemail. simpl.
      rewrite (bind_Ok_eq _ _ w skill w) by reflexivity.
      rewrite (bind_Ok_eq _ _ w email w) by reflexivity.
      rewrite IH. destruct (decide (Forall _ rest)) as [Hrest|Hrest].
      * rewrite decide_True by (by constructor). by rewrite <- !app_assoc.
      * rewrite decide_False; [done|]. by intros [_ ?]%Forall_cons.
    + rewrite (lookup_ge_None_2 row 7) by lia.
      rewrite decide_False; [done|]. by intros [? _]%Forall_cons.
Qed.

(** X15. [__get_expert_skills_from_csv] skips the first row whatever it
    holds and reads column 7 and column 3 of every other row, in order, so
    the two lists it returns are aligned and as long as the file has data
    rows. One row with fewer than eight columns anywhere in the file makes
    the whole call fail with [IndexError], and a file without any row fails
    at the header. *)
Theorem get_expert_skills_from_csv_columns
    (header : list string) (rows : list (list string)) (w : World) :
  get_expert_skills_from_csv [] w = (Raise (Exn Exception EmptyString), w)
  /\ get_expert_skills_from_csv (header :: rows) w
     = if decide (Forall (fun row : list string => 8 <= length row) rows) then
         (Ok ((fun row => default EmptyString (row !! 7)) <$> rows,
              (fun row => default EmptyString (row !! 3)) <$> rows), w)
       else (Raise (Exn IndexError "list index out of range"), w).
Proof. split; [done|]. simpl. by rewrite csv_skills_loop_columns. Qed.





(** * The users file *)

Section UsersFile.

Import Database.

Lemma delete_rows_filter data user_email updated_data :
  Forall (fun row : list string => 4 <= length row) data ->
  delete_rows data user_email updated_data
  = Ok (updated_data ++ filter (fun row => row !! 3 <> Some user_email) data).
Proof.
  intros Hlong. revert updated_data.
  induction Hlong as [|row rest Hrow _ IH]; intros updated_data; simpl.
  - by rewrite app_nil_r.
  - destruct (lookup_lt_is_Some_2 row 3 ltac:(lia)) as [email Hemail].
    rewrite Hemail. destruct (decide (email = user_email)) as [->|Hne].
    + rewrite filter_cons_False by (simpl; intros H; by destruct H). apply IH.
    + rewrite filter_cons_True by (simpl; rewrite Hemail; by intros [= ?]).
      rewrite IH. by rewrite <- app_assoc.
Qed.

Lemma delete_rows_short data user_email updated_data :
  ~ Forall (fun row : list string => 4 <= length row) data ->
  delete_rows data user_email updated_data = Raise index_error.
Proof.
  revert updated_data. induction data as [|row rest IH]; intros updated_data Hshort.
  - destruct Hshort. constructor.
  - simpl. destruct (row !! 3) as [email|] eqn:Hemail; [|done].
    assert (Hrest : ~ Forall (fun row : list string => 4 <= length row) rest).
    { intros Hrest. apply Hshort. constructor; [|done].
      apply lookup_lt_Some in Hemail. lia. }
    destruct (decide _); by apply IH.
Qed.

Lemma filter_keeps_length {A} (P : A -> Prop) `{!forall x, Decision (P x)} (l : list A) :
  length (filter P l) = length l <-> Forall P l.
Proof.
  induction l as [|x l IH]; [done|].
  destruct (decide (P x)) as [HP|HP].
  - rewrite filter_cons_True by done. simpl. rewrite Forall_cons.
    split; [intros [= Hlen]; split; [done|by apply IH]
           |intros [_ Hall]; f_equal; by apply IH].
  - rewrite filter_cons_False by done. simpl. split.
    + intros Hlen. pose proof (length_filter P l). lia.
    + by intros [? _]%Forall_cons.
Qed.

(** X17. [delete_user_from_csv] rewrites the file without every row whose
    fourth column is the email, the header row included, and keeps the
    other rows in order. It reads the fourth column of every row first, so
    one row with fewer than four columns makes it fail with [IndexError]
    whoever is deleted; when no row holds the email it raises the
    user-not-found exception. In both failures the file is left as it was.
    A second deletion of the same email raises user-not-found. *)
Theorem delete_user_from_csv_removes_every_row (user_email : string) (file : csv) :
  delete_user_from_csv user_email file
  = (if decide (Forall (fun row : list string => 4 <= length row) file) then
       if decide (Exists (fun row => row !! 3 = Some user_email) file) then
         (Ok tt, filter (fun row => row !! 3 <> Some user_email) file)
       else (Raise user_not_found, file)
     else (Raise index_error, file))
  /\ ((delete_user_from_csv user_email file).1 = Ok tt ->
      delete_user_from_csv user_email (delete_user_from_csv user_email file).2
      = (Raise user_not_found, (delete_user_from_csv user_email file).2)).
Proof.
  assert (Hfirst : forall file,
    delete_user_from_csv user_email file
    = if decide (Forall (fun row : list string => 4 <= length row) file) then
        if decide (Exists (fun row => row !! 3 = Some user_email) file) then
          (Ok tt, filter (fun row => row !! 3 <> Some user_email) file)
        else (Raise user_not_found, file)
      else (Raise index_error, file)).
  { clear file. intros file. unfold delete_user_from_csv.
    destruct (decide (Forall _ file)) as [Hlong|Hshort];
      [|by rewrite delete_rows_short].
    rewrite delete_rows_filter by done. simpl.
    destruct (decide (Exists _ file)) as [Hin|Hout].
    - rewrite decide_False; [done|]. intros Hlen. symmetry in Hlen.
      apply filter_keeps_length in Hlen.
      apply Exists_exists in Hin as (row & Hrow & Hemail).
      by apply (proj1 (Forall_forall _ _) Hlen row Hrow).
    - rewrite decide_True; [done|]. symmetry. apply filter_keeps_length.
      apply Forall_forall. intros row Hrow Hemail.
      apply Hout, Exists_exists. by exists row. }
  split; [apply Hfirst|].
  rewrite (Hfirst file). destruct (decide (Forall _ file)) as [Hlong|]; [|done].
  destruct (decide (Exists _ file)); [|done]. intros _. simpl.
  rewrite Hfirst. rewrite decide_True.
  - rewrite decide_False; [done|].
    intros (row & [Hne _]%list_elem_of_filter & Hemail)%Exists_exists. done.
  - apply Forall_forall. intros row [_ Hrow]%list_elem_of_filter.
    by apply (proj1 (Forall_forall _ _) Hlong).
Qed.

Lemma delete_user_from_csv_removes_every_row_witness :
  delete_user_from_csv "ana@chu.ca" DemoUsers.users_file
  = (Ok tt, [required_columns; DemoUsers.bob])
  /\ delete_user_from_csv "ana@chu.ca"
       (delete_user_from_csv "ana@chu.ca" DemoUsers.users_file).2
     = (Raise user_not_found,
        (delete_user_from_csv "ana@chu.ca" DemoUsers.users_file).2).
Proof.
  split; [vm_compute; reflexivity|].
  apply (proj2 (delete_user_from_csv_removes_every_row "ana@chu.ca"
                  DemoUsers.users_file)).
  vm_compute. reflexivity.
Defined.

Lemma find_user_first rows user_email start position user :
  find_user rows user_email start = Ok (Some (position, user)) ->
  exists k,
    position = start + k
    /\ rows !! k = Some user
    /\ user !! 3 = Some user_email
    /\ forall j row, j < k -> rows !! j = Some row -> row !! 3 <> Some user_email.
Proof.
  revert start. induction rows as [|row rest IH]; intros start; simpl; [done|].
  destruct (row !! 3) as [email|] eqn:Hemail; [|done].
  destruct (decide (email = user_email)) as [->|Hne].
  - intros [= <- <-]. exists 0. split; [lia|]. split; [done|]. split; [done|].
    intros j row' Hj. lia.
  - intros (k & -> & Hk & Huser & Hbefore)%IH. exists (S k).
    split; [lia|]. split; [done|]. split; [done|].
    intros [|j] row' Hj; simpl.
    + intros [= <-]. rewrite Hemail. by intros [= ?].
    + apply Hbefore. lia.
Qed.

(** No two attributes share a column. *)
Lemma column_inj key1 key2 index :
  column key1 = Ok index -> column key2 = Ok index -> key1 = key2.
Proof.
  assert (Hname : forall key, column key = Ok index ->
            (fst <$> user_attributes_to_csv_columns_map) !! index = Some key).
  { intros key. unfold column. simpl.
    repeat (destruct (decide _) as [<-|_]; [by intros [= <-]|]). done. }
  intros H1%Hname H2%Hname. congruence.
Qed.

Lemma set_columns_updates user items user' :
  set_columns user items = Ok user' ->
  length user' = length user
  /\ Forall (fun item => exists index, column item.1 = Ok index /\ index < length user) items
  /\ (forall index, (forall item, item ∈ items -> column item.1 <> Ok index) ->
        user' !! index = user !! index)
  /\ (NoDup items.*1 ->
      forall key value, (key, value) ∈ items ->
        exists index, column key = Ok index /\ user' !! index = Some value).
Proof.
  revert user. induction items as [|[key value] rest IH]; intros user; simpl.
  - intros [= <-]. split; [done|]. split; [done|]. split; [done|].
    intros _ key value Hin. by apply elem_of_nil in Hin.
  - destruct (column key) as [index|e] eqn:Hkey; [|done].
    destruct (decide (index < length user)) as [Hindex|]; [|done].
    intros (Hlen & Hvalid & Hother & Hset)%IH. rewrite length_insert in Hlen, Hvalid.
    split; [done|]. split; [constructor; [by exists index|done]|]. split.
    + intros i Hi. rewrite Hother by (intros item Hitem; apply Hi; by right).
      apply list_lookup_insert_ne. intros ->. apply (Hi (key, value)); [by left|done].
    + intros [Hfresh Hnodup]%NoDup_cons key' value' [[= -> ->]|Hin]%elem_of_cons.
      * exists index. split; [done|]. rewrite Hother.
        -- by apply list_lookup_insert_eq.
        -- intros [key2 value2] Hitem Hkey2. simpl in Hkey2.
           apply Hfresh. rewrite <- (column_inj _ _ _ Hkey2 Hkey).
           apply list_elem_of_fmap. by exists (key2, value2).
      * by apply Hset.
Qed.

(** X18. When [update_user_in_csv] succeeds the new file differs from the
    old one in exactly one row, the first row after the header whose fourth
    column is the email: the header, the number of rows and the length of
    the row are kept, a column no key names keeps its value, and the column
    of every key holds the value given for it. Every key is then the name
    of one of the fifteen columns, so a request that sets [tags], which the
    users table has and the file has not, never succeeds. *)
Theorem update_user_in_csv_changes_one_row
    (user_email : string) (items : list (string * string)) (file file' : csv) :
  update_user_in_csv user_email items file = (Ok tt, file') ->
  exists position user user',
    0 < position
    /\ file !! position = Some user
    /\ user !! 3 = Some user_email
    /\ (forall k row, 0 < k < position -> file !! k = Some row ->
          row !! 3 <> Some user_email)
    /\ file' = <[position := user']> file
    /\ length user' = length user
    /\ Forall (fun item => exists index,
                 column item.1 = Ok index /\ index < length user) items
    /\ (forall value, ("tags", value) ∉ items)
    /\ (forall index, (forall item, item ∈ items -> column item.1 <> Ok index) ->
          user' !! index = user !! index)
    /\ (NoDup items.*1 ->
        forall key value, (key, value) ∈ items ->
          exists index, column key = Ok index /\ user' !! index = Some value).
Proof.
  unfold update_user_in_csv.
  destruct (find_user (drop 1 file) user_email 1) as [[[position user]|]|e] eqn:Hfind;
    [|done..].
  destruct (set_columns user items) as [user'|e] eqn:Hset; [|done].
  intros [= <-]. exists position, user, user'.
  apply find_user_first in Hfind as (k & -> & Hk & Hemail & Hbefore).
  rewrite lookup_drop in Hk.
  apply set_columns_updates in Hset as (Hlen & Hvalid & Hother & Hkeys).
  split; [lia|]. split; [done|]. split; [done|]. split.
  { intros [|j] row Hj Hrow; [lia|]. apply (Hbefore j row); [lia|].
    by rewrite lookup_drop. }
  split; [done|]. split; [done|]. split; [done|]. split; [|done].
  intros value Hin.
  destruct (proj1 (Forall_forall _ _) Hvalid _ Hin) as (index & Hcolumn & _).
  discriminate.
Qed.

Lemma update_user_in_csv_changes_one_row_witness :
  exists position user user',
    0 < position
    /\ DemoUsers.users_file !! position = Some user
    /\ user !! 3 = Some "bob@chu.ca"
    /\ (forall k row, 0 < k < position -> DemoUsers.users_file !! k = Some row ->
          row !! 3 <> Some "bob@chu.ca")
    /\ (update_user_in_csv "bob@chu.ca"
          [("job_position", "Data engineer"); ("skills", "ETL")]
          DemoUsers.users_file).2
       = <[position := user']> DemoUsers.users_file
    /\ length user' = length user
    /\ Forall (fun item => exists index,
                 column item.1 = Ok index /\ index < length user)
         [("job_position", "Data engineer"); ("skills", "ETL")]
    /\ (forall value,
          ("tags", value) ∉ [("job_position", "Data engineer"); ("skills", "ETL")])
    /\ (forall index,
          (forall item, item ∈ [("job_position", "Data engineer"); ("skills", "ETL")] ->
             column item.1 <> Ok index) ->
          user' !! index = user !! index)
    /\ (NoDup [("job_position", "Data engineer"); ("skills", "ETL")].*1 ->
        forall key value,
          (key, value) ∈ [("job_position", "Data engineer"); ("skills", "ETL")] ->
          exists index, column key = Ok index /\ user' !! index = Some value).
Proof.
  apply (update_user_in_csv_changes_one_row "bob@chu.ca"
           [("job_position", "Data engineer"); ("skills", "ETL")]
           DemoUsers.users_file).
  vm_compute. reflexivity.
Defined.



End UsersFile.

(** * The paragraphs of keyword extraction *)

Lemma prompts_snoc tr ev :
  prompts (tr ++ [ev])
  = prompts tr ++ match ev with EvGenerate p => [p] | _ => [] end.
Proof. unfold prompts. rewrite omap_app. by destruct ev. Qed.

(** The retry loop of the keyword chain sends the same prompt once per
    attempt it makes. *)
Lemma keywords_attempts_prompts E attempts llm_input retry_delay w :
  exists c,
    c <= length attempts
    /\ (attempts <> [] -> 1 <= c)
    /\ prompts (trace (keywords_attempts E attempts llm_input retry_delay w).2)
       = prompts (trace w) ++ replicate c (keywords_prompt E llm_input).
Proof.
  revert w. induction attempts as [|a attempts IH]; intros w.
  - exists 0. split; [done|]. split; [done|]. simpl. by rewrite app_nil_r.
  - simpl. unfold bind at 1, try_except, bind at 1, keywords_chain_predict, generate.
    assert (Hretry : forall (e : exn) w1,
              prompts (trace w1) = prompts (trace w) ++ [keywords_prompt E llm_input] ->
              exn_cls e = AttributeError ->
              exists c,
                c <= S (length attempts)
                /\ (a :: attempts <> [] -> 1 <= c)
                /\ prompts
                     (trace
                        (keywords_attempts E attempts llm_input retry_delay
                           (record_event (EvSleep retry_delay)
                              (record_event (EvLog LogError (exn_str e)) w1))).2)
                   = prompts (trace w) ++ replicate c (keywords_prompt E llm_input)).
    { intros e w1 Hw1 _.
      destruct (IH (record_event (EvSleep retry_delay)
                      (record_event (EvLog LogError (exn_str e)) w1)))
        as (c & Hc & _ & Hprompts).
      exists (S c). split; [lia|]. split; [lia|]. rewrite Hprompts. simpl.
      rewrite !prompts_snoc. simpl. rewrite !app_nil_r, Hw1. by rewrite <- app_assoc. }
    destruct (ollama E (generated w) (keywords_prompt E llm_input)) as [out|e]; simpl.
    + unfold bind, keywords_parser_parse, lift_result.
      destruct (keywords_parser E out) as [parsed|e]; simpl.
      * exists 1. split; [lia|]. split; [lia|]. by rewrite prompts_snoc.
      * destruct (decide (exn_cls e = AttributeError)); simpl.
        -- apply (Hretry e (generate E (keywords_prompt E llm_input) w).2);
          [simpl; by rewrite prompts_snoc|done].
        -- exists 1. split; [lia|]. split; [lia|]. by rewrite prompts_snoc.
    + destruct (decide (exn_cls e = AttributeError)); simpl.
      * apply (Hretry e (generate E (keywords_prompt E llm_input) w).2);
          [simpl; by rewrite prompts_snoc|done].
      * exists 1. split; [lia|]. split; [lia|]. by rewrite prompts_snoc.
Qed.

Lemma keywords_loop_cons E total i sentence rest sentences keywords :
  keywords_loop E total i (sentence :: rest) sentences keywords
  = let sentences := sentences ++ [str_lstrip E sentence] in
    if decide (length sentences = 5 \/ i = total - 1) then
      let paragraph := Str.join (String Str.newline EmptyString) sentences in
      let! llm_keywords :=
        try_get_llm_keywords E paragraph default_max_attempts default_retry_delay in
      let llm_keywords := str_lower E <$> llm_keywords in
      let candidate_keywords := remove_stop_words llm_keywords (nlp_fr E) in
      let! keybert_keywords :=
        lift_result (keywords_model E paragraph candidate_keywords) in
      let keybert_keywords := fst <$> keybert_keywords in
      let! keywords :=
        add_keywords E keybert_keywords candidate_keywords llm_keywords keywords in
      keywords_loop E total (S i) rest [] keywords
    else keywords_loop E total (S i) rest sentences keywords.
Proof. reflexivity. Qed.

Lemma paragraph_prompts_cons E all q c counts :
  paragraph_prompts E all q (c :: counts)
  = replicate c (keywords_prompt E (paragraph_at E all q))
    ++ paragraph_prompts E all (S q) counts.
Proof.
  unfold paragraph_prompts. rewrite imap_cons. simpl. rewrite Nat.add_0_r.
  f_equal. f_equal. apply imap_ext. intros k x _. simpl.
  by rewrite Nat.add_succ_r.
Qed.

(** The loop over the sentences, entered at sentence [5q + r] with the
    first [r] sentences of paragraph [q] collected. *)
Lemma keywords_loop_paragraphs E all remaining :
  forall q r sentences keywords w res w',
    remaining = drop (5 * q + r) all ->
    sentences = str_lstrip E <$> take r (drop (5 * q) all) ->
    r < 5 ->
    5 * q + r <= length all ->
    (remaining = [] -> r = 0) ->
    keywords_loop E (length all) (5 * q + r) remaining sentences keywords w = (res, w') ->
    exists counts,
      prompts (trace w') = prompts (trace w) ++ paragraph_prompts E all q counts
      /\ Forall (fun c => 1 <= c <= 3) counts
      /\ 5 * (q + length counts) < length all + 5
      /\ (forall kws, res = Ok kws -> length all <= 5 * (q + length counts)).
Proof.
  induction remaining as [|s rest IH];
    intros q r sentences keywords w res w' Hrem Hsent Hr Hle Hend.
  - rewrite (Hend eq_refl) in *. intros [= <- <-]. exists [].
    unfold paragraph_prompts. simpl. rewrite app_nil_r. split; [done|].
    split; [done|]. split; [lia|]. intros _ _.
    symmetry in Hrem. apply (f_equal length) in Hrem.
    rewrite length_drop in Hrem. simpl in Hrem. lia.
  - assert (Hs : all !! (5 * q + r) = Some s).
    { rewrite <- (Nat.add_0_r (5 * q + r)), <- lookup_drop, <- Hrem. done. }
    assert (Hlt : 5 * q + r < length all) by (by eapply lookup_lt_Some).
    assert (Hrest : rest = drop (S (5 * q + r)) all).
    { rewrite (drop_S _ _ _ Hs) in Hrem. by injection Hrem. }
    assert (Hsent' : sentences ++ [str_lstrip E s]
                     = str_lstrip E <$> take (S r) (drop (5 * q) all)).
    { rewrite (take_S_r _ _ s) by (by rewrite lookup_drop).
      by rewrite fmap_app, Hsent. }
    assert (Hlen' : length (sentences ++ [str_lstrip E s]) = S r).
    { rewrite Hsent', length_fmap, length_take, length_drop. lia. }
    rewrite keywords_loop_cons. cbv zeta. rewrite Hlen'.
    destruct (decide (S r = 5 \/ 5 * q + r = length all - 1)) as [Hcall|Hmore].
    + assert (Hparagraph : Str.join (String Str.newline EmptyString)
                              (sentences ++ [str_lstrip E s])
                            = paragraph_at E all q).
      { unfold paragraph_at. rewrite Hsent'. do 2 f_equal.
        destruct Hcall as [->|Hlast]; [done|].
        rewrite !take_ge; [done|rewrite length_drop; lia..]. }
      rewrite Hparagraph.
      set (paragraph := paragraph_at E all q).
      destruct (keywords_attempts_prompts E (seq 1 (default_max_attempts - 1))
                  paragraph default_retry_delay w) as (c & Hc & Hc1 & Hprompts).
      fold (try_get_llm_keywords E paragraph default_max_attempts default_retry_delay)
        in Hprompts.
      simpl in Hc. specialize (Hc1 ltac:(done)).
      assert (Hstop : forall w1,
                prompts (trace w1)
                = prompts (trace w) ++ replicate c (keywords_prompt E paragraph) ->
                exists counts,
                  prompts (trace w1) = prompts (trace w) ++ paragraph_prompts E all q counts
                  /\ Forall (fun c => 1 <= c <= 3) counts
                  /\ 5 * (q + length counts) < length all + 5).
      { intros w1 Hw1. exists [c]. rewrite paragraph_prompts_cons.
        unfold paragraph_prompts at 1. simpl. rewrite app_nil_r.
        split; [done|]. split; [constructor; [lia|constructor]|]. simpl. lia. }
      destruct (try_get_llm_keywords E paragraph default_max_attempts
                  default_retry_delay w) as [[llm_keywords|e] w1] eqn:Htry;
        simpl in Hprompts.
      2:{ rewrite (bind_Raise_eq _ _ _ _ _ Htry). intros [= <- <-].
          destruct (Hstop w1 Hprompts) as (counts & ? & ? & ?).
          exists counts. by repeat split. }
      rewrite (bind_Ok_eq _ _ _ _ _ Htry). cbv beta zeta.
      destruct (keywords_model E paragraph
                  (remove_stop_words (str_lower E <$> llm_keywords) (nlp_fr E)))
        as [keybert_keywords|e] eqn:Hkeybert.
      2:{ rewrite (bind_Raise_eq _ _ w1 e w1) by reflexivity.
          intros [= <- <-].
          destruct (Hstop w1 Hprompts) as (counts & ? & ? & ?).
          exists counts. by repeat split. }
      rewrite (bind_Ok_eq _ _ w1 keybert_keywords w1) by reflexivity.
      cbv beta zeta.
      pose proof (add_keywords_keeps E trace keybert_keywords.*1
                    (remove_stop_words (str_lower E <$> llm_keywords) (nlp_fr E))
                    (str_lower E <$> llm_keywords) keywords w1) as Htrace.
      destruct (add_keywords E keybert_keywords.*1 _ _ keywords w1)
        as [[keywords'|e] w2] eqn:Hadd; simpl in Htrace.
      2:{ rewrite (bind_Raise_eq _ _ _ _ _ Hadd). intros [= <- <-].
          destruct (Hstop w2 ltac:(by rewrite Htrace)) as (counts & ? & ? & ?).
          exists counts. by repeat split. }
      rewrite (bind_Ok_eq _ _ _ _ _ Hadd). cbv beta zeta.
      destruct rest as [|s' rest'].
      * simpl. intros [= <- <-].
        destruct (Hstop w2 ltac:(by rewrite Htrace)) as (counts & Hp & Hall & Hbound).
        exists [c]. rewrite paragraph_prompts_cons.
        unfold paragraph_prompts at 1. simpl. rewrite app_nil_r, Htrace.
        split; [done|]. split; [constructor; [lia|constructor]|]. split; [simpl; lia|].
        intros _ _. symmetry in Hrest. apply (f_equal length) in Hrest.
        rewrite length_drop in Hrest. simpl in *. lia.
      * assert (Hnotlast : 5 * q + r <> length all - 1).
        { intros Hlast. apply (f_equal length) in Hrest.
          rewrite length_drop in Hrest. simpl in Hrest. lia. }
        assert (Hfive : r = 4) by (destruct Hcall; [lia|done]). subst r.
        replace (S (5 * q + 4)) with (5 * S q + 0) in * by lia.
        intros Hrun.
        apply (IH (S q) 0 [] keywords' w2 res w') in Hrun
          as (counts & Hp & Hall & Hbound & Hok); [|done|done|lia|lia|done].
        exists (c :: counts). rewrite paragraph_prompts_cons, Hp, Htrace, Hprompts.
        rewrite <- app_assoc. split; [done|].
        split; [constructor; [lia|done]|]. simpl.
        split; [lia|]. intros kws Hres. specialize (Hok kws Hres). lia.
    + intros Hrun.
      replace (S (5 * q + r)) with (5 * q + S r) in * by lia.
      apply (IH q (S r) _ keywords w res w') in Hrun; [done|done|done|lia|lia|].
      intros ->. symmetry in Hrest. apply (f_equal length) in Hrest.
      rewrite length_drop in Hrest. simpl in Hrest. lia.
Qed.

(** X20. Keyword extraction sends the sentences of the translated text to
    the model in paragraphs of five, in order, the last paragraph holding
    what is left: the prompts of a call are the prompt of paragraph 0, then
    of paragraph 1, and so on, each sent between one and three times (the
    attempts of the retry loop). A call that returns has sent every
    paragraph, so every sentence once its paragraph was accepted; a call
    that fails has sent a prefix of the paragraphs. *)
Theorem get_keywords_sends_paragraphs_of_five
    (E : Env) (text : string) (w : World) (translated_text : string) (w1 : World) :
  text <> EmptyString ->
  translate_text E text "fr" w = (Ok translated_text, w1) ->
  let all := sents (nlp_fr E) translated_text in
  let run := get_keywords E text w in
  exists counts,
    prompts (trace run.2) = prompts (trace w) ++ paragraph_prompts E all 0 counts
    /\ Forall (fun c => 1 <= c <= 3) counts
    /\ 5 * length counts < length all + 5
    /\ (forall keywords, run.1 = Ok keywords -> length all <= 5 * length counts).
Proof.
  intros Htext Htranslate. simpl. unfold get_keywords.
  rewrite decide_False by done. rewrite (bind_Ok_eq _ _ _ _ _ Htranslate).
  assert (Hsame : prompts (trace w1) = prompts (trace w)).
  { destruct (translate_text_calls E text "fr" w) as (calls & Htrace & _).
    rewrite Htranslate in Htrace. simpl in Htrace. rewrite Htrace.
    unfold prompts. rewrite omap_app.
    assert (Hnone : omap (fun ev => match ev with EvGenerate p => Some p | _ => None end)
                      (EvTranslate "fr" <$> calls) = []).
    { clear Htrace. induction calls as [|c calls IHc]; [done|]. simpl. exact IHc. }
    by rewrite Hnone, app_nil_r. }
  set (all := sents (nlp_fr E) translated_text).
  destruct (keywords_loop E (length all) 0 all [] ∅ w1) as [res w2] eqn:Hloop.
  pose proof Hloop as Hloop'.
  apply (keywords_loop_paragraphs E all all 0 0 [] ∅ w1 res w2) in Hloop
    as (counts & Hp & Hall & Hbound & Hok); [|done|done|lia|lia|].
  - exists counts. rewrite <- Hsame. simpl in Hbound, Hok.
    destruct res as [keywords|e].
    + rewrite (bind_Ok_eq _ _ w1 keywords w2) by exact Hloop'. simpl.
      split; [done|]. split; [done|]. split; [done|]. intros _ _. by eapply Hok.
    + rewrite (bind_Raise_eq _ _ w1 e w2) by exact Hloop'. simpl.
      split; [done|]. split; [done|]. split; [done|]. done.
  - intros Hnil. done.
Qed.

Lemma get_keywords_sends_paragraphs_of_five_witness :
  let all := sents Demo.nlp "un. deux. trois. quatre. cinq. six" in
  let run := get_keywords Demo.env "un. deux. trois. quatre. cinq. six" Demo.w0 in
  exists counts,
    prompts (trace run.2)
    = prompts (trace Demo.w0) ++ paragraph_prompts Demo.env all 0 counts
    /\ Forall (fun c => 1 <= c <= 3) counts
    /\ 5 * length counts < length all + 5
    /\ (forall keywords, run.1 = Ok keywords -> length all <= 5 * length counts).
Proof.
  eapply (get_keywords_sends_paragraphs_of_five Demo.env
            "un. deux. trois. quatre. cinq. six" Demo.w0
            "un. deux. trois. quatre. cinq. six").
  - done.
  - vm_compute. reflexivity.
Defined.
